(** * peaks.js segment overlay: coordinate mapper, zoom view scrolling,
      hover resolver, drag resolver and visibility reconciliation

    A shallow embedding of
      - module [peaks/waveform/waveform.utils]
        (in [src/main/waveform/waveform.mixins.js]):
        [Utils.clamp], [Utils.isNumber], [Number.isFinite], [zeroPad],
        [Utils.formatTime], [Utils.roundUpToNearest], [Utils.extend],
        [Utils.isInAscendingOrder], [Utils.timesEqualInHundreths];
      - module [peaks/waveform/waveform.mixins] (in the same file):
        [dragBoundFunc] and the [dragstart] listener of the handle made by
        [createSegmentMarker];
      - module [peaks/views/waveform-shape]
        (in [src/main/views/waveform-shape.js]):
        [scaleY], [_drawWaveform];
      - module [peaks/views/waveform.zoomview] (in the same file):
        [timeToPixels], [pixelsToTime], [setAmplitudeScale],
        [_updateWaveform], [_syncPlayhead], [setZoomLevel], [nudgeFrame],
        and the listeners that the constructor registers;
      - module [peaks/views/segments-layer]
        (in [src/main/views/segments-layer.js], the pointer-driven version):
        [emitEvents], [_renderSegmentGroup], [_createSegmentGroup],
        [_addSegmentGroup], [_removeSegment], [updateSegments],
        [_updateVisibleSegments], [_removeInvisibleSegments],
        [_findSegmentNeighbours], the window [mouseup] listener, the handle
        steps of the [mousedown] listener, and the listeners of
        ['segments.update'], ['segments.remove'] and [mouseleave];
      - the marker-driven segments layer of [src/unnamed/part_000]:
        [_updateSegment], [_onSegmentHandleDrag].

    Numbers.  A JavaScript number is modelled as an exact rational when it is
    finite; rounding of binary64 arithmetic and signed zeros are not modelled.
    The zoom view, whose inputs come from event payloads, works on [JsNum]
    (finite, NaN, +Infinity, -Infinity).  The segments layer works on finite
    numbers ([Q]); the pointer position, which is [undefined] until the first
    pointer event, is an [option Q] and every comparison with [undefined] is
    false, as in JavaScript. *)

From Stdlib Require Import QArith Qround Qabs ZArith List String Ascii Bool Lia Lqa
  DecimalString Sorted.
Import ListNotations.
Local Open Scope Q_scope.

(** ** Comparisons on finite numbers *)

Definition Qltb (x y : Q) : bool := negb (Qle_bool y x).
Definition Qgtb (x y : Q) : bool := Qltb y x.
Definition Qgeb (x y : Q) : bool := Qle_bool y x.

(** ** JavaScript numbers with their special values *)

Module Js.

Inductive JsNum : Type :=
| Fin (q : Q)
| NaN
| PosInf
| NegInf.

(** A JavaScript value as far as [typeof v === 'number'] can tell. *)
Inductive JsValue : Type :=
| VNumber (n : JsNum)
| VOther.

Definition ofZ (z : Z) : JsNum := Fin (inject_Z z).

(** [a < b]; any comparison with NaN is false. *)
Definition lt (a b : JsNum) : bool :=
  match a, b with
  | NaN, _ | _, NaN => false
  | Fin x, Fin y => Qltb x y
  | NegInf, NegInf => false
  | NegInf, _ => true
  | _, NegInf => false
  | PosInf, _ => false
  | Fin _, PosInf => true
  end.

Definition gt (a b : JsNum) : bool := lt b a.

Definition neg (a : JsNum) : JsNum :=
  match a with
  | Fin x => Fin (- x)
  | NaN => NaN
  | PosInf => NegInf
  | NegInf => PosInf
  end.

Definition add (a b : JsNum) : JsNum :=
  match a, b with
  | NaN, _ | _, NaN => NaN
  | Fin x, Fin y => Fin (x + y)
  | PosInf, NegInf | NegInf, PosInf => NaN
  | PosInf, _ | _, PosInf => PosInf
  | NegInf, _ | _, NegInf => NegInf
  end.

(** The infinity carrying the sign of [x], NaN when [x] is zero. *)
Definition signed_inf (x : Q) : JsNum :=
  if Qltb 0 x then PosInf else if Qltb x 0 then NegInf else NaN.

Definition mul (a b : JsNum) : JsNum :=
  match a, b with
  | NaN, _ | _, NaN => NaN
  | Fin x, Fin y => Fin (x * y)
  | Fin x, PosInf | PosInf, Fin x => signed_inf x
  | Fin x, NegInf | NegInf, Fin x => neg (signed_inf x)
  | PosInf, PosInf | NegInf, NegInf => PosInf
  | PosInf, NegInf | NegInf, PosInf => NegInf
  end.

Definition div (a b : JsNum) : JsNum :=
  match a, b with
  | NaN, _ | _, NaN => NaN
  | Fin x, Fin y => if Qeq_bool y 0 then signed_inf x else Fin (x / y)
  | Fin _, _ => Fin 0
  | PosInf, Fin y => if Qltb y 0 then NegInf else PosInf
  | NegInf, Fin y => if Qltb y 0 then PosInf else NegInf
  | _, _ => NaN
  end.

(** [Math.round]: round half up, [floor (x + 1/2)]. *)
Definition round (a : JsNum) : JsNum :=
  match a with
  | Fin x => ofZ (Qfloor (x + (1 # 2)))
  | other => other
  end.

(** [Number.isFinite], on a value and on a number. *)
Definition num_isFinite (n : JsNum) : bool :=
  match n with
  | Fin _ => true
  | _ => false
  end.

Definition isFinite (v : JsValue) : bool :=
  match v with
  | VNumber n => num_isFinite n
  | VOther => false
  end.

(** [a >= b]; any comparison with NaN is false. *)
Definition ge (a b : JsNum) : bool :=
  match a, b with
  | NaN, _ | _, NaN => false
  | _, _ => negb (lt a b)
  end.

Definition sub (a b : JsNum) : JsNum := add a (neg b).

(** [a === b] on two numbers: NaN equals nothing, itself included. *)
Definition strict_eq (a b : JsNum) : bool :=
  match a, b with
  | Fin x, Fin y => Qeq_bool x y
  | PosInf, PosInf | NegInf, NegInf => true
  | _, _ => false
  end.

(** [Math.floor], [Math.ceil] and [Math.abs]. *)
Definition floor (a : JsNum) : JsNum :=
  match a with
  | Fin x => ofZ (Qfloor x)
  | other => other
  end.

Definition ceil (a : JsNum) : JsNum :=
  match a with
  | Fin x => ofZ (Qceiling x)
  | other => other
  end.

Definition abs (a : JsNum) : JsNum :=
  match a with
  | Fin x => Fin (Qabs x)
  | NaN => NaN
  | PosInf | NegInf => PosInf
  end.

(** [Math.min(a, b)] and [Math.max(a, b)]: NaN as soon as one argument is. *)
Definition Math_min (a b : JsNum) : JsNum :=
  match a, b with
  | NaN, _ | _, NaN => NaN
  | _, _ => if lt b a then b else a
  end.

Definition Math_max (a b : JsNum) : JsNum :=
  match a, b with
  | NaN, _ | _, NaN => NaN
  | _, _ => if lt a b then b else a
  end.

(** The integer part of a finite number, toward zero. *)
Definition truncate (x : Q) : Z := if Qltb x 0 then Qceiling x else Qfloor x.

(** [a | 0], the ToInt32 conversion: the integer part, modulo [2^32], taken
    in [[-2^31, 2^31)]; NaN and the infinities give 0. *)
Definition toInt32 (a : JsNum) : Z :=
  match a with
  | Fin x => ((truncate x + 2 ^ 31) mod 2 ^ 32 - 2 ^ 31)%Z
  | _ => 0%Z
  end.

End Js.

(** ** waveform.utils *)

Module Utils.
Import Js.

(** [Utils.isNumber]: [typeof value === 'number'] (true of NaN and of the
    infinities). *)
Definition isNumber (v : JsValue) : bool :=
  match v with
  | VNumber _ => true
  | VOther => false
  end.

(** [Utils.clamp(value, min, max)]. *)
Definition clamp (value min max : JsNum) : JsNum :=
  if lt value min then min
  else if gt value max then max
  else value.

(** The decimal string of an integer, as the conversion of a number to a
    string writes it. *)
Definition toString (z : Z) : string := NilZero.string_of_int (Z.to_int z).

(** [zeroPad(number)].  Where the source returns the number itself, its
    caller ([join], [+]) turns it into the string. *)
Definition zeroPad (number : Z) : string :=
  if (number <? 10)%Z then String.append "0" (toString number)
  else toString number.

(** [Utils.formatTime(time, dropHundredths)] for a finite [time].  [time % 1]
    keeps the sign of [time]; [%] on the integers is [Z.rem]. *)
Definition formatTime (time : Q) (dropHundredths : bool) : string :=
  let hundredths := Qfloor ((time - inject_Z (truncate time)) * 100) in
  let seconds := Qfloor time in
  let minutes := (seconds / 60)%Z in
  let hours := (minutes / 60)%Z in
  let result :=
    (if (hours >? 0)%Z then [hours] else [])
    ++ [Z.rem minutes 60; Z.rem seconds 60] in
  let result := String.concat ":" (map zeroPad result) in
  if dropHundredths then result
  else String.append result (String.append "." (zeroPad hundredths)).



(** [Utils.roundUpToNearest(value, multiple)]. *)
Definition roundUpToNearest (value multiple : JsNum) : JsNum :=
  if strict_eq multiple (Fin 0) then Fin 0
  else
    let '(multiplier, value) :=
      if lt value (Fin 0) then (Fin (-1), neg value) else (Fin 1, value) in
    let roundedUp := ceil value in
    mul (mul multiplier
             (ofZ (toInt32 (div (sub (add roundedUp multiple) (Fin 1)) multiple))))
        multiple.

(** An object as the list of its own enumerable properties, in the order of
    [for ... in]; reading a missing key gives [undefined] ([None]). *)
Section Objects.
Context {V : Type}.

Fixpoint prop_get (o : list (string * V)) (key : string) : option V :=
  match o with
  | [] => None
  | (k, v) :: rest => if String.eqb k key then Some v else prop_get rest key
  end.

(** [o[key] = v]: an existing key keeps its place, a new one goes last. *)
Fixpoint prop_set (o : list (string * V)) (key : string) (v : V)
  : list (string * V) :=
  match o with
  | [] => [(key, v)]
  | (k, v0) :: rest =>
      if String.eqb k key then (k, v) :: rest else (k, v0) :: prop_set rest key v
  end.

(** [Utils.extend(to, from)]. *)
Definition extend (to from : list (string * V)) : list (string * V) :=
  fold_left
    (fun to key =>
       match prop_get from key with
       | Some v => prop_set to key v
       | None => to
       end)
    (map fst from) to.

End Objects.

(** [Utils.isInAscendingOrder(array)]: the loop from index 1, [value]
    being the element before. *)
Fixpoint ascending_after (value : JsNum) (rest : list JsNum) : bool :=
  match rest with
  | [] => true
  | next :: rest' => if ge value next then false else ascending_after next rest'
  end.

Definition isInAscendingOrder (array : list JsNum) : bool :=
  match array with
  | [] => true
  | value :: rest => ascending_after value rest
  end.


End Utils.

(** ** The coordinate mapper *)

Module Mapper.

(** [this._data.adapter] of the zoom view: the resampled waveform's sample
    rate (samples per second) and scale (samples per pixel). *)
Record Adapter : Type := mkAdapter {
  sample_rate : Q;
  scale : Q
}.

(** [timeToPixels]: [Math.floor(time * sample_rate / scale)]. *)
Definition timeToPixels (a : Adapter) (time : Q) : Z :=
  Qfloor (time * sample_rate a / scale a).

(** [pixelsToTime]: [pixels * scale / sample_rate]. *)
Definition pixelsToTime (a : Adapter) (pixels : Q) : Q :=
  pixels * scale a / sample_rate a.

End Mapper.

(** ** The zoom view: amplitude scale and scrolling *)

Module ZoomView.
Import Js.

(** The fields of [WaveformZoomView] that the scroll update and the
    amplitude setter read or write. *)
Record View : Type := mkView {
  adapter : Mapper.Adapter;
  pixelLength : Z;
  width : Z;
  frameOffset : JsNum;
  amplitudeScale : JsNum
}.

(** [pixelsToTime] on any number, as [_updateWaveform] applies it to the
    offset it has just stored. *)
Definition pixelsToTime (v : View) (pixels : JsNum) : JsNum :=
  div (mul pixels (Fin (Mapper.scale (adapter v))))
      (Fin (Mapper.sample_rate (adapter v))).

(** What a call leaves behind besides the view itself: the exception it
    threw, or the range it announced with ['zoomview.displaying'] (the same
    range is handed to the points and segments layers). *)
Inductive Outcome : Type :=
| Displaying (frameStartTime frameEndTime : JsNum)
| Thrown (message : string)
| Done.

(** [setAmplitudeScale(scale)]. *)
Definition setAmplitudeScale (v : View) (s : JsValue) : View * Outcome :=
  if negb (Utils.isNumber s) || negb (isFinite s) then
    (v, Thrown "view.setAmplitudeScale(): Scale must be a valid number")
  else
    match s with
    | VNumber n =>
        (mkView (adapter v) (pixelLength v) (width v) (frameOffset v) n, Done)
    | VOther => (v, Done)
    end.

(** [_updateWaveform(frameOffset)]. *)
Definition _updateWaveform (v : View) (offset : JsNum) : View * Outcome :=
  let '(offset1, upperLimit) :=
    if (pixelLength v <? width v)%Z
    then (Fin 0, ofZ (width v))
    else (offset, ofZ (pixelLength v - width v)) in
  let offset2 := Utils.clamp (round offset1) (Fin 0) upperLimit in
  let v' := mkView (adapter v) (pixelLength v) (width v) offset2
                   (amplitudeScale v) in
  let frameStartTime := pixelsToTime v' (frameOffset v') in
  let frameEndTime := pixelsToTime v' (add (frameOffset v') (ofZ (width v'))) in
  (v', Displaying frameStartTime frameEndTime).

(** *** The listeners of the zoom view

    The constructor of [WaveformZoomView] registers listeners on the stage,
    on the container, on the document, and on the events of [peaks].  They
    work on the view and on three more fields; [outcomes] lists what the
    calls of [_updateWaveform] and [setAmplitudeScale] made by the listeners
    left behind, latest first.  The playhead layer, the points layer and the
    segments layer, which the listeners also notify, keep their state to
    themselves and are left out.  An event that a listener emits on [peaks]
    and listens to itself (['user_scroll.zoomview'],
    ['user_amp_scale.zoomview']) runs that listener at once. *)

(** [timeToPixels] on any number. *)
Definition timeToPixels (v : View) (time : JsNum) : JsNum :=
  floor (div (mul time (Fin (Mapper.sample_rate (adapter v))))
             (Fin (Mapper.scale (adapter v)))).

(** [keyupListeners] counts the [keyup] listeners on the document: one is
    added by every [keydown] with the meta or control key, and
    [_handleCtrlKeyUp] removes none, since it names another function than
    the one that was added.  [nudgeIncrement] is the option of that name. *)
Record Running : Type := mkRunning {
  view : View;
  _isCmdModifier : bool;
  _isMouseOver : bool;
  keyupListeners : nat;
  nudgeIncrement : JsNum;
  outcomes : list Outcome
}.

Definition set_view (v : View) (s : Running) : Running :=
  mkRunning v (_isCmdModifier s) (_isMouseOver s) (keyupListeners s)
            (nudgeIncrement s) (outcomes s).

Definition set_frameOffset (offset : JsNum) (v : View) : View :=
  mkView (adapter v) (pixelLength v) (width v) offset (amplitudeScale v).

Definition set_width (w : Z) (v : View) : View :=
  mkView (adapter v) (pixelLength v) w (frameOffset v) (amplitudeScale v).

(** [self._updateWaveform(offset)] and [self.setAmplitudeScale(scale)] called
    by a listener. *)
Definition call_updateWaveform (offset : JsNum) (s : Running) : Running :=
  let '(v, o) := _updateWaveform (view s) offset in
  mkRunning v (_isCmdModifier s) (_isMouseOver s) (keyupListeners s)
            (nudgeIncrement s) (o :: outcomes s).

Definition call_setAmplitudeScale (scale : JsValue) (s : Running) : Running :=
  let '(v, o) := setAmplitudeScale (view s) scale in
  mkRunning v (_isCmdModifier s) (_isMouseOver s) (keyupListeners s)
            (nudgeIncrement s) (o :: outcomes s).

(** The constructor: the data resampled at the initial zoom level, the
    width of the container, offset 0, amplitude scale 1; [_createWaveform]
    announces the first range. *)
Definition create (resampled : Mapper.Adapter) (length clientWidth : Z)
                  (nudge : JsNum) : Running :=
  let v := mkView resampled length clientWidth (Fin 0) (Fin 1) in
  mkRunning v false false 0 nudge
            [Displaying (Fin 0) (pixelsToTime v (ofZ clientWidth))].

(** The [wheel] listener of the stage. *)
Definition wheel (deltaX deltaY : JsNum) (s : Running) : Running :=
  let v := view s in
  let diff :=
    if ge (abs deltaX) (abs deltaY) then deltaX else mul deltaY (Fin (-1)) in
  if _isCmdModifier s then
    call_setAmplitudeScale
      (VNumber (Math_min (Fin (5 # 2))
                  (Math_max (Fin (1 # 2))
                     (add (amplitudeScale v) (div diff (Fin 50))))))
      s
  else
    let newFrameOffset :=
      Utils.clamp (round (add (frameOffset v) diff)) (Fin 0)
                  (ofZ (pixelLength v - width v)) in
    if negb (strict_eq newFrameOffset (frameOffset v))
    then call_updateWaveform newFrameOffset s
    else s.

(** The [keydown] listener of the document, and the [keyup] listeners it
    has added so far. *)
Definition keydown (metaKey ctrlKey : bool) (s : Running) : Running :=
  if metaKey || ctrlKey then
    mkRunning (view s) true (_isMouseOver s) (S (keyupListeners s))
              (nudgeIncrement s) (outcomes s)
  else s.

Definition keyup (s : Running) : Running :=
  match keyupListeners s with
  | O => s
  | S _ =>
      mkRunning (view s) false (_isMouseOver s) (keyupListeners s)
                (nudgeIncrement s) (outcomes s)
  end.

(** The [mouseenter] and [mouseleave] listeners of the container. *)
Definition container_mouse (over : bool) (s : Running) : Running :=
  mkRunning (view s) (_isCmdModifier s) over (keyupListeners s)
            (nudgeIncrement s) (outcomes s).

(** [_syncPlayhead(time, scroll)]. *)
Definition _syncPlayhead (time : JsNum) (scroll : bool) (s : Running)
  : Running :=
  if scroll then
    let v := view s in
    let pixelIndex := timeToPixels v time in
    let endThreshold := sub (add (frameOffset v) (ofZ (width v))) (Fin 100) in
    if ge pixelIndex endThreshold || lt pixelIndex (frameOffset v) then
      let offset := sub pixelIndex (Fin 100) in
      let offset := if lt offset (Fin 0) then Fin 0 else offset in
      call_updateWaveform offset (set_view (set_frameOffset offset v) s)
    else s
  else s.

(** The listener of ['user_seek']. *)
Definition user_seek (time : JsNum) (s : Running) : Running :=
  let v := view s in
  let frameIndex := timeToPixels v time in
  call_updateWaveform
    (sub frameIndex (floor (div (ofZ (width v)) (Fin 2)))) s.

(** The listener of ['window_resize']; [clientWidth] is the width the
    container has by then. *)
Definition window_resize (clientWidth : Z) (s : Running) : Running :=
  let s1 := set_view (set_width clientWidth (view s)) s in
  call_updateWaveform (frameOffset (view s1)) s1.

(** [nudgeFrame(direction, large)]. *)
Definition nudgeFrame (direction : Z) (large : bool) (s : Running) : Running :=
  let v := view s in
  let increment :=
    if large then mul (ofZ direction) (ofZ (width v))
    else mul (ofZ direction) (timeToPixels v (nudgeIncrement s)) in
  call_updateWaveform (add (frameOffset v) increment) s.

(** [setZoomLevel(currentScale, previousScale)].  [currentTime] is what the
    player reports, [playheadOffset] what the playhead layer reports, and
    [resampled] with [length] the adapter of the data resampled at
    [currentScale] with its length. *)
Definition setZoomLevel (currentTime playheadOffset : JsNum)
                        (resampled : Mapper.Adapter) (length : Z)
                        (s : Running) : Running :=
  let v := view s in
  let '(apexTime, playheadOffsetPixels) :=
    if ge playheadOffset (Fin 0) && lt playheadOffset (ofZ (width v))
    then (currentTime, playheadOffset)
    else
      let half := div (ofZ (width v)) (Fin 2) in
      (pixelsToTime v (add (frameOffset v) half), half) in
  let v1 := mkView resampled length (width v) (frameOffset v)
                   (amplitudeScale v) in
  let apexPixel := timeToPixels v1 apexTime in
  let offset := sub apexPixel playheadOffsetPixels in
  call_updateWaveform offset (set_view (set_frameOffset offset v1) s).

(** What reaches the listeners. *)
Inductive Event : Type :=
| Wheel (deltaX deltaY : JsNum)
| KeyDown (metaKey ctrlKey : bool)
| KeyUp
| ContainerMouseEnter
| ContainerMouseLeave
| PlayerTimeUpdate (time : JsNum)
| UserSeek (time : JsNum)
| UserScroll (pixelOffset : JsNum)
| UserAmpScale (scale : JsValue)
| ZoomUpdate (currentTime playheadOffset : JsNum)
             (resampled : Mapper.Adapter) (length : Z)
| WindowResize (clientWidth : Z)
| KeyboardLeft
| KeyboardRight
| KeyboardShiftLeft
| KeyboardShiftRight.

Definition handle (e : Event) (s : Running) : Running :=
  match e with
  | Wheel deltaX deltaY => wheel deltaX deltaY s
  | KeyDown metaKey ctrlKey => keydown metaKey ctrlKey s
  | KeyUp => keyup s
  | ContainerMouseEnter => container_mouse true s
  | ContainerMouseLeave => container_mouse false s
  | PlayerTimeUpdate time => _syncPlayhead time (negb (_isMouseOver s)) s
  | UserSeek time => user_seek time s
  | UserScroll pixelOffset => call_updateWaveform pixelOffset s
  | UserAmpScale scale => call_setAmplitudeScale scale s
  | ZoomUpdate currentTime playheadOffset resampled length =>
      setZoomLevel currentTime playheadOffset resampled length s
  | WindowResize clientWidth => window_resize clientWidth s
  | KeyboardLeft => nudgeFrame (-1) false s
  | KeyboardRight => nudgeFrame 1 false s
  | KeyboardShiftLeft => nudgeFrame (-1) true s
  | KeyboardShiftRight => nudgeFrame 1 true s
  end.




End ZoomView.

(** ** The segments layer *)

Module SegmentsLayer.

(** *** Data *)

(** A segment is identified by its [id]; a segment group (the [Konva.Group]
    built for a segment) by a reference.  Segment objects and group objects
    are shared: a group reads its segment through the id, and a neighbour is
    a reference to another group, so a write through one path is seen
    through the other. *)
Definition SegId : Type := string.
Definition Ref : Type := nat.

Record Segment : Type := mkSegment {
  startTime : Q;
  endTime : Q;
  isFocused : bool
}.

(** [Konva.Rect] of the highlight: [x()], [width()], [height()]. *)
Record Rect : Type := mkRect {
  rect_x : Q;
  rect_width : Q;
  rect_height : Q
}.

(** A handle as [_createHandle] builds it.  [isMouseOver] is [undefined]
    ([None]) until [emitEvents] first writes it.  [isMouseDragging] is only
    ever tested for truth, so its [undefined] is [false]. *)
Record Handle : Type := mkHandle {
  handle_isMouseOver : option bool;
  handle_isMouseDragging : bool;
  mouseStartDiffX : Q;
  handle_x : Q;
  handle_width : Q;
  handle_height : Q
}.

(** The result of [_findSegmentNeighbours], stored at mousedown. *)
Record Neighbours : Type := mkNeighbours {
  left : option Ref;
  right : option Ref
}.

(** [highlightRectDistance] is NaN ([None]) when the pointer position is
    [undefined].  [isSegmentTouching] is only tested for truth. *)
Record SegmentGroup : Type := mkSegmentGroup {
  segment : SegId;
  isMouseOver : option bool;
  isSegmentTouching : bool;
  highlightRectDistance : option Q;
  highlightRect : Rect;
  startHandle : Handle;
  endHandle : Handle;
  neighbours : Neighbours
}.

(** What the layer reads from its view. *)
Record ViewPort : Type := mkViewPort {
  adapter : Mapper.Adapter;
  frameOffset : Q;
  width : Q;
  height : Q
}.

(** Events passed to [peaks.emit].  [isInHandle] is the payload key of that
    name: [Some true], [Some false], or [None] when the key is absent. *)
Inductive Event : Type :=
| SegmentGroupMouseenter (g : Ref)
| SegmentGroupMouseleave (g : Ref)
| HandleMouseenter (g : Ref) (isInHandle : option bool)
| HandleMouseleave (g : Ref) (isInHandle : option bool)
| SegmentsDragged (g : Ref) (isInHandle : option bool)
| ZoomviewMouseup.

(** The layer with the objects it shares with the host: [segs] are the
    segment objects of the host's store, [groups] the group objects ever
    created ([nextRef] is the next fresh reference), [_segmentGroups] the
    registry in insertion order.  [emitted] lists the events emitted so far,
    latest first; [draws] counts the calls of [this._layer.draw()]. *)
Record Layer : Type := mkLayer {
  _view : ViewPort;
  segs : SegId -> Segment;
  groups : Ref -> SegmentGroup;
  nextRef : Ref;
  _segmentGroups : list (SegId * Ref);
  _handleSize : Q;
  _mouseX : option Q;
  _mouseY : option Q;
  _isMouseDragging : bool;
  _isMouseOver : bool;
  _visibleSegmentsCount : nat;
  emitted : list Event;
  draws : nat
}.

(** *** Field updates *)

Definition set_startTime (t : Q) (s : Segment) : Segment :=
  mkSegment t (endTime s) (isFocused s).
Definition set_endTime (t : Q) (s : Segment) : Segment :=
  mkSegment (startTime s) t (isFocused s).

Definition set_handle_isMouseOver (b : option bool) (h : Handle) : Handle :=
  mkHandle b (handle_isMouseDragging h) (mouseStartDiffX h) (handle_x h)
           (handle_width h) (handle_height h).
Definition set_handle_isMouseDragging (b : bool) (h : Handle) : Handle :=
  mkHandle (handle_isMouseOver h) b (mouseStartDiffX h) (handle_x h)
           (handle_width h) (handle_height h).
Definition set_mouseStartDiffX (d : Q) (h : Handle) : Handle :=
  mkHandle (handle_isMouseOver h) (handle_isMouseDragging h) d (handle_x h)
           (handle_width h) (handle_height h).
Definition set_handle_x (x : Q) (h : Handle) : Handle :=
  mkHandle (handle_isMouseOver h) (handle_isMouseDragging h)
           (mouseStartDiffX h) x (handle_width h) (handle_height h).

Definition set_isMouseOver (b : option bool) (g : SegmentGroup) : SegmentGroup :=
  mkSegmentGroup (segment g) b (isSegmentTouching g) (highlightRectDistance g)
                 (highlightRect g) (startHandle g) (endHandle g) (neighbours g).
Definition set_isSegmentTouching (b : bool) (g : SegmentGroup) : SegmentGroup :=
  mkSegmentGroup (segment g) (isMouseOver g) b (highlightRectDistance g)
                 (highlightRect g) (startHandle g) (endHandle g) (neighbours g).
Definition set_highlightRectDistance (d : option Q) (g : SegmentGroup)
  : SegmentGroup :=
  mkSegmentGroup (segment g) (isMouseOver g) (isSegmentTouching g) d
                 (highlightRect g) (startHandle g) (endHandle g) (neighbours g).
Definition set_highlightRect (r : Rect) (g : SegmentGroup) : SegmentGroup :=
  mkSegmentGroup (segment g) (isMouseOver g) (isSegmentTouching g)
                 (highlightRectDistance g) r (startHandle g) (endHandle g)
                 (neighbours g).
Definition set_startHandle (h : Handle) (g : SegmentGroup) : SegmentGroup :=
  mkSegmentGroup (segment g) (isMouseOver g) (isSegmentTouching g)
                 (highlightRectDistance g) (highlightRect g) h (endHandle g)
                 (neighbours g).
Definition set_endHandle (h : Handle) (g : SegmentGroup) : SegmentGroup :=
  mkSegmentGroup (segment g) (isMouseOver g) (isSegmentTouching g)
                 (highlightRectDistance g) (highlightRect g) (startHandle g) h
                 (neighbours g).

Definition set_segs (f : SegId -> Segment) (st : Layer) : Layer :=
  mkLayer (_view st) f (groups st) (nextRef st) (_segmentGroups st)
          (_handleSize st) (_mouseX st) (_mouseY st) (_isMouseDragging st)
          (_isMouseOver st) (_visibleSegmentsCount st) (emitted st) (draws st).
Definition set_groups (f : Ref -> SegmentGroup) (st : Layer) : Layer :=
  mkLayer (_view st) (segs st) f (nextRef st) (_segmentGroups st)
          (_handleSize st) (_mouseX st) (_mouseY st) (_isMouseDragging st)
          (_isMouseOver st) (_visibleSegmentsCount st) (emitted st) (draws st).
Definition set_nextRef (n : Ref) (st : Layer) : Layer :=
  mkLayer (_view st) (segs st) (groups st) n (_segmentGroups st)
          (_handleSize st) (_mouseX st) (_mouseY st) (_isMouseDragging st)
          (_isMouseOver st) (_visibleSegmentsCount st) (emitted st) (draws st).
Definition set_segmentGroups (l : list (SegId * Ref)) (st : Layer) : Layer :=
  mkLayer (_view st) (segs st) (groups st) (nextRef st) l
          (_handleSize st) (_mouseX st) (_mouseY st) (_isMouseDragging st)
          (_isMouseOver st) (_visibleSegmentsCount st) (emitted st) (draws st).
Definition set_mouse (x y : option Q) (st : Layer) : Layer :=
  mkLayer (_view st) (segs st) (groups st) (nextRef st) (_segmentGroups st)
          (_handleSize st) x y (_isMouseDragging st)
          (_isMouseOver st) (_visibleSegmentsCount st) (emitted st) (draws st).
Definition set_isMouseDragging (b : bool) (st : Layer) : Layer :=
  mkLayer (_view st) (segs st) (groups st) (nextRef st) (_segmentGroups st)
          (_handleSize st) (_mouseX st) (_mouseY st) b
          (_isMouseOver st) (_visibleSegmentsCount st) (emitted st) (draws st).
Definition set_visibleSegmentsCount (n : nat) (st : Layer) : Layer :=
  mkLayer (_view st) (segs st) (groups st) (nextRef st) (_segmentGroups st)
          (_handleSize st) (_mouseX st) (_mouseY st) (_isMouseDragging st)
          (_isMouseOver st) n (emitted st) (draws st).
Definition set_emitted (l : list Event) (st : Layer) : Layer :=
  mkLayer (_view st) (segs st) (groups st) (nextRef st) (_segmentGroups st)
          (_handleSize st) (_mouseX st) (_mouseY st) (_isMouseDragging st)
          (_isMouseOver st) (_visibleSegmentsCount st) l (draws st).
Definition set_draws (n : nat) (st : Layer) : Layer :=
  mkLayer (_view st) (segs st) (groups st) (nextRef st) (_segmentGroups st)
          (_handleSize st) (_mouseX st) (_mouseY st) (_isMouseDragging st)
          (_isMouseOver st) (_visibleSegmentsCount st) (emitted st) n.

(** Writing a field of one shared object. *)
Definition update_group (r : Ref) (f : SegmentGroup -> SegmentGroup)
                        (st : Layer) : Layer :=
  set_groups (fun r' => if Nat.eqb r' r then f (groups st r) else groups st r')
             st.
Definition update_segment (i : SegId) (f : Segment -> Segment)
                          (st : Layer) : Layer :=
  set_segs (fun i' => if String.eqb i' i then f (segs st i) else segs st i') st.

(** [this._peaks.emit(...)] and [this._layer.draw()]. *)
Definition emit (e : Event) (st : Layer) : Layer :=
  set_emitted (e :: emitted st) st.
Definition draw (st : Layer) : Layer := set_draws (S (draws st)) st.

(** The segment object of a group. *)
Definition segment_of (st : Layer) (r : Ref) : Segment :=
  segs st (segment (groups st r)).

(** *** The registry [_segmentGroups] *)

Fixpoint lookup (l : list (SegId * Ref)) (i : SegId) : option Ref :=
  match l with
  | [] => None
  | (k, r) :: rest => if String.eqb k i then Some r else lookup rest i
  end.

(** [delete obj[i]]. *)
Definition delete (l : list (SegId * Ref)) (i : SegId) : list (SegId * Ref) :=
  filter (fun kr => negb (String.eqb (fst kr) i)) l.

(** [obj[i] = r]: an existing key keeps its place, a new one goes last. *)
Fixpoint assign (l : list (SegId * Ref)) (i : SegId) (r : Ref)
  : list (SegId * Ref) :=
  match l with
  | [] => [(i, r)]
  | (k, r0) :: rest =>
      if String.eqb k i then (k, r) :: rest else (k, r0) :: assign rest i r
  end.

(** *** Pointer comparisons; [undefined] compares false *)

Definition opt_gt (x : option Q) (c : Q) : bool :=
  match x with Some v => Qgtb v c | None => false end.
Definition opt_le (x : option Q) (c : Q) : bool :=
  match x with Some v => Qle_bool v c | None => false end.
Definition opt_ge (x : option Q) (c : Q) : bool :=
  match x with Some v => Qgeb v c | None => false end.

(** [a !== b] where [a] is a boolean and [b] a boolean or [undefined]. *)
Definition differs (a : bool) (b : option bool) : bool :=
  match b with
  | Some b' => negb (Bool.eqb a b')
  | None => true
  end.

(** Truth of a field that is a boolean or [undefined]. *)
Definition truthy (b : option bool) : bool :=
  match b with Some true => true | _ => false end.

Definition minSegmentDuration : Q := 2 # 10.

(** *** [_renderSegmentGroup]

    A call either returns the new state or throws; [None] stands for a
    throw.  The function calls itself on a neighbour that the dragged
    boundary has reached, and that neighbour may be dragged too, so the
    depth of the calls is bounded by [fuel]: running out of it is the
    exhausted call stack of the script engine.

    The paint attributes written at the end of the source function
    (opacity, fill and visibility of the highlight and of the handles) are
    never read back by the layer and are left out; the geometry is kept. *)

(** The lines from [var segmentStartOffset] to [endHandle.x(...)]. *)
Definition place (frameStartOffset : Q) (r : Ref) (st : Layer) : Layer :=
  let s := segment_of st r in
  let a := adapter (_view st) in
  let segmentStartOffset := inject_Z (Mapper.timeToPixels a (startTime s)) in
  let segmentEndOffset := inject_Z (Mapper.timeToPixels a (endTime s)) in
  let startPixel := segmentStartOffset - frameStartOffset in
  let endPixel := segmentEndOffset - frameStartOffset in
  update_group r
    (fun g =>
       set_endHandle
         (set_handle_x (endPixel - handle_width (endHandle g)) (endHandle g))
         (set_startHandle
            (set_handle_x startPixel (startHandle g))
            (set_highlightRect
               (mkRect startPixel (endPixel - startPixel) (height (_view st)))
               g)))
    st.

(** [if (newTime !== segment.startTime) { segment.startTime = newTime; emit }]. *)
Definition commit_start (r : Ref) (newTime : Q) (st : Layer) : Layer :=
  let sid := segment (groups st r) in
  if negb (Qeq_bool newTime (startTime (segs st sid))) then
    emit (SegmentsDragged r (Some true))
         (update_segment sid (set_startTime newTime) st)
  else st.

(** [if (newTime !== segment.startTime) { segment.endTime = newTime; emit }]:
    the end handle's test reads [segment.startTime] as well. *)
Definition commit_end (r : Ref) (newTime : Q) (st : Layer) : Layer :=
  let sid := segment (groups st r) in
  if negb (Qeq_bool newTime (startTime (segs st sid))) then
    emit (SegmentsDragged r None)
         (update_segment sid (set_endTime newTime) st)
  else st.

(** The candidate times: the pointer, less the anchor taken at mousedown,
    through [pixelsToTime]. *)
Definition start_candidate (st : Layer) (r : Ref) (x : Q) : Q :=
  let inOffset :=
    frameOffset (_view st) + x - mouseStartDiffX (startHandle (groups st r)) in
  Mapper.pixelsToTime (adapter (_view st)) inOffset.

Definition end_candidate (st : Layer) (r : Ref) (x : Q) : Q :=
  let outOffset :=
    frameOffset (_view st) + x + handle_width (endHandle (groups st r))
    - mouseStartDiffX (endHandle (groups st r)) in
  Mapper.pixelsToTime (adapter (_view st)) outOffset.

Fixpoint _renderSegmentGroup (fuel : nat) (r : Ref) (st : Layer)
  : option Layer :=
  match fuel with
  | O => None
  | S fuel' =>
      let g := groups st r in
      let s := segment_of st r in
      let nb := neighbours g in
      let x := _mouseX st in
      let frameStartOffset := frameOffset (_view st) in
      let dragged : option Layer :=
        if handle_isMouseDragging (startHandle g) then
          match x with
          | Some xq =>
              if Qgtb xq 0 then
                let newTime := start_candidate st r xq in
                if Qgeb newTime (endTime s - minSegmentDuration) then
                  Some (commit_start r (endTime s - minSegmentDuration) st)
                else
                  match left nb with
                  | Some l =>
                      if Qgeb (endTime (segment_of st l)) newTime then
                        match _renderSegmentGroup fuel' l
                                (update_group l (set_isSegmentTouching true) st)
                        with
                        | Some st1 =>
                            Some (commit_start r (endTime (segment_of st1 l)) st1)
                        | None => None
                        end
                      else
                        Some (commit_start r newTime
                                (update_group l (set_isSegmentTouching false) st))
                  | None => Some (commit_start r newTime st)
                  end
              else Some st
          | None => Some st
          end
        else if handle_isMouseDragging (endHandle g) then
          match x with
          | Some xq =>
              if Qle_bool xq (width (_view st)) then
                let newTime := end_candidate st r xq in
                if Qle_bool newTime (startTime s + minSegmentDuration) then
                  Some (commit_end r (startTime s + minSegmentDuration) st)
                else
                  match right nb with
                  | Some n =>
                      if Qle_bool (startTime (segment_of st n)) newTime then
                        match _renderSegmentGroup fuel' n
                                (update_group n (set_isSegmentTouching true) st)
                        with
                        | Some st1 =>
                            Some (commit_end r (startTime (segment_of st1 n)) st1)
                        | None => None
                        end
                      else
                        Some (commit_end r newTime
                                (update_group n (set_isSegmentTouching false) st))
                  | None => Some (commit_end r newTime st)
                  end
              else Some st
          | None => Some st
          end
        else Some st in
      match dragged with
      | Some st1 => Some (place frameStartOffset r st1)
      | None => None
      end
  end.

(** *** [segmentGroup.emitEvents] *)

(** [peaks.emit] of one of the four hover events: the layer's own listener
    ([_registerEventHandlers]) renders the group again and redraws. *)
Definition emit_hover (fuel : nat) (e : Event) (r : Ref) (st : Layer)
  : option Layer :=
  match _renderSegmentGroup fuel r (emit e st) with
  | Some st1 => Some (draw st1)
  | None => None
  end.

(** The three tests of [emitEvents], as the source writes them. *)
Definition isSegmentMouseOver (isMouseOver : bool) (x : option Q)
                              (rect : Rect) : bool :=
  isMouseOver
  && (opt_gt x (rect_x rect) && opt_le x (rect_x rect + rect_width rect)).

Definition isStartHandleMouseOver (over : bool) (x y : option Q)
                                  (rect : Rect) (h : Handle) : bool :=
  over
  && (opt_le x (rect_x rect + 3)
      || (opt_le x (rect_x rect + handle_width h)
          && opt_le y (handle_height h))).

Definition isEndHandleMouseOver (over : bool) (x y : option Q)
                                (endPixel : Q) (h : Handle) : bool :=
  over
  && (opt_ge x (endPixel - 3)
      || (opt_ge x (endPixel - handle_width h)
          && opt_le y (handle_height h))).

Definition set_start_over (b : bool) (g : SegmentGroup) : SegmentGroup :=
  set_startHandle (set_handle_isMouseOver (Some b) (startHandle g)) g.
Definition set_end_over (b : bool) (g : SegmentGroup) : SegmentGroup :=
  set_endHandle (set_handle_isMouseOver (Some b) (endHandle g)) g.

(** The block [if (isSegmentMouseOver !== segmentGroup.isMouseOver)]. *)
Definition emit_body (fuel : nat) (over : bool) (r : Ref) (st : Layer)
  : option Layer :=
  if differs over (isMouseOver (groups st r)) then
    let st0 := update_group r (set_isMouseOver (Some over)) st in
    if over then emit_hover fuel (SegmentGroupMouseenter r) r st0
    else
      match emit_hover fuel (SegmentGroupMouseleave r) r st0 with
      | Some sa =>
          let after_start :=
            if truthy (handle_isMouseOver (startHandle (groups sa r))) then
              emit_hover fuel (HandleMouseleave r (Some true)) r
                         (update_group r (set_start_over false) sa)
            else Some sa in
          match after_start with
          | Some sb =>
              if truthy (handle_isMouseOver (endHandle (groups sb r))) then
                emit_hover fuel (HandleMouseleave r None) r
                           (update_group r (set_end_over false) sb)
              else Some sb
          | None => None
          end
      | None => None
      end
  else Some st.

(** The block [if (isStartHandleMouseOver !== ...startHandle.isMouseOver)]. *)
Definition emit_start_handle (fuel : nat) (over : bool) (r : Ref) (st : Layer)
  : option Layer :=
  let g := groups st r in
  let b := isStartHandleMouseOver over (_mouseX st) (_mouseY st)
                                  (highlightRect g) (startHandle g) in
  if differs b (handle_isMouseOver (startHandle g)) then
    emit_hover fuel
      (if b then HandleMouseenter r (Some true) else HandleMouseleave r (Some true))
      r (update_group r (set_start_over b) st)
  else Some st.

(** The block [if (isEndHandleMouseOver !== ...endHandle.isMouseOver)];
    [endPixel] was computed when [emitEvents] was entered. *)
Definition emit_end_handle (fuel : nat) (over : bool) (endPixel : Q) (r : Ref)
                           (st : Layer) : option Layer :=
  let g := groups st r in
  let b := isEndHandleMouseOver over (_mouseX st) (_mouseY st) endPixel
                                (endHandle g) in
  if differs b (handle_isMouseOver (endHandle g)) then
    emit_hover fuel
      (if b then HandleMouseenter r (Some false) else HandleMouseleave r (Some false))
      r (update_group r (set_end_over b) st)
  else Some st.

Definition emitEvents (fuel : nat) (r : Ref) (st : Layer) : option Layer :=
  let x := _mouseX st in
  let rect := highlightRect (groups st r) in
  let endPixel := rect_x rect + rect_width rect in
  let distance :=
    match x with
    | Some v => Some (if Qle_bool v (rect_x rect) then rect_x rect - v
                      else v - endPixel)
    | None => None
    end in
  let st0 := update_group r (set_highlightRectDistance distance) st in
  let over := isSegmentMouseOver (_isMouseOver st) x rect in
  match emit_body fuel over r st0 with
  | Some st1 =>
      match emit_start_handle fuel over r st1 with
      | Some st2 => emit_end_handle fuel over endPixel r st2
      | None => None
      end
  | None => None
  end.

(** *** The registry operations and [updateSegments] *)

(** [_createSegmentGroup(segment)]: a new group object whose flags are
    still [undefined], two handles of [_handleSize], and a first render. *)
Definition _createSegmentGroup (fuel : nat) (i : SegId) (st : Layer)
  : option (Ref * Layer) :=
  let r := nextRef st in
  let handle := mkHandle None false 0 0 (_handleSize st) (_handleSize st) in
  let g := mkSegmentGroup i None false None (mkRect 0 0 0) handle handle
                          (mkNeighbours None None) in
  let st0 :=
    set_nextRef (S r)
      (set_groups (fun r' => if Nat.eqb r' r then g else groups st r') st) in
  match _renderSegmentGroup fuel r st0 with
  | Some st1 => Some (r, st1)
  | None => None
  end.

(** [_addSegmentGroup(segment)]. *)
Definition _addSegmentGroup (fuel : nat) (i : SegId) (st : Layer)
  : option (Ref * Layer) :=
  match _createSegmentGroup fuel i st with
  | Some (r, st1) =>
      Some (r, set_segmentGroups (assign (_segmentGroups st1) i r) st1)
  | None => None
  end.

(** [_findOrAddSegmentGroup(segment)]. *)
Definition _findOrAddSegmentGroup (fuel : nat) (i : SegId) (st : Layer)
  : option (Ref * Layer) :=
  match lookup (_segmentGroups st) i with
  | Some r => Some (r, st)
  | None => _addSegmentGroup fuel i st
  end.

(** [_removeSegment(segment)]. *)
Definition _removeSegment (i : SegId) (st : Layer) : Layer :=
  match lookup (_segmentGroups st) i with
  | Some _ => set_segmentGroups (delete (_segmentGroups st) i) st
  | None => st
  end.

(** The body of [segments.forEach] in [updateSegments]. *)
Definition update_one (fuel : nat) (i : SegId) (st : Layer) : option Layer :=
  match _findOrAddSegmentGroup fuel i st with
  | Some (r, st1) =>
      match _renderSegmentGroup fuel r st1 with
      | Some st2 => emitEvents fuel r st2
      | None => None
      end
  | None => None
  end.

Fixpoint update_each (fuel : nat) (found : list SegId) (st : Layer)
  : option Layer :=
  match found with
  | [] => Some st
  | i :: rest =>
      match update_one fuel i st with
      | Some st1 => update_each fuel rest st1
      | None => None
      end
  end.

Section Host.

(** [Segment.prototype.isVisible], a method of the host's segment class. *)
Variable isVisible : Segment -> Q -> Q -> bool.

(** The [for ... in] loop of [_removeInvisibleSegments] over the keys the
    registry had when the loop began; a key deleted meanwhile is skipped. *)
Fixpoint remove_each (keys : list SegId) (startTime endTime : Q)
                     (count : nat) (st : Layer) : nat * Layer :=
  match keys with
  | [] => (count, st)
  | k :: rest =>
      match lookup (_segmentGroups st) k with
      | Some r =>
          let i := segment (groups st r) in
          if negb (isVisible (segs st i) startTime endTime) then
            remove_each rest startTime endTime (S count) (_removeSegment i st)
          else remove_each rest startTime endTime count st
      | None => remove_each rest startTime endTime count st
      end
  end.

(** [_removeInvisibleSegments(startTime, endTime)]. *)
Definition _removeInvisibleSegments (startTime endTime : Q) (st : Layer)
  : nat * Layer :=
  remove_each (map fst (_segmentGroups st)) startTime endTime 0%nat st.

(** The value of the local [count] when [updateSegments] tests it, for the
    segments [found] by [this._peaks.segments.find(startTime, endTime)]. *)
Definition updateSegments_count (fuel : nat) (found : list SegId)
                                (startTime endTime : Q) (st : Layer)
  : option nat :=
  match update_each fuel found (set_visibleSegmentsCount (List.length found) st) with
  | Some st1 =>
      Some (List.length found
            + fst (_removeInvisibleSegments startTime endTime st1))%nat
  | None => None
  end.

(** [updateSegments(startTime, endTime)]; [found] is the result of the
    host's [segments.find(startTime, endTime)]. *)
Definition updateSegments (fuel : nat) (found : list SegId)
                          (startTime endTime : Q) (st : Layer)
  : option Layer :=
  let count := List.length found in
  match update_each fuel found (set_visibleSegmentsCount count st) with
  | Some st1 =>
      let '(removed, st2) := _removeInvisibleSegments startTime endTime st1 in
      let count := (count + removed)%nat in
      if (0 <? count)%nat then Some (draw st2) else Some st2
  | None => None
  end.

End Host.

(** *** The window [mouseup] listener *)

Definition release (g : SegmentGroup) : SegmentGroup :=
  set_endHandle (set_handle_isMouseDragging false (endHandle g))
    (set_startHandle (set_handle_isMouseDragging false (startHandle g)) g).

(** One turn of the loop over [Object.keys(self._segmentGroups)]. *)
Definition mouseup_one (fuel : nat) (k : SegId) (st : Layer) : option Layer :=
  match lookup (_segmentGroups st) k with
  | Some r =>
      let g := groups st r in
      let released :=
        if handle_isMouseDragging (startHandle g)
           || handle_isMouseDragging (endHandle g) then
          match _renderSegmentGroup fuel r (update_group r release st) with
          | Some s => Some (draw s)
          | None => None
          end
        else Some st in
      match released with
      | Some st1 =>
          if isSegmentTouching (groups st1 r) then
            match _renderSegmentGroup fuel r
                    (update_group r (set_isSegmentTouching false) st1) with
            | Some s => Some (draw s)
            | None => None
            end
          else Some st1
      | None => None
      end
  | None => None
  end.

Fixpoint mouseup_each (fuel : nat) (keys : list SegId) (st : Layer)
  : option Layer :=
  match keys with
  | [] => Some st
  | k :: rest =>
      match mouseup_one fuel k st with
      | Some st1 => mouseup_each fuel rest st1
      | None => None
      end
  end.

Definition mouseup (fuel : nat) (st : Layer) : option Layer :=
  let st0 := set_isMouseDragging false st in
  let segmentGroupKeys := map fst (_segmentGroups st0) in
  mouseup_each fuel segmentGroupKeys (emit ZoomviewMouseup st0).

(** *** Drag moves

    Between two render passes of a dragged group the pointer events write
    the pointer position and, at mousedown and mouseup, which handles are
    engaged and their anchors (a mousedown engages every handle the pointer
    is over, so both handles of a narrow segment at once).  A drag move is
    those writes followed by the render pass: a start-handle move has
    [startEngaged] alone, an end-handle move [endEngaged] alone. *)





(** *** Vocabulary of the statements *)

(** A group none of whose handles is being dragged. *)
Definition quiet (g : SegmentGroup) : Prop :=
  handle_isMouseDragging (startHandle g) = false
  /\ handle_isMouseDragging (endHandle g) = false.

(** No handle of any group is being dragged. *)
Definition at_rest (st : Layer) : Prop := forall q, quiet (groups st q).

(** What a render pass never writes in a group: everything but its geometry
    and its touching flag. *)
Definition same_shape (g g' : SegmentGroup) : Prop :=
  segment g' = segment g
  /\ isMouseOver g' = isMouseOver g
  /\ neighbours g' = neighbours g
  /\ handle_isMouseOver (startHandle g') = handle_isMouseOver (startHandle g)
  /\ handle_isMouseOver (endHandle g') = handle_isMouseOver (endHandle g)
  /\ handle_isMouseDragging (startHandle g') = handle_isMouseDragging (startHandle g)
  /\ handle_isMouseDragging (endHandle g') = handle_isMouseDragging (endHandle g)
  /\ mouseStartDiffX (startHandle g') = mouseStartDiffX (startHandle g)
  /\ mouseStartDiffX (endHandle g') = mouseStartDiffX (endHandle g)
  /\ handle_width (startHandle g') = handle_width (startHandle g)
  /\ handle_width (endHandle g') = handle_width (endHandle g)
  /\ handle_height (startHandle g') = handle_height (startHandle g)
  /\ handle_height (endHandle g') = handle_height (endHandle g).

(** The frame of a render pass on the layer. *)
Record render_frame (st st' : Layer) : Prop := mkRenderFrame {
  rf_view : _view st' = _view st;
  rf_mouseX : _mouseX st' = _mouseX st;
  rf_mouseY : _mouseY st' = _mouseY st;
  rf_over : _isMouseOver st' = _isMouseOver st;
  rf_dragging : _isMouseDragging st' = _isMouseDragging st;
  rf_registry : _segmentGroups st' = _segmentGroups st;
  rf_nextRef : nextRef st' = nextRef st;
  rf_handleSize : _handleSize st' = _handleSize st;
  rf_count : _visibleSegmentsCount st' = _visibleSegmentsCount st;
  rf_draws : draws st' = draws st;
  rf_shape : forall q, same_shape (groups st q) (groups st' q)
}.

(** Draws are only ever added, and a layer at rest stays at rest. *)
Definition calm (st st' : Layer) : Prop :=
  (draws st <= draws st')%nat /\ (at_rest st -> at_rest st').

(** The clamped candidate of a start-handle move, as [_renderSegmentGroup]
    computes it when the left neighbour stays where it is. *)
Definition clamp_start (st : Layer) (r : Ref) (xq : Q) : Q :=
  let s := segment_of st r in
  let newTime := start_candidate st r xq in
  if Qgeb newTime (endTime s - minSegmentDuration) then
    endTime s - minSegmentDuration
  else
    match left (neighbours (groups st r)) with
    | Some l => if Qgeb (endTime (segment_of st l)) newTime
                then endTime (segment_of st l) else newTime
    | None => newTime
    end.

(** The same for an end-handle move and the right neighbour. *)
Definition clamp_end (st : Layer) (r : Ref) (xq : Q) : Q :=
  let s := segment_of st r in
  let newTime := end_candidate st r xq in
  if Qle_bool newTime (startTime s + minSegmentDuration) then
    startTime s + minSegmentDuration
  else
    match right (neighbours (groups st r)) with
    | Some n => if Qle_bool (startTime (segment_of st n)) newTime
                then startTime (segment_of st n) else newTime
    | None => newTime
    end.

(** The segment of [r] lasts the minimum duration at least and its captured
    neighbours, both at rest, lie outside it. *)
Definition well_separated (r : Ref) (st : Layer) : Prop :=
  minSegmentDuration <= endTime (segment_of st r) - startTime (segment_of st r)
  /\ (forall l, left (neighbours (groups st r)) = Some l ->
        quiet (groups st l)
        /\ endTime (segment_of st l) <= startTime (segment_of st r))
  /\ (forall n, right (neighbours (groups st r)) = Some n ->
        quiet (groups st n)
        /\ endTime (segment_of st r) <= startTime (segment_of st n)).

(** The highlight of [r] is where a render pass would put it. *)
Definition up_to_date (r : Ref) (st : Layer) : Prop :=
  highlightRect (groups (place (frameOffset (_view st)) r st) r)
  = highlightRect (groups st r).

(** What the hover resolver reads of group [r] is the same in [X] as in [st]. *)
Record tracks (r : Ref) (st X : Layer) : Prop := mkTracks {
  tr_view : _view X = _view st;
  tr_segs : segs X = segs st;
  tr_mouseX : _mouseX X = _mouseX st;
  tr_mouseY : _mouseY X = _mouseY st;
  tr_over : _isMouseOver X = _isMouseOver st;
  tr_segment : segment (groups X r) = segment (groups st r);
  tr_quiet : quiet (groups X r);
  tr_rect : highlightRect (groups X r) = highlightRect (groups st r);
  tr_sw : handle_width (startHandle (groups X r))
          = handle_width (startHandle (groups st r));
  tr_sh : handle_height (startHandle (groups X r))
          = handle_height (startHandle (groups st r));
  tr_ew : handle_width (endHandle (groups X r))
          = handle_width (endHandle (groups st r));
  tr_eh : handle_height (endHandle (groups X r))
          = handle_height (endHandle (groups st r))
}.

(** A write to the hover flags or to the distance of a group. *)
Definition hover_write (f : SegmentGroup -> SegmentGroup) : Prop :=
  forall g,
    segment (f g) = segment g
    /\ highlightRect (f g) = highlightRect g
    /\ handle_isMouseDragging (startHandle (f g))
       = handle_isMouseDragging (startHandle g)
    /\ handle_isMouseDragging (endHandle (f g))
       = handle_isMouseDragging (endHandle g)
    /\ handle_width (startHandle (f g)) = handle_width (startHandle g)
    /\ handle_height (startHandle (f g)) = handle_height (startHandle g)
    /\ handle_width (endHandle (f g)) = handle_width (endHandle g)
    /\ handle_height (endHandle (f g)) = handle_height (endHandle g).

(** The part a hover event is about, and whether it is an enter.  The start
    handle's events carry [isInHandle: true]; the end handle's carry [false]
    or leave the key out. *)
Inductive HoverPart : Type := Body | StartPart | EndPart.

Definition hover_kind (e : Event) : option (HoverPart * bool) :=
  match e with
  | SegmentGroupMouseenter _ => Some (Body, true)
  | SegmentGroupMouseleave _ => Some (Body, false)
  | HandleMouseenter _ (Some true) => Some (StartPart, true)
  | HandleMouseleave _ (Some true) => Some (StartPart, false)
  | HandleMouseenter _ _ => Some (EndPart, true)
  | HandleMouseleave _ _ => Some (EndPart, false)
  | _ => None
  end.

Definition about (p : HoverPart) (e : Event) : bool :=
  match hover_kind e, p with
  | Some (Body, _), Body => true
  | Some (StartPart, _), StartPart => true
  | Some (EndPart, _), EndPart => true
  | _, _ => false
  end.

(** The events of the three blocks of [emitEvents], latest first, from the
    computed value and the flags found; and the handle flag that the body
    block leaves behind. *)
Definition body_events (r : Ref) (over : bool) (ob os oe : option bool)
  : list Event :=
  if differs over ob then
    if over then [SegmentGroupMouseenter r]
    else (if truthy oe then [HandleMouseleave r None] else [])
         ++ (if truthy os then [HandleMouseleave r (Some true)] else [])
         ++ [SegmentGroupMouseleave r]
  else [].

Definition after_body (over : bool) (ob flag : option bool) : option bool :=
  if differs over ob && negb over && truthy flag then Some false else flag.

Definition start_events (r : Ref) (b : bool) (flag : option bool) : list Event :=
  if differs b flag then
    [if b then HandleMouseenter r (Some true) else HandleMouseleave r (Some true)]
  else [].

Definition end_events (r : Ref) (b : bool) (flag : option bool) : list Event :=
  if differs b flag then
    [if b then HandleMouseenter r (Some false) else HandleMouseleave r (Some false)]
  else [].

(** The events of one pass of [emitEvents], latest first. *)
Definition pass_events (r : Ref) (nb ns ne : bool) (ob os oe : option bool)
  : list Event :=
  end_events r ne (after_body nb ob oe)
  ++ start_events r ns (after_body nb ob os)
  ++ body_events r nb ob os oe.

(** Every key of the registry occurs once and names the segment of its
    group, as [_addSegmentGroup] files it. *)
Definition registry_ok (st : Layer) : Prop :=
  NoDup (map fst (_segmentGroups st))
  /\ forall k r, lookup (_segmentGroups st) k = Some r ->
                 segment (groups st r) = k.

(** *** [_findSegmentNeighbours] and the [mousedown] listener *)

(** The index at which the loop of [_findSegmentNeighbours] stops: the
    first [k] with [segments[k].id === segment.id]. *)
Fixpoint index_of (segments : list SegId) (i : SegId) : option nat :=
  match segments with
  | [] => None
  | s :: rest =>
      if String.eqb s i then Some O
      else match index_of rest i with
           | Some k => Some (S k)
           | None => None
           end
  end.

(** [segmentGroups[segments[k].id]], for an index [k] within the array. *)
Definition group_at (st : Layer) (segments : list SegId) (k : Z)
  : option Ref :=
  match nth_error segments (Z.to_nat k) with
  | Some i => lookup (_segmentGroups st) i
  | None => None
  end.

(** [_findSegmentNeighbours(segment)]; [found] is what the host's
    [segments.find] returns for the frame. *)
Definition _findSegmentNeighbours (found : list SegId) (i : SegId)
                                  (st : Layer) : Neighbours :=
  let segmentIndex : Z :=
    match index_of found i with
    | Some k => Z.of_nat k
    | None => (-1)%Z
    end in
  mkNeighbours
    (if (segmentIndex >? 0)%Z then group_at st found (segmentIndex - 1)
     else None)
    (if (segmentIndex <? Z.of_nat (List.length found) - 1)%Z
     then group_at st found (segmentIndex + 1)
     else None).

Definition set_neighbours (n : Neighbours) (g : SegmentGroup) : SegmentGroup :=
  mkSegmentGroup (segment g) (isMouseOver g) (isSegmentTouching g)
                 (highlightRectDistance g) (highlightRect g) (startHandle g)
                 (endHandle g) n.

(** The two [if]s on the handles in the loop body of the [mousedown]
    listener, for the group [r]: a handle the pointer is over is engaged,
    its anchor is taken and the neighbours are captured.  [x] is
    [self._mouseX], a number once the pointer has been over the layer. *)
Definition mousedown_start (found : list SegId) (r : Ref) (x : Q)
                           (st : Layer) : Layer :=
  let g := groups st r in
  if truthy (handle_isMouseOver (startHandle g)) then
    update_group r
      (fun g =>
         set_startHandle
           (set_mouseStartDiffX (x - handle_x (startHandle g))
              (set_handle_isMouseDragging true (startHandle g)))
           (set_neighbours (_findSegmentNeighbours found (segment g) st) g))
      st
  else st.

Definition mousedown_end (found : list SegId) (r : Ref) (x : Q)
                         (st : Layer) : Layer :=
  let g := groups st r in
  if truthy (handle_isMouseOver (endHandle g)) then
    update_group r
      (fun g =>
         set_endHandle
           (set_mouseStartDiffX (x - handle_x (endHandle g) - 1)
              (set_handle_isMouseDragging true (endHandle g)))
           (set_neighbours (_findSegmentNeighbours found (segment g) st) g))
      st
  else st.

Definition mousedown_handles (found : list SegId) (r : Ref) (x : Q)
                             (st : Layer) : Layer :=
  mousedown_end found r x (mousedown_start found r x st).

(** *** The listeners of the host's segment events and of the pointer
    leaving the layer *)

(** How a listener ends: it returns, it throws with the layer as it is at
    the throw, or the call stack is exhausted below it. *)
Inductive Completion : Type :=
| Returns (st : Layer)
| Throws (st : Layer)
| Overflows.

Definition frameStartTime (st : Layer) : Q :=
  Mapper.pixelsToTime (adapter (_view st)) (frameOffset (_view st)).

Definition frameEndTime (st : Layer) : Q :=
  Mapper.pixelsToTime (adapter (_view st))
                      (frameOffset (_view st) + width (_view st)).

Definition set_layer_isMouseOver (b : bool) (st : Layer) : Layer :=
  mkLayer (_view st) (segs st) (groups st) (nextRef st) (_segmentGroups st)
          (_handleSize st) (_mouseX st) (_mouseY st) (_isMouseDragging st)
          b (_visibleSegmentsCount st) (emitted st) (draws st).

Section Listeners.

Variable isVisible : Segment -> Q -> Q -> bool.

(** The listener of ['segments.update'].  [_renderSegmentGroup] is called
    on the group found before [_addSegmentGroup] ran: on [undefined] when
    the segment had none, and reading [segmentGroup.segment] throws. *)
Definition on_segments_update (fuel : nat) (i : SegId) (st : Layer)
  : Completion :=
  let segmentGroup := lookup (_segmentGroups st) i in
  let redraw := match segmentGroup with Some _ => true | None => false end in
  let added : option (Layer * bool) :=
    match segmentGroup with
    | None =>
        if isVisible (segs st i) (frameStartTime st) (frameEndTime st) then
          match _addSegmentGroup fuel i st with
          | Some (_, st1) => Some (st1, true)
          | None => None
          end
        else Some (st, redraw)
    | Some _ => Some (st, redraw)
    end in
  match added with
  | Some (st1, true) =>
      match segmentGroup with
      | Some r =>
          match _renderSegmentGroup fuel r st1 with
          | Some st2 => Returns (draw st2)
          | None => Overflows
          end
      | None => Throws st1
      end
  | Some (st1, false) => Returns st1
  | None => Overflows
  end.

(** The listener of ['segments.remove']. *)
Definition on_segments_remove (segments : list SegId) (st : Layer) : Layer :=
  draw (fold_left (fun st i => _removeSegment i st) segments st).

(** [_updateVisibleSegments(dontFindCursor)]; [pointer] is the position
    read from the stage when [dontFindCursor] is not set. *)
Definition _updateVisibleSegments (fuel : nat) (pointer : option (Q * Q))
                                  (found : list SegId) (st : Layer)
  : option Layer :=
  let st0 :=
    match pointer with
    | Some (x, y) => set_mouse (Some x) (Some y) st
    | None => st
    end in
  match updateSegments isVisible fuel found (frameStartTime st0)
                       (frameEndTime st0) st0 with
  | Some st1 => Some (draw st1)
  | None => None
  end.

(** The [mouseleave] listener of the layer; the layer is as wide as the
    view. *)
Definition on_mouseleave (fuel : nat) (found : list SegId) (st : Layer)
  : option Layer :=
  let st0 :=
    set_mouse (Some (width (_view st) / 2)) (Some (-20))
              (set_layer_isMouseOver false st) in
  let redrawLayer :=
    existsb
      (fun kr =>
         let segmentGroup := groups st0 (snd kr) in
         truthy (isMouseOver segmentGroup)
         || truthy (handle_isMouseOver (startHandle segmentGroup))
         || truthy (handle_isMouseOver (endHandle segmentGroup)))
      (_segmentGroups st0) in
  if redrawLayer then
    match _updateVisibleSegments fuel None found st0 with
    | Some st1 => Some (draw st1)
    | None => None
    end
  else Some st0.

End Listeners.

(** *** More vocabulary of the statements *)

(** What a pass over the group [r], itself at rest, leaves alone: everything
    on the layer but the events, the draw count and the group [r], whose
    segment and rest are kept. *)
Record confined (r : Ref) (st st' : Layer) : Prop := mkConfined {
  cf_view : _view st' = _view st;
  cf_segs : segs st' = segs st;
  cf_registry : _segmentGroups st' = _segmentGroups st;
  cf_nextRef : nextRef st' = nextRef st;
  cf_handleSize : _handleSize st' = _handleSize st;
  cf_mouseX : _mouseX st' = _mouseX st;
  cf_mouseY : _mouseY st' = _mouseY st;
  cf_over : _isMouseOver st' = _isMouseOver st;
  cf_dragging : _isMouseDragging st' = _isMouseDragging st;
  cf_count : _visibleSegmentsCount st' = _visibleSegmentsCount st;
  cf_others : forall q, q <> r -> groups st' q = groups st q;
  cf_segment : segment (groups st' r) = segment (groups st r);
  cf_quiet : quiet (groups st r) -> quiet (groups st' r)
}.

(** The registry names each group by its segment, without repetition, and
    holds only groups that have been created. *)
Definition well_formed (st : Layer) : Prop :=
  registry_ok st
  /\ forall k r, lookup (_segmentGroups st) k = Some r -> (r < nextRef st)%nat.

(** The three hover flags of a group are [false]. *)
Definition hover_off (g : SegmentGroup) : Prop :=
  isMouseOver g = Some false
  /\ handle_isMouseOver (startHandle g) = Some false
  /\ handle_isMouseOver (endHandle g) = Some false.

(** None of the three hover flags of a group is true. *)
Definition unhovered (g : SegmentGroup) : Prop :=
  truthy (isMouseOver g) = false
  /\ truthy (handle_isMouseOver (startHandle g)) = false
  /\ truthy (handle_isMouseOver (endHandle g)) = false.

End SegmentsLayer.

(** ** The waveform shape

    [scaleY] and [WaveformShape.prototype._drawWaveform] of
    [src/main/views/waveform-shape.js].  The pixel columns are integers: the
    frame offset is rounded by [_updateWaveform], [timeToPixels] floors, the
    view width and the length of the waveform data are counts of pixels.
    The canvas context is modelled by the list of the points handed to
    [context.lineTo], in order. *)

Module WaveformShape.
Import Js.

(** [scaleY(amplitude, height, scale)]. *)
Definition scaleY (amplitude height scale : JsNum) : JsNum :=
  let range := Fin 256 in
  let offset := Fin 128 in
  let scaledAmplitude :=
    div (mul (add (mul amplitude scale) offset) height) range in
  sub height (Utils.clamp (sub height scaledAmplitude) (Fin 0) height).

(** [waveformData]: [adapter.length], [min_sample(x)], [max_sample(x)]. *)
Record WaveformData : Type := mkWaveformData {
  adapter_length : Z;
  min_sample : Z -> Q;
  max_sample : Z -> Q
}.

(** The columns of [for (x = startPixels; x < endPixels; x++)] and of
    [for (x = endPixels - 1; x >= startPixels; x--)]. *)
Definition upward (startPixels endPixels : Z) : list Z :=
  map (fun k => (startPixels + Z.of_nat k)%Z)
      (seq 0 (Z.to_nat (endPixels - startPixels))).

Definition downward (startPixels endPixels : Z) : list Z :=
  map (fun k => (endPixels - 1 - Z.of_nat k)%Z)
      (seq 0 (Z.to_nat (endPixels - startPixels))).

(** The three [if]s that open [_drawWaveform]: the range of columns that is
    drawn. *)
Definition drawn_range (waveformData : WaveformData)
                       (frameOffset startPixels endPixels width : Z) : Z * Z :=
  let startPixels :=
    if (startPixels <? frameOffset)%Z then frameOffset else startPixels in
  let limit := (frameOffset + width)%Z in
  let endPixels := if (endPixels >? limit)%Z then limit else endPixels in
  let endPixels :=
    if (endPixels >? adapter_length waveformData)%Z
    then adapter_length waveformData
    else endPixels in
  (startPixels, endPixels).

(** The point [lineTo(x - frameOffset + 0.5, scaleY(val, height, scale) + 0.5)]. *)
Definition point (scale : JsNum) (frameOffset : Z) (height : JsNum)
                 (x : Z) (val : Q) : Q * JsNum :=
  (inject_Z (x - frameOffset) + (1 # 2),
   add (scaleY (Fin val) height scale) (Fin (1 # 2))).

(** [_drawWaveform(context, waveformData, frameOffset, startPixels,
    endPixels, width, height)], [scale] being [this._scale]. *)
Definition _drawWaveform (scale : JsNum) (waveformData : WaveformData)
                         (frameOffset startPixels endPixels width : Z)
                         (height : JsNum) : list (Q * JsNum) :=
  let '(startPixels, endPixels) :=
    drawn_range waveformData frameOffset startPixels endPixels width in
  map (fun x => point scale frameOffset height x (min_sample waveformData x))
      (upward startPixels endPixels)
  ++ map (fun x => point scale frameOffset height x (max_sample waveformData x))
         (downward startPixels endPixels).

End WaveformShape.

(** ** Segment markers

    The handle that [createSegmentMarker] of
    [src/main/waveform/waveform.mixins.js] returns, as far as dragging goes:
    its position, its width, and the two limits that its [dragstart]
    listener stores on it.  A limit not yet stored is [undefined], which
    [Math.max] and [Math.min] read as NaN. *)

Module Mixins.
Import Js.

Record Marker : Type := mkMarker {
  marker_x : JsNum;
  marker_width : JsNum;
  leftNeighbourX : JsNum;
  rightNeighbourX : JsNum
}.

(** [dragBoundFunc(pos)] of the handle: the horizontal position it lets
    the handle take, and the vertical one, which is the handle's own.
    [inMarker] and [outMarker] are the two markers of the segment group. *)
Definition dragBoundFunc (isInMarker : bool) (this inMarker outMarker : Marker)
                         (pos_x absolute_y : JsNum) : JsNum * JsNum :=
  if isInMarker then
    let limitMin := sub (marker_x outMarker) (marker_width outMarker) in
    let limitMax := leftNeighbourX this in
    (Math_max limitMax (Math_min limitMin pos_x), absolute_y)
  else
    let limitMin := add (marker_x inMarker) (marker_width inMarker) in
    let limitMax := rightNeighbourX this in
    (Math_max limitMin (Math_min limitMax pos_x), absolute_y).

(** The [dragstart] listener of the handle; [neighbour] is the out marker
    of the left neighbour for an in marker, the in marker of the right
    neighbour for an out marker, when [findSegmentNeighbours] gives that
    neighbour and it has the marker. *)
Definition dragstart (isInMarker : bool) (neighbour : option Marker)
                     (viewWidth : JsNum) (this : Marker) : Marker :=
  if isInMarker then
    mkMarker (marker_x this) (marker_width this)
             (match neighbour with
              | Some n => add (marker_x n) (marker_width n)
              | None => Fin 0
              end)
             (rightNeighbourX this)
  else
    mkMarker (marker_x this) (marker_width this) (leftNeighbourX this)
             (match neighbour with
              | Some n => sub (marker_x n) (marker_width n)
              | None => viewWidth
              end).

(** The limits of a dragged marker, as the [dragstart] listener stores
    them and [dragBoundFunc] reads them: for the in marker the lower one is
    the right edge of the left neighbour's out marker, or 0, and the upper
    one the out marker's left edge; for the out marker the lower one is the
    in marker's right edge and the upper one the left edge of the right
    neighbour's in marker, or the width of the view. *)
Definition lower_limit (isInMarker : bool) (neighbour : option Marker)
                       (inMarker : Marker) : JsNum :=
  if isInMarker then
    match neighbour with
    | Some n => add (marker_x n) (marker_width n)
    | None => Fin 0
    end
  else add (marker_x inMarker) (marker_width inMarker).

Definition upper_limit (isInMarker : bool) (neighbour : option Marker)
                       (viewWidth : JsNum) (outMarker : Marker)
  : JsNum :=
  if isInMarker then
    sub (marker_x outMarker) (marker_width outMarker)
  else
    match neighbour with
    | Some n => sub (marker_x n) (marker_width n)
    | None => viewWidth
    end.

End Mixins.

(** ** The marker-driven segments layer

    The earlier [SegmentsLayer] of [src/unnamed/part_000], in which the
    boundaries of a segment follow two draggable markers:
    [_updateSegment] places the window and the markers of a segment group,
    [_onSegmentHandleDrag] reads the times back from the markers. *)

Module MarkerLayer.

Record Marker : Type := mkMarker {
  marker_x : Q;
  marker_width : Q
}.







End MarkerLayer.

(** ** Sample states

    A view of 100 by 50 pixels showing ten pixels per second from time 0, and
    three segments: ["left"] from 0.5 to 1.5, ["mid"] from 2 to 5 and
    ["right"] from 6 to 8, each with its group (references 0, 1 and 2),
    neighbours captured, handles of 16 pixels, nothing hovered or dragged. *)

Module Samples.
Import SegmentsLayer.
Local Open Scope string_scope.

Definition sampleView : ZoomView.View :=
  ZoomView.mkView (Mapper.mkAdapter 44100 512) 1000 600 (Js.Fin 0) (Js.Fin 1).

Definition sampleViewPort : ViewPort :=
  mkViewPort (Mapper.mkAdapter 10 1) 0 100 50.

Definition sampleSegs (i : SegId) : Segment :=
  if String.eqb i "left" then mkSegment (1 # 2) (3 # 2) false
  else if String.eqb i "right" then mkSegment 6 8 false
  else mkSegment 2 5 false.

Definition sampleHandle : Handle := mkHandle (Some false) false 0 0 16 16.

Definition sampleGroup (i : SegId) (nb : Neighbours) : SegmentGroup :=
  mkSegmentGroup i (Some false) false None (mkRect 0 0 0)
                 sampleHandle sampleHandle nb.

Definition sampleGroups (r : Ref) : SegmentGroup :=
  match r with
  | O => sampleGroup "left" (mkNeighbours None (Some 1%nat))
  | S O => sampleGroup "mid" (mkNeighbours (Some 0%nat) (Some 2%nat))
  | _ => sampleGroup "right" (mkNeighbours (Some 1%nat) None)
  end.

Definition sampleLayer : Layer :=
  mkLayer sampleViewPort sampleSegs sampleGroups 3%nat
          [("left", 0%nat); ("mid", 1%nat); ("right", 2%nat)]
          16 None None false false 3%nat [] 0%nat.

(** The same layer before any segment has been shown. *)
Definition emptyLayer : Layer :=
  mkLayer sampleViewPort sampleSegs sampleGroups 0%nat [] 16 None None
          false false 0%nat [] 0%nat.

(** The start handle, or the end handle, of group [r] engaged with anchor 0
    and the pointer at [x]. *)
Definition drag_start (r : Ref) (x : Q) (st : Layer) : Layer :=
  set_mouse (Some x) (Some 10)
    (set_isMouseDragging true
       (update_group r
          (fun g => set_startHandle
                      (set_handle_isMouseDragging true (startHandle g)) g)
          st)).

Definition drag_end (r : Ref) (x : Q) (st : Layer) : Layer :=
  set_mouse (Some x) (Some 10)
    (set_isMouseDragging true
       (update_group r
          (fun g => set_endHandle
                      (set_handle_isMouseDragging true (endHandle g)) g)
          st)).



(** The end handle of ["mid"] held where it is: the candidate is 5. *)
Definition end_drag_in_place : Layer := drag_end 1%nat 34 sampleLayer.

(** ["mid"] lasts exactly the minimum, from 4.8 to 5, ["left"] ends at 4.8,
    and the start handle is held at 4.8. *)
Definition tightLayer : Layer :=
  drag_start 1%nat 48
    (update_segment "left" (set_endTime (48 # 10))
       (update_segment "mid" (set_startTime (48 # 10)) sampleLayer)).

(** ["left"] ends at 4.9 inside ["mid"], which runs from 4.5 to 5; the start
    handle is dragged to 4.85. *)
Definition overlapLayer : Layer :=
  drag_start 1%nat (485 # 10)
    (update_segment "left" (set_endTime (49 # 10))
       (update_segment "mid" (set_startTime (45 # 10)) sampleLayer)).

(** The start handle of ["mid"] dragged to time 1, past the end of ["left"]. *)
Definition reachingLayer : Layer := drag_start 1%nat 10 sampleLayer.

(** The start handle of ["mid"] dragged left of the view. *)
Definition start_drag_left_of_view : Layer := drag_start 1%nat (-5) sampleLayer.

(** Both handles of ["mid"] engaged, the pointer right of the view. *)
Definition both_engaged_beyond_width : Layer :=
  set_mouse (Some 150) (Some 10)
    (set_isMouseDragging true
       (update_group 1%nat
          (fun g =>
             set_endHandle (set_handle_isMouseDragging true (endHandle g))
               (set_startHandle
                  (set_handle_isMouseDragging true (startHandle g)) g))
          sampleLayer)).

(** The three groups rendered once. *)
Definition placedLayer : Layer :=
  place 0 1%nat (place 0 0%nat (place 0 2%nat sampleLayer)).

(** The pointer over ["mid"], two pixels right of its start edge and 40
    pixels down. *)
Definition pointer_low_on_start_edge : Layer :=
  mkLayer (_view placedLayer) (segs placedLayer) (groups placedLayer)
          (nextRef placedLayer) (_segmentGroups placedLayer)
          (_handleSize placedLayer) (Some 22) (Some 40) false true
          (_visibleSegmentsCount placedLayer) [] 0%nat.

(** The pointer over ["mid"], 15 pixels from either edge and 5 pixels down:
    inside the footprint of both handles. *)
Definition pointer_on_both_handles : Layer :=
  mkLayer (_view placedLayer) (segs placedLayer) (groups placedLayer)
          (nextRef placedLayer) (_segmentGroups placedLayer)
          (_handleSize placedLayer) (Some 35) (Some 5) false true
          (_visibleSegmentsCount placedLayer) [] 0%nat.

(** The pointer over ["mid"] at the pixel of time 2.05, 30 pixels down. *)
Definition pointer_at_2_05 : Layer :=
  mkLayer (_view placedLayer) (segs placedLayer) (groups placedLayer)
          (nextRef placedLayer) (_segmentGroups placedLayer)
          (_handleSize placedLayer) (Some (205 # 10)) (Some 30) false true
          (_visibleSegmentsCount placedLayer) [] 0%nat.

(** A host whose segments are all in range. *)
Definition always_visible (s : Segment) (a b : Q) : bool := true.

(** ["mid"] begins at 2.05, between two pixels; the groups are rendered
    and the pointer is over ["mid"], two pixels right of its start edge, on
    the start handle. *)
Definition pressedStartLayer : Layer :=
  let st :=
    place 0 1%nat
      (place 0 0%nat
         (place 0 2%nat
            (update_segment "mid" (set_startTime (205 # 100)) sampleLayer))) in
  set_mouse (Some 22) (Some 5)
    (set_layer_isMouseOver true
       (update_group 1%nat
          (fun g => set_isMouseOver (Some true) (set_start_over true g)) st)).


(** A host whose segments are visible when they overlap the range. *)
Definition overlaps (s : Segment) (a b : Q) : bool :=
  Qltb (startTime s) b && Qltb a (endTime s).

End Samples.

(** * Facts *)

(** ** Comparisons *)

Lemma Qltb_true (x y : Q) : Qltb x y = true <-> x < y.
Proof.
  unfold Qltb. rewrite negb_true_iff. split.
  - intros H. apply Qnot_le_lt. intros C. apply Qle_bool_iff in C. congruence.
  - intros H. destruct (Qle_bool y x) eqn:E; [|reflexivity].
    apply Qle_bool_iff in E. lra.
Qed.

Lemma Qltb_false (x y : Q) : Qltb x y = false <-> y <= x.
Proof.
  unfold Qltb. rewrite negb_false_iff. apply Qle_bool_iff.
Qed.

Lemma Qle_bool_false (x y : Q) : Qle_bool x y = false <-> y < x.
Proof.
  split.
  - intros H. apply Qnot_le_lt. intros C. apply Qle_bool_iff in C. congruence.
  - intros H. destruct (Qle_bool x y) eqn:E; [|reflexivity].
    apply Qle_bool_iff in E. lra.
Qed.

Lemma String_eqb_neq (a b : string) : a <> b -> String.eqb a b = false.
Proof. intros H. apply String.eqb_neq. exact H. Qed.

Lemma cons_neq {A : Type} (x : A) (l : list A) : x :: l <> l.
Proof.
  intros H. apply (f_equal (@List.length A)) in H. cbn in H. lia.
Qed.

(** ** The coordinate mapper *)

Section MapperFacts.
Import Mapper.



(** Time 2.5 s is pixel 215, which is time 2.496 s. *)
Example timeToPixels_sample :
  Mapper.timeToPixels (Mapper.mkAdapter 44100 512) (5 # 2) = 215%Z
  /\ Mapper.pixelsToTime (Mapper.mkAdapter 44100 512) 215 == 110080 # 44100.
Proof. split; reflexivity. Qed.

(** The mapping to pixels is monotone. *)
Lemma timeToPixels_monotone (a : Adapter) (t1 t2 : Q) :
  0 < sample_rate a -> 0 < scale a -> t1 <= t2 ->
  (timeToPixels a t1 <= timeToPixels a t2)%Z.
Proof.
  intros Hsr Hsc Hle. unfold timeToPixels. apply Qfloor_resp_le.
  unfold Qdiv. apply Qmult_le_compat_r.
  - apply Qmult_le_compat_r; lra.
  - apply Qlt_le_weak. apply Qinv_lt_0_compat. exact Hsc.
Qed.

End MapperFacts.

(** ** The zoom view *)

Section ZoomViewFacts.
Import Js ZoomView.

Lemma lt_ofZ (a b : Z) : lt (ofZ a) (ofZ b) = (a <? b)%Z.
Proof.
  unfold lt, ofZ. destruct (a <? b)%Z eqn:E.
  - apply Qltb_true. rewrite <- Zlt_Qlt. lia.
  - apply Qltb_false. rewrite <- Zle_Qle. lia.
Qed.




(** Offsets are rounded half up and clamped to [[0, 400]] on the sample
    view. *)
Example updateWaveform_rounds_and_clamps :
  ZoomView.frameOffset (fst (ZoomView._updateWaveform Samples.sampleView (Js.Fin (1235 # 10))))
  = Js.ofZ 124
  /\ ZoomView.frameOffset (fst (ZoomView._updateWaveform Samples.sampleView (Js.Fin (-7))))
     = Js.ofZ 0
  /\ ZoomView.frameOffset (fst (ZoomView._updateWaveform Samples.sampleView (Js.Fin 4711)))
     = Js.ofZ 400.
Proof. repeat split; reflexivity. Qed.

(** [Utils.clamp] has no case for NaN: both comparisons are false. *)
Lemma clamp_NaN (lo hi : JsNum) : Utils.clamp NaN lo hi = NaN.
Proof. destruct lo, hi; reflexivity. Qed.



(** NaN, which is not numeric, is outside that statement: [Math.round] and
    [Utils.clamp] pass it through, so on a view at least as long as it is
    wide it becomes the frame offset and the displayed range is computed
    from it. *)
Lemma updateWaveform_NaN (v : View) :
  (width v <= pixelLength v)%Z ->
  frameOffset (fst (_updateWaveform v NaN)) = NaN
  /\ snd (_updateWaveform v NaN) = Displaying NaN NaN.
Proof.
  intros H. unfold _updateWaveform.
  replace (pixelLength v <? width v)%Z with false
    by (symmetry; apply Z.ltb_ge; exact H).
  cbn [round]. rewrite clamp_NaN. split; reflexivity.
Qed.

Lemma updateWaveform_never_throws (v : View) (offset : JsNum) :
  exists s e, snd (_updateWaveform v offset) = Displaying s e.
Proof.
  unfold _updateWaveform. destruct (pixelLength v <? width v)%Z; cbn [snd]; eauto.
Qed.

(** C8, as amended.  Of the view's updates only [setAmplitudeScale]
    validates: a scale that is not a number or is not finite is rejected with
    one thrown error and the view is left as it was.  [_updateWaveform]
    rejects nothing: whatever the offset, NaN included, no error is thrown,
    and an infinite offset is clamped to the nearer end of the scroll
    range. *)
Theorem viewport_updates_validation (v : View) (s : JsValue) :
  Utils.isNumber s = false \/ isFinite s = false ->
  (width v <= pixelLength v)%Z ->
  setAmplitudeScale v s
  = (v, Thrown "view.setAmplitudeScale(): Scale must be a valid number")
  /\ (forall offset, exists a b,
        snd (_updateWaveform v offset) = Displaying a b)
  /\ frameOffset (fst (_updateWaveform v PosInf)) = ofZ (pixelLength v - width v)
  /\ frameOffset (fst (_updateWaveform v NegInf)) = Fin 0.
Proof.
  intros Hs Hw. split; [|split; [apply updateWaveform_never_throws|]].
  - unfold setAmplitudeScale. destruct Hs as [-> | ->]; [reflexivity|].
    rewrite orb_true_r. reflexivity.
  - unfold _updateWaveform.
    replace (pixelLength v <? width v)%Z with false
      by (symmetry; apply Z.ltb_ge; exact Hw).
    split; reflexivity.
Qed.

(** The amplitude scale NaN on the sample view. *)
Lemma viewport_updates_validation_witness :
  (Utils.isNumber (VNumber NaN) = false \/ isFinite (VNumber NaN) = false)
  /\ (width Samples.sampleView <= pixelLength Samples.sampleView)%Z
  /\ setAmplitudeScale Samples.sampleView (VNumber NaN)
     = (Samples.sampleView,
        Thrown "view.setAmplitudeScale(): Scale must be a valid number")
  /\ frameOffset (fst (_updateWaveform Samples.sampleView PosInf)) = ofZ 400.
Proof.
  assert (H1 : Utils.isNumber (VNumber NaN) = false \/ isFinite (VNumber NaN) = false)
    by (right; reflexivity).
  assert (H2 : (width Samples.sampleView <= pixelLength Samples.sampleView)%Z)
    by (vm_compute; discriminate).
  split; [exact H1|]. split; [exact H2|].
  destruct (viewport_updates_validation Samples.sampleView (VNumber NaN) H1 H2)
    as (Ha & _ & Hb & _).
  split; [exact Ha|exact Hb].
Defined.

(** C8, as stated, fails for the offsets +Infinity and NaN.  With +Infinity
    the update is not rejected, no error is thrown, and the frame offset of
    the view changes from 0 to 400; with NaN no error is thrown either, the
    frame offset becomes NaN and the displayed range is computed from it. *)
Lemma non_finite_offset_is_not_rejected :
  (num_isFinite PosInf = false
   /\ frameOffset Samples.sampleView = Fin 0
   /\ frameOffset (fst (_updateWaveform Samples.sampleView PosInf)) = ofZ 400
   /\ fst (_updateWaveform Samples.sampleView PosInf) <> Samples.sampleView
   /\ forall message,
        snd (_updateWaveform Samples.sampleView PosInf) <> Thrown message)
  /\ (num_isFinite NaN = false
      /\ frameOffset (fst (_updateWaveform Samples.sampleView NaN)) = NaN
      /\ snd (_updateWaveform Samples.sampleView NaN) = Displaying NaN NaN).
Proof.
  split.
  - split; [reflexivity|]. split; [reflexivity|]. split; [reflexivity|].
    split; [|intros message; discriminate].
    intros C. apply (f_equal frameOffset) in C. vm_compute in C. discriminate.
  - split; [reflexivity|]. split; reflexivity.
Qed.

End ZoomViewFacts.

(** ** The segments layer *)

Import SegmentsLayer Samples.
Local Open Scope string_scope.
Local Open Scope list_scope.

(** *** What a render pass leaves alone *)

Lemma same_shape_refl g : same_shape g g.
Proof. repeat split. Qed.

Lemma same_shape_trans g1 g2 g3 :
  same_shape g1 g2 -> same_shape g2 g3 -> same_shape g1 g3.
Proof.
  unfold same_shape. intros H1 H2.
  repeat match goal with H : _ /\ _ |- _ => destruct H end.
  repeat split; congruence.
Qed.

Lemma render_frame_refl st : render_frame st st.
Proof. constructor; auto using same_shape_refl. Qed.

Lemma render_frame_trans st1 st2 st3 :
  render_frame st1 st2 -> render_frame st2 st3 -> render_frame st1 st3.
Proof.
  intros [] []. constructor; try congruence.
  intros q. eapply same_shape_trans; eauto.
Qed.

Lemma update_group_frame r f st :
  (forall g, same_shape g (f g)) -> render_frame st (update_group r f st).
Proof.
  intros Hf. constructor; try reflexivity.
  intros q. cbn. destruct (Nat.eqb q r) eqn:E.
  - apply Nat.eqb_eq in E. subst. apply Hf.
  - apply same_shape_refl.
Qed.

Lemma touching_shape b g : same_shape g (set_isSegmentTouching b g).
Proof. repeat split. Qed.

Lemma place_frame fo r st : render_frame st (place fo r st).
Proof.
  unfold place. apply update_group_frame. intros g. repeat split.
Qed.

Lemma update_segment_frame i f st : render_frame st (update_segment i f st).
Proof. constructor; try reflexivity. intros q. apply same_shape_refl. Qed.

Lemma emit_frame e st : render_frame st (emit e st).
Proof. constructor; try reflexivity. intros q. apply same_shape_refl. Qed.

Lemma commit_start_frame r t st : render_frame st (commit_start r t st).
Proof.
  unfold commit_start. destruct (negb _).
  - eapply render_frame_trans; [apply update_segment_frame | apply emit_frame].
  - apply render_frame_refl.
Qed.

Lemma commit_end_frame r t st : render_frame st (commit_end r t st).
Proof.
  unfold commit_end. destruct (negb _).
  - eapply render_frame_trans; [apply update_segment_frame | apply emit_frame].
  - apply render_frame_refl.
Qed.

Lemma render_unfold fuel r st :
  _renderSegmentGroup (S fuel) r st =
  let g := groups st r in
  let s := segment_of st r in
  let nb := neighbours g in
  let x := _mouseX st in
  let frameStartOffset := frameOffset (_view st) in
  let dragged : option Layer :=
    if handle_isMouseDragging (startHandle g) then
      match x with
      | Some xq =>
          if Qgtb xq 0 then
            let newTime := start_candidate st r xq in
            if Qgeb newTime (endTime s - minSegmentDuration) then
              Some (commit_start r (endTime s - minSegmentDuration) st)
            else
              match left nb with
              | Some l =>
                  if Qgeb (endTime (segment_of st l)) newTime then
                    match _renderSegmentGroup fuel l
                            (update_group l (set_isSegmentTouching true) st)
                    with
                    | Some st1 =>
                        Some (commit_start r (endTime (segment_of st1 l)) st1)
                    | None => None
                    end
                  else
                    Some (commit_start r newTime
                            (update_group l (set_isSegmentTouching false) st))
              | None => Some (commit_start r newTime st)
              end
          else Some st
      | None => Some st
      end
    else if handle_isMouseDragging (endHandle g) then
      match x with
      | Some xq =>
          if Qle_bool xq (width (_view st)) then
            let newTime := end_candidate st r xq in
            if Qle_bool newTime (startTime s + minSegmentDuration) then
              Some (commit_end r (startTime s + minSegmentDuration) st)
            else
              match right nb with
              | Some n =>
                  if Qle_bool (startTime (segment_of st n)) newTime then
                    match _renderSegmentGroup fuel n
                            (update_group n (set_isSegmentTouching true) st)
                    with
                    | Some st1 =>
                        Some (commit_end r (startTime (segment_of st1 n)) st1)
                    | None => None
                    end
                  else
                    Some (commit_end r newTime
                            (update_group n (set_isSegmentTouching false) st))
              | None => Some (commit_end r newTime st)
              end
          else Some st
      | None => Some st
      end
    else Some st in
  match dragged with
  | Some st1 => Some (place frameStartOffset r st1)
  | None => None
  end.
Proof. reflexivity. Qed.

Lemma render_preserves fuel :
  forall r st st', _renderSegmentGroup fuel r st = Some st' -> render_frame st st'.
Proof.
  induction fuel as [|fuel IH]; intros r st st' H; [discriminate|].
  rewrite render_unfold in H. cbv zeta in H.
  match type of H with
  | match ?d with _ => _ end = _ => destruct d as [st1|] eqn:Ed; [|discriminate]
  end.
  injection H as <-.
  eapply render_frame_trans; [|apply place_frame].
  repeat match type of Ed with
  | (if ?b then _ else _) = _ => destruct b
  | match ?o with _ => _ end = _ =>
      let E := fresh "E" in destruct o eqn:E
  | Some _ = Some _ => injection Ed as <-
  | None = Some _ => discriminate
  end;
  try apply render_frame_refl;
  try apply commit_start_frame;
  try apply commit_end_frame;
  try (eapply render_frame_trans;
       [apply update_group_frame; apply touching_shape|];
       first [ apply commit_start_frame | apply commit_end_frame
             | eapply render_frame_trans;
               [eapply IH; eassumption
               | first [apply commit_start_frame | apply commit_end_frame]]]).
Qed.

Lemma render_quiet fuel r st :
  quiet (groups st r) ->
  _renderSegmentGroup (S fuel) r st = Some (place (frameOffset (_view st)) r st).
Proof.
  intros [H1 H2]. rewrite render_unfold. cbv zeta. rewrite H1, H2. reflexivity.
Qed.

(** *** The guards of the two drag branches *)

Lemma render_guarded (fuel : nat) (r : Ref) (st : Layer) :
  (handle_isMouseDragging (startHandle (groups st r)) = true
   /\ forall xq, _mouseX st = Some xq -> ~ 0 < xq)
  \/ (handle_isMouseDragging (startHandle (groups st r)) = false
      /\ handle_isMouseDragging (endHandle (groups st r)) = true
      /\ exists xq, _mouseX st = Some xq /\ width (_view st) < xq) ->
  exists st',
    _renderSegmentGroup (S fuel) r st = Some st'
    /\ segs st' = segs st
    /\ emitted st' = emitted st.
Proof.
  intros H. exists (place (frameOffset (_view st)) r st).
  split; [|split; reflexivity].
  rewrite render_unfold. cbv zeta.
  destruct H as [[Hs Hx] | [Hs [He [xq [Hx Hw]]]]].
  - rewrite Hs. destruct (_mouseX st) as [xq|]; [|reflexivity].
    replace (Qgtb xq 0) with false; [reflexivity|].
    symmetry. apply Qltb_false. apply Qnot_lt_le. apply Hx. reflexivity.
  - rewrite Hs, He, Hx.
    replace (Qle_bool xq (width (_view st))) with false; [reflexivity|].
    symmetry. apply Qle_bool_false. exact Hw.
Qed.

(** C10, as amended.  In a render pass, if the start handle is being dragged
    and the pointer x is not strictly greater than 0 (or is undefined), the
    segment is left as it was and no event is emitted; and if the end handle
    is being dragged, the start handle is not, and the pointer x exceeds the
    view width, the segment is left as it was and no event is emitted. *)
Theorem drag_guards (fuel : nat) (r : Ref) (st : Layer) :
  (handle_isMouseDragging (startHandle (groups st r)) = true
   /\ forall xq, _mouseX st = Some xq -> ~ 0 < xq)
  \/ (handle_isMouseDragging (startHandle (groups st r)) = false
      /\ handle_isMouseDragging (endHandle (groups st r)) = true
      /\ exists xq, _mouseX st = Some xq /\ width (_view st) < xq) ->
  exists st',
    _renderSegmentGroup (S fuel) r st = Some st'
    /\ segs st' = segs st
    /\ emitted st' = emitted st.
Proof. apply render_guarded. Qed.

(** The start handle of ["mid"] dragged five pixels left of the view. *)
Lemma drag_guards_witness :
  (handle_isMouseDragging (startHandle (groups start_drag_left_of_view 1%nat)) = true
   /\ forall xq, _mouseX start_drag_left_of_view = Some xq -> ~ 0 < xq)
  /\ exists st',
       _renderSegmentGroup 1 1%nat start_drag_left_of_view = Some st'
       /\ segs st' = segs start_drag_left_of_view
       /\ emitted st' = emitted start_drag_left_of_view.
Proof.
  assert (H : handle_isMouseDragging
                (startHandle (groups start_drag_left_of_view 1%nat)) = true
              /\ forall xq, _mouseX start_drag_left_of_view = Some xq -> ~ 0 < xq).
  { split; [reflexivity|]. intros xq E. vm_compute in E. injection E as <-.
    vm_compute. discriminate. }
  split; [exact H|].
  apply (drag_guards 0 1%nat start_drag_left_of_view). left. exact H.
Defined.

(** C10, as stated, fails when both handles of a narrow segment were engaged
    by the same mousedown: with the pointer right of the view the end handle
    is being dragged and x exceeds the width, yet the start-handle branch
    runs and emits a drag event. *)
Lemma both_handles_dragged_start_commits :
  handle_isMouseDragging (endHandle (groups both_engaged_beyond_width 1%nat)) = true
  /\ _mouseX both_engaged_beyond_width = Some 150
  /\ width (_view both_engaged_beyond_width) < 150
  /\ exists st',
       _renderSegmentGroup 1 1%nat both_engaged_beyond_width = Some st'
       /\ emitted st' = SegmentsDragged 1%nat (Some true)
                         :: emitted both_engaged_beyond_width
       /\ endTime (segment_of st' 1%nat)
          = endTime (segment_of both_engaged_beyond_width 1%nat).
Proof.
  split; [reflexivity|]. split; [reflexivity|]. split; [reflexivity|].
  eexists. split; [vm_compute; reflexivity|]. split; reflexivity.
Qed.

Lemma commit_start_cong r t st st' :
  segs st' = segs st -> segment (groups st' r) = segment (groups st r) ->
  emitted st' = emitted st ->
  segs (commit_start r t st') = segs (commit_start r t st)
  /\ emitted (commit_start r t st') = emitted (commit_start r t st).
Proof.
  intros Hs Hg He. unfold commit_start. rewrite Hs, Hg.
  destruct (negb _); cbn; rewrite ?Hs, ?He; split; reflexivity.
Qed.


Lemma quiet_touching b g : quiet g -> quiet (set_isSegmentTouching b g).
Proof. intros H; exact H. Qed.

Lemma groups_update_same r f st : groups (update_group r f st) r = f (groups st r).
Proof. cbn. rewrite Nat.eqb_refl. reflexivity. Qed.

Lemma groups_update_other r q f st :
  q <> r -> groups (update_group r f st) q = groups st q.
Proof. intros H. cbn. apply Nat.eqb_neq in H. rewrite H. reflexivity. Qed.

Lemma groups_place_other fo r q st : q <> r -> groups (place fo r st) q = groups st q.
Proof. intros H. unfold place. apply groups_update_other. exact H. Qed.

Lemma place_touching fo r q st :
  isSegmentTouching (groups (place fo r st) q) = isSegmentTouching (groups st q).
Proof.
  unfold place. cbn. destruct (Nat.eqb q r) eqn:E; [|reflexivity].
  apply Nat.eqb_eq in E. subst. reflexivity.
Qed.

Lemma commit_start_groups r t st : groups (commit_start r t st) = groups st.
Proof. unfold commit_start. destruct (negb _); reflexivity. Qed.


(** Both handles can be engaged at once: over a segment narrower than two
    handles the pointer is inside both footprints, both handles are hovered,
    and the mousedown listener engages every hovered handle. *)
Lemma narrow_segment_hovers_both_handles :
  exists st',
    emitEvents 1 1%nat pointer_on_both_handles = Some st'
    /\ handle_isMouseOver (startHandle (groups st' 1%nat)) = Some true
    /\ handle_isMouseOver (endHandle (groups st' 1%nat)) = Some true.
Proof.
  eexists. split; [vm_compute; reflexivity|]. split; reflexivity.
Qed.

(** *** A drag move whose neighbour is at rest *)

(** A start-handle move whose left neighbour is at rest. *)
Lemma render_start_drag fuel r st xq :
  handle_isMouseDragging (startHandle (groups st r)) = true ->
  _mouseX st = Some xq -> 0 < xq ->
  (forall l, left (neighbours (groups st r)) = Some l -> quiet (groups st l)) ->
  exists st',
    _renderSegmentGroup (S (S fuel)) r st = Some st'
    /\ segs st' = segs (commit_start r (clamp_start st r xq) st)
    /\ emitted st' = emitted (commit_start r (clamp_start st r xq) st)
    /\ forall l, left (neighbours (groups st r)) = Some l ->
         start_candidate st r xq < endTime (segment_of st r) - minSegmentDuration ->
         isSegmentTouching (groups st' l)
         = Qgeb (endTime (segment_of st l)) (start_candidate st r xq).
Proof.
  intros Hs Hx Hpos Hq. rewrite render_unfold. cbv zeta. rewrite Hs, Hx.
  replace (Qgtb xq 0) with true by (symmetry; apply Qltb_true; exact Hpos).
  unfold clamp_start.
  destruct (Qgeb (start_candidate st r xq)
                 (endTime (segment_of st r) - minSegmentDuration)) eqn:Emin.
  - eexists. split; [reflexivity|]. split; [reflexivity|]. split; [reflexivity|].
    intros l _ Hlt. apply Qle_bool_iff in Emin. lra.
  - destruct (left (neighbours (groups st r))) as [l|] eqn:El.
    + assert (Hlr : l <> r).
      { intros ->. destruct (Hq r eq_refl) as [C _]. congruence. }
      destruct (Qgeb (endTime (segment_of st l)) (start_candidate st r xq)) eqn:Enb.
      * rewrite render_quiet by (rewrite groups_update_same; apply quiet_touching; auto).
        eexists. split; [reflexivity|].
        assert (Hsame : segment_of
                   (place (frameOffset (_view (update_group l (set_isSegmentTouching true) st))) l
                      (update_group l (set_isSegmentTouching true) st)) l
                 = segment_of st l).
        { unfold segment_of, place. cbn. rewrite Nat.eqb_refl. reflexivity. }
        rewrite Hsame.
        split; [|split].
        -- cbn [segs place]. apply commit_start_cong; try reflexivity.
           rewrite groups_place_other, groups_update_other; auto.
        -- cbn [emitted place]. apply commit_start_cong; try reflexivity.
           rewrite groups_place_other, groups_update_other; auto.
        -- intros l' [= <-] _. rewrite place_touching, commit_start_groups, place_touching.
           rewrite groups_update_same, Enb. reflexivity.
      * eexists. split; [reflexivity|]. split; [|split].
        -- cbn [segs place]. apply commit_start_cong; try reflexivity.
           rewrite groups_update_other; auto.
        -- cbn [emitted place]. apply commit_start_cong; try reflexivity.
           rewrite groups_update_other; auto.
        -- intros l' [= <-] _. rewrite place_touching, commit_start_groups.
           rewrite groups_update_same, Enb. reflexivity.
    + eexists. split; [reflexivity|]. split; [reflexivity|]. split; [reflexivity|].
      intros l [=].
Qed.


Lemma minSegmentDuration_pos : 0 < minSegmentDuration.
Proof. reflexivity. Qed.

(** What a commit does to the segments. *)
Lemma commit_start_segs r t st :
  let i := segment (groups st r) in
  (~ t == startTime (segs st i)
   /\ segs (commit_start r t st)
      = (fun i' => if String.eqb i' i then set_startTime t (segs st i) else segs st i'))
  \/ (t == startTime (segs st i) /\ segs (commit_start r t st) = segs st).
Proof.
  cbv zeta. unfold commit_start.
  destruct (Qeq_bool t (startTime (segs st (segment (groups st r))))) eqn:E; cbn [negb].
  - right. split; [apply Qeq_bool_iff; exact E | reflexivity].
  - left. split; [apply Qeq_bool_neq; exact E | reflexivity].
Qed.


(** The bounds of a segment and of its neighbours after a commit, read off a
    state [st'] whose groups have kept their shape. *)
Section Separation.

Variables (r : Ref) (st st' : Layer).
Hypothesis Hsep : well_separated r st.
Hypothesis Hframe : render_frame st st'.



End Separation.










(** *** The window mouseup listener *)

Lemma lookup_keys l k :
  In k (map fst l) -> exists r, lookup l k = Some r.
Proof.
  induction l as [|[k0 r0] l IH]; cbn; [tauto|].
  intros [->|H].
  - rewrite String.eqb_refl. eauto.
  - destruct (String.eqb k0 k); eauto.
Qed.

Lemma lookup_in_keys l k r : lookup l k = Some r -> In k (map fst l).
Proof.
  induction l as [|[k0 r0] l IH]; cbn; [discriminate|].
  destruct (String.eqb k0 k) eqn:E.
  - apply String.eqb_eq in E. auto.
  - auto.
Qed.

Lemma quiet_release g : quiet (release g).
Proof. split; reflexivity. Qed.

Lemma mouseup_one_spec fuel k r st :
  lookup (_segmentGroups st) k = Some r ->
  exists st',
    mouseup_one (S fuel) k st = Some st'
    /\ _segmentGroups st' = _segmentGroups st
    /\ isSegmentTouching (groups st' r) = false
    /\ forall q, isSegmentTouching (groups st q) = false ->
                 isSegmentTouching (groups st' q) = false.
Proof.
  intros Hk. unfold mouseup_one. rewrite Hk.
  set (released := if _ : bool then _ else Some st).
  assert (Hrel : exists st1,
             released = Some st1
             /\ quiet (groups st1 r)
             /\ _segmentGroups st1 = _segmentGroups st
             /\ forall q, isSegmentTouching (groups st1 q)
                          = isSegmentTouching (groups st q)).
  { subst released.
    destruct (handle_isMouseDragging (startHandle (groups st r))) eqn:D1;
      [|destruct (handle_isMouseDragging (endHandle (groups st r))) eqn:D2];
      cbn [orb].
    1,2: rewrite render_quiet by (rewrite groups_update_same; apply quiet_release);
      eexists; split; [reflexivity|]; split; [|split; [reflexivity|]].
    1,3: cbn [groups draw set_draws]; unfold place; rewrite !groups_update_same;
      split; reflexivity.
    1,2: intros q; cbn [groups draw set_draws]; rewrite place_touching; cbn;
      destruct (Nat.eqb q r) eqn:E; [apply Nat.eqb_eq in E; subst|]; reflexivity.
    exists st. split; [reflexivity|]. split; [split; assumption|].
    split; [reflexivity|]. intros q. reflexivity. }
  destruct Hrel as (st1 & -> & Hq & Hreg & Ht).
  destruct (isSegmentTouching (groups st1 r)) eqn:T.
  - rewrite render_quiet by (rewrite groups_update_same; apply quiet_touching; exact Hq).
    eexists. split; [reflexivity|]. split; [exact Hreg|]. split.
    + cbn [groups draw set_draws]. rewrite place_touching, groups_update_same. reflexivity.
    + intros q Hf. cbn [groups draw set_draws]. rewrite place_touching. cbn.
      destruct (Nat.eqb q r); [reflexivity|]. rewrite Ht. exact Hf.
  - exists st1. split; [reflexivity|]. split; [exact Hreg|]. split; [exact T|].
    intros q Hf. rewrite Ht. exact Hf.
Qed.

Lemma mouseup_each_spec fuel keys :
  forall st,
    (forall k, In k keys -> exists r, lookup (_segmentGroups st) k = Some r) ->
    exists st',
      mouseup_each (S fuel) keys st = Some st'
      /\ _segmentGroups st' = _segmentGroups st
      /\ (forall q, isSegmentTouching (groups st q) = false ->
                    isSegmentTouching (groups st' q) = false)
      /\ (forall k r, In k keys -> lookup (_segmentGroups st) k = Some r ->
                      isSegmentTouching (groups st' r) = false).
Proof.
  induction keys as [|k keys IH]; intros st Hin.
  - exists st. repeat split; auto. intros k r [].
  - destruct (Hin k (or_introl eq_refl)) as [r Hr].
    destruct (mouseup_one_spec fuel k r st Hr) as (st1 & Hrun & Hreg & Hclr & Hkeep).
    destruct (IH st1) as (st' & Hrest & Hreg' & Hkeep' & Hall).
    { intros k' Hk'. rewrite Hreg. apply Hin. right. exact Hk'. }
    exists st'. cbn [mouseup_each]. rewrite Hrun. split; [exact Hrest|].
    split; [congruence|]. split; [auto|].
    intros k' r' [<-|Hk'] Hl.
    + rewrite Hr in Hl. injection Hl as <-. auto.
    + apply (Hall k' r' Hk'). rewrite Hreg. exact Hl.
Qed.

Lemma mouseup_clears_touching fuel st :
  exists st',
    mouseup (S fuel) st = Some st'
    /\ forall k r, lookup (_segmentGroups st') k = Some r ->
                   isSegmentTouching (groups st' r) = false.
Proof.
  unfold mouseup.
  destruct (mouseup_each_spec fuel
              (map fst (_segmentGroups (set_isMouseDragging false st)))
              (emit ZoomviewMouseup (set_isMouseDragging false st)))
    as (st' & Hrun & Hreg & _ & Hall).
  { intros k Hk. apply lookup_keys. exact Hk. }
  exists st'. split; [exact Hrun|].
  intros k r Hl. rewrite Hreg in Hl. apply (Hall k r); [|exact Hl].
  eapply lookup_in_keys. exact Hl.
Qed.

(** C3, as amended.  For a start-handle drag move (pointer x above 0) whose
    candidate is below [endTime - 0.2], so that the minimum-duration clamp
    does not take precedence, and at or before the end of the left neighbour,
    the neighbour not being dragged itself: the start time after the move
    equals the neighbour's end time, the neighbour's [isSegmentTouching] is
    true, and after the next window mouseup the flag of every registered
    group is false. *)
Theorem start_drag_reaches_left_neighbour (fuel : nat) (r l : Ref) (st : Layer)
                                          (xq : Q) :
  handle_isMouseDragging (startHandle (groups st r)) = true ->
  _mouseX st = Some xq -> 0 < xq ->
  left (neighbours (groups st r)) = Some l ->
  quiet (groups st l) ->
  start_candidate st r xq < endTime (segment_of st r) - minSegmentDuration ->
  start_candidate st r xq <= endTime (segment_of st l) ->
  exists st1,
    _renderSegmentGroup (S (S fuel)) r st = Some st1
    /\ startTime (segment_of st1 r) == endTime (segment_of st1 l)
    /\ endTime (segment_of st1 l) = endTime (segment_of st l)
    /\ isSegmentTouching (groups st1 l) = true
    /\ exists st2,
         mouseup (S fuel) st1 = Some st2
         /\ forall k q, lookup (_segmentGroups st2) k = Some q ->
                        isSegmentTouching (groups st2 q) = false.
Proof.
  intros Hs Hx Hpos Hl Hq Hmin Hnb.
  destruct (render_start_drag fuel r st xq Hs Hx Hpos) as (st1 & Hrun & Hsg & _ & Ht).
  { intros l' El. rewrite Hl in El. injection El as <-. exact Hq. }
  exists st1. split; [exact Hrun|].
  pose proof (render_preserves _ _ _ _ Hrun) as Hf.
  assert (Hseg : forall q, segment (groups st1 q) = segment (groups st q))
    by (intros q; apply (rf_shape _ _ Hf q)).
  assert (Hclamp : clamp_start st r xq = endTime (segment_of st l)).
  { unfold clamp_start. rewrite Hl.
    replace (Qgeb (start_candidate st r xq)
                  (endTime (segment_of st r) - minSegmentDuration)) with false
      by (symmetry; apply Qle_bool_false; exact Hmin).
    replace (Qgeb (endTime (segment_of st l)) (start_candidate st r xq)) with true
      by (symmetry; apply Qle_bool_iff; exact Hnb).
    reflexivity. }
  rewrite Hclamp in Hsg. unfold segment_of in Hsg.
  assert (Hend : endTime (segment_of st1 l) = endTime (segment_of st l)).
  { unfold segment_of. rewrite Hseg, Hsg.
    destruct (commit_start_segs r (endTime (segs st (segment (groups st l)))) st)
      as [[_ ->]|[_ ->]]; [|reflexivity].
    destruct (String.eqb _ _) eqn:E; [|reflexivity].
    apply String.eqb_eq in E. rewrite E. reflexivity. }
  split; [|split; [exact Hend|split]].
  - rewrite Hend. unfold segment_of. rewrite Hseg, Hsg.
    destruct (commit_start_segs r (endTime (segs st (segment (groups st l)))) st)
      as [[_ ->]|[He ->]].
    + rewrite String.eqb_refl. reflexivity.
    + symmetry. exact He.
  - rewrite (Ht l Hl Hmin). apply Qle_bool_iff. exact Hnb.
  - apply mouseup_clears_touching.
Qed.

(** The start handle of ["mid"] dragged to time 1; ["left"] ends at 1.5. *)
Lemma start_drag_reaches_left_neighbour_witness :
  handle_isMouseDragging (startHandle (groups reachingLayer 1%nat)) = true
  /\ _mouseX reachingLayer = Some 10
  /\ 0 < 10
  /\ left (neighbours (groups reachingLayer 1%nat)) = Some 0%nat
  /\ quiet (groups reachingLayer 0%nat)
  /\ start_candidate reachingLayer 1%nat 10
     < endTime (segment_of reachingLayer 1%nat) - minSegmentDuration
  /\ start_candidate reachingLayer 1%nat 10 <= endTime (segment_of reachingLayer 0%nat)
  /\ exists st1,
       _renderSegmentGroup 2 1%nat reachingLayer = Some st1
       /\ startTime (segment_of st1 1%nat) == endTime (segment_of st1 0%nat)
       /\ endTime (segment_of st1 0%nat) = endTime (segment_of reachingLayer 0%nat)
       /\ isSegmentTouching (groups st1 0%nat) = true
       /\ exists st2,
            mouseup 1 st1 = Some st2
            /\ forall k q, lookup (_segmentGroups st2) k = Some q ->
                           isSegmentTouching (groups st2 q) = false.
Proof.
  assert (H1 : handle_isMouseDragging (startHandle (groups reachingLayer 1%nat)) = true)
    by reflexivity.
  assert (H2 : _mouseX reachingLayer = Some 10) by reflexivity.
  assert (H3 : 0 < 10) by reflexivity.
  assert (H4 : left (neighbours (groups reachingLayer 1%nat)) = Some 0%nat)
    by reflexivity.
  assert (H5 : quiet (groups reachingLayer 0%nat)) by (split; reflexivity).
  assert (H6 : start_candidate reachingLayer 1%nat 10
               < endTime (segment_of reachingLayer 1%nat) - minSegmentDuration)
    by reflexivity.
  assert (H7 : start_candidate reachingLayer 1%nat 10
               <= endTime (segment_of reachingLayer 0%nat))
    by (vm_compute; discriminate).
  repeat (split; [assumption|]).
  exact (start_drag_reaches_left_neighbour 0 1%nat 0%nat reachingLayer 10
           H1 H2 H3 H4 H5 H6 H7).
Defined.

(** C3, as stated, fails where the minimum-duration clamp takes precedence:
    the candidate has reached the end of the left neighbour, but the
    neighbour is not marked as touching.  First with a segment of exactly the
    minimum duration that starts where its neighbour ends; then with a
    neighbour that reaches into the segment, where the start time does not
    become the neighbour's end time either. *)
Lemma minimum_duration_clamp_wins :
  (start_candidate tightLayer 1%nat 48 <= endTime (segment_of tightLayer 0%nat)
   /\ exists st',
        _renderSegmentGroup 2 1%nat tightLayer = Some st'
        /\ isSegmentTouching (groups st' 0%nat) = false)
  /\ (start_candidate overlapLayer 1%nat (485 # 10)
      <= endTime (segment_of overlapLayer 0%nat)
      /\ exists st',
           _renderSegmentGroup 2 1%nat overlapLayer = Some st'
           /\ isSegmentTouching (groups st' 0%nat) = false
           /\ ~ startTime (segment_of st' 1%nat) == endTime (segment_of st' 0%nat)).
Proof.
  split.
  - split; [vm_compute; discriminate|]. eexists.
    split; [vm_compute; reflexivity|]. reflexivity.
  - split; [vm_compute; discriminate|]. eexists.
    split; [vm_compute; reflexivity|]. split; [reflexivity|].
    vm_compute. discriminate.
Qed.



(** *** When a boundary is committed *)

Lemma commit_start_emits r t st :
  emitted (commit_start r t st) <> emitted st
  <-> ~ t == startTime (segment_of st r).
Proof.
  unfold commit_start, segment_of.
  destruct (Qeq_bool t _) eqn:E; cbn [negb].
  - apply Qeq_bool_iff in E. split; [intros H; exfalso; apply H; reflexivity|tauto].
  - apply Qeq_bool_neq in E. split; [auto|]. intros _. cbn. apply cons_neq.
Qed.

Lemma commit_end_emits r t st :
  emitted (commit_end r t st) <> emitted st
  <-> ~ t == startTime (segment_of st r).
Proof.
  unfold commit_end, segment_of.
  destruct (Qeq_bool t _) eqn:E; cbn [negb].
  - apply Qeq_bool_iff in E. split; [intros H; exfalso; apply H; reflexivity|tauto].
  - apply Qeq_bool_neq in E. split; [auto|]. intros _. cbn. apply cons_neq.
Qed.

(** C2 at an end-handle move that holds the boundary where it is: the
    clamped candidate equals the current end time, and the segment is written
    and ['segments.dragged'] emitted all the same, because the test reads
    [segment.startTime]. *)
Lemma end_handle_commit_reads_startTime :
  clamp_end end_drag_in_place 1%nat 34 == endTime (segment_of end_drag_in_place 1%nat)
  /\ exists st',
       _renderSegmentGroup 2 1%nat end_drag_in_place = Some st'
       /\ emitted end_drag_in_place = []
       /\ emitted st' = [SegmentsDragged 1%nat None].
Proof.
  split; [reflexivity|]. eexists. split; [vm_compute; reflexivity|].
  split; reflexivity.
Qed.

(** *** The hover resolver over a group at rest *)

Lemma tracks_refl r st : quiet (groups st r) -> tracks r st st.
Proof. intros H. constructor; auto. Qed.

Lemma hover_write_distance d : hover_write (set_highlightRectDistance d).
Proof. intros g. repeat split. Qed.
Lemma hover_write_over b : hover_write (set_isMouseOver b).
Proof. intros g. repeat split. Qed.
Lemma hover_write_start b : hover_write (set_start_over b).
Proof. intros g. repeat split. Qed.
Lemma hover_write_end b : hover_write (set_end_over b).
Proof. intros g. repeat split. Qed.

Lemma tracks_write r st X f :
  hover_write f -> tracks r st X -> tracks r st (update_group r f X).
Proof.
  intros Hf [].
  destruct (Hf (groups X r)) as (F1 & F2 & F3 & F4 & F5 & F6 & F7 & F8).
  constructor; try assumption; rewrite groups_update_same; try congruence.
  destruct tr_quiet0. split; congruence.
Qed.

Lemma tracks_hover fuel e r st X :
  up_to_date r st -> tracks r st X ->
  exists X',
    emit_hover (S fuel) e r X = Some X'
    /\ tracks r st X'
    /\ isMouseOver (groups X' r) = isMouseOver (groups X r)
    /\ handle_isMouseOver (startHandle (groups X' r))
       = handle_isMouseOver (startHandle (groups X r))
    /\ handle_isMouseOver (endHandle (groups X' r))
       = handle_isMouseOver (endHandle (groups X r))
    /\ emitted X' = e :: emitted X
    /\ draws X' = S (draws X).
Proof.
  intros Hup Ht. unfold emit_hover.
  rewrite render_quiet by (apply (tr_quiet _ _ _ Ht)).
  eexists. split; [reflexivity|].
  destruct Ht. unfold place.
  split; [|cbn; rewrite Nat.eqb_refl; repeat split; reflexivity].
  constructor; cbn [_view segs _mouseX _mouseY _isMouseOver draw set_draws
                    update_group set_groups emit set_emitted groups];
    try assumption;
    rewrite ?Nat.eqb_refl; cbn; try assumption.
  rewrite <- Hup. unfold place, segment_of. cbn. rewrite Nat.eqb_refl. cbn.
  rewrite tr_view0, tr_segs0, tr_segment0. reflexivity.
Qed.

Lemma differs_false a b : differs a b = false -> b = Some a.
Proof.
  destruct b as [b|]; cbn; [|discriminate].
  destruct a, b; cbn; congruence.
Qed.

Lemma emit_body_spec fuel over r st X :
  up_to_date r st -> tracks r st X ->
  exists X',
    emit_body (S fuel) over r X = Some X'
    /\ tracks r st X'
    /\ isMouseOver (groups X' r) = Some over.
Proof.
  intros Hup Ht. unfold emit_body.
  destruct (differs over (isMouseOver (groups X r))) eqn:Ed.
  2: { exists X. split; [reflexivity|]. split; [exact Ht|].
       apply differs_false. exact Ed. }
  pose proof (tracks_write r st X _ (hover_write_over (Some over)) Ht) as Ht0.
  assert (Hov : isMouseOver (groups (update_group r (set_isMouseOver (Some over)) X) r)
                = Some over) by (rewrite groups_update_same; reflexivity).
  destruct over.
  - destruct (tracks_hover fuel (SegmentGroupMouseenter r) r st _ Hup Ht0)
      as (X1 & -> & Ht1 & Ho1 & _).
    exists X1. split; [reflexivity|]. split; [exact Ht1|]. congruence.
  - destruct (tracks_hover fuel (SegmentGroupMouseleave r) r st _ Hup Ht0)
      as (X1 & -> & Ht1 & Ho1 & _).
    rewrite Hov in Ho1.
    assert (Hstart : exists X2,
               (if truthy (handle_isMouseOver (startHandle (groups X1 r)))
                then emit_hover (S fuel) (HandleMouseleave r (Some true)) r
                       (update_group r (set_start_over false) X1)
                else Some X1) = Some X2
               /\ tracks r st X2 /\ isMouseOver (groups X2 r) = Some false).
    { destruct (truthy _).
      - pose proof (tracks_write r st X1 _ (hover_write_start false) Ht1) as Hw.
        destruct (tracks_hover fuel (HandleMouseleave r (Some true)) r st _ Hup Hw)
          as (X2 & -> & Ht2 & Ho2 & _).
        exists X2. split; [reflexivity|]. split; [exact Ht2|].
        rewrite Ho2, groups_update_same. exact Ho1.
      - exists X1. auto. }
    destruct Hstart as (X2 & -> & Ht2 & Ho2).
    destruct (truthy _).
    + pose proof (tracks_write r st X2 _ (hover_write_end false) Ht2) as Hw.
      destruct (tracks_hover fuel (HandleMouseleave r None) r st _ Hup Hw)
        as (X3 & -> & Ht3 & Ho3 & _).
      exists X3. split; [reflexivity|]. split; [exact Ht3|].
      rewrite Ho3, groups_update_same. exact Ho2.
    + exists X2. auto.
Qed.

Lemma isStartHandleMouseOver_ext over x y rect h h' :
  handle_width h' = handle_width h -> handle_height h' = handle_height h ->
  isStartHandleMouseOver over x y rect h' = isStartHandleMouseOver over x y rect h.
Proof. intros Hw Hh. unfold isStartHandleMouseOver. rewrite Hw, Hh. reflexivity. Qed.

Lemma isEndHandleMouseOver_ext over x y p h h' :
  handle_width h' = handle_width h -> handle_height h' = handle_height h ->
  isEndHandleMouseOver over x y p h' = isEndHandleMouseOver over x y p h.
Proof. intros Hw Hh. unfold isEndHandleMouseOver. rewrite Hw, Hh. reflexivity. Qed.

Lemma emit_start_handle_spec fuel over r st X :
  up_to_date r st -> tracks r st X ->
  exists X',
    emit_start_handle (S fuel) over r X = Some X'
    /\ tracks r st X'
    /\ isMouseOver (groups X' r) = isMouseOver (groups X r)
    /\ handle_isMouseOver (startHandle (groups X' r))
       = Some (isStartHandleMouseOver over (_mouseX st) (_mouseY st)
                 (highlightRect (groups st r)) (startHandle (groups st r))).
Proof.
  intros Hup Ht. unfold emit_start_handle.
  rewrite (tr_mouseX _ _ _ Ht), (tr_mouseY _ _ _ Ht), (tr_rect _ _ _ Ht).
  rewrite (isStartHandleMouseOver_ext _ _ _ _ (startHandle (groups st r))
             (startHandle (groups X r)) (tr_sw _ _ _ Ht) (tr_sh _ _ _ Ht)).
  set (b := isStartHandleMouseOver _ _ _ _ _).
  destruct (differs b (handle_isMouseOver (startHandle (groups X r)))) eqn:Ed.
  - pose proof (tracks_write r st X _ (hover_write_start b) Ht) as Hw.
    destruct (tracks_hover fuel
                (if b then HandleMouseenter r (Some true)
                 else HandleMouseleave r (Some true)) r st _ Hup Hw)
      as (X1 & -> & Ht1 & Ho1 & Hs1 & _).
    exists X1. split; [reflexivity|]. split; [exact Ht1|]. split.
    + rewrite Ho1, groups_update_same. reflexivity.
    + rewrite Hs1, groups_update_same. reflexivity.
  - exists X. split; [reflexivity|]. split; [exact Ht|]. split; [reflexivity|].
    apply differs_false. exact Ed.
Qed.

Lemma emit_end_handle_spec fuel over p r st X :
  up_to_date r st -> tracks r st X ->
  exists X',
    emit_end_handle (S fuel) over p r X = Some X'
    /\ tracks r st X'
    /\ isMouseOver (groups X' r) = isMouseOver (groups X r)
    /\ handle_isMouseOver (startHandle (groups X' r))
       = handle_isMouseOver (startHandle (groups X r))
    /\ handle_isMouseOver (endHandle (groups X' r))
       = Some (isEndHandleMouseOver over (_mouseX st) (_mouseY st) p
                 (endHandle (groups st r))).
Proof.
  intros Hup Ht. unfold emit_end_handle.
  rewrite (tr_mouseX _ _ _ Ht), (tr_mouseY _ _ _ Ht).
  rewrite (isEndHandleMouseOver_ext _ _ _ _ (endHandle (groups st r))
             (endHandle (groups X r)) (tr_ew _ _ _ Ht) (tr_eh _ _ _ Ht)).
  set (b := isEndHandleMouseOver _ _ _ _ _).
  destruct (differs b (handle_isMouseOver (endHandle (groups X r)))) eqn:Ed.
  - pose proof (tracks_write r st X _ (hover_write_end b) Ht) as Hw.
    destruct (tracks_hover fuel
                (if b then HandleMouseenter r (Some false)
                 else HandleMouseleave r (Some false)) r st _ Hup Hw)
      as (X1 & -> & Ht1 & Ho1 & Hs1 & He1 & _).
    exists X1. split; [reflexivity|]. split; [exact Ht1|]. split; [|split].
    + rewrite Ho1, groups_update_same. reflexivity.
    + rewrite Hs1, groups_update_same. reflexivity.
    + rewrite He1, groups_update_same. reflexivity.
  - exists X. split; [reflexivity|]. split; [exact Ht|]. split; [reflexivity|].
    split; [reflexivity|]. apply differs_false. exact Ed.
Qed.

(** The stored flags after a pass of [emitEvents] over a group at rest. *)
Lemma emitEvents_flags fuel r st :
  quiet (groups st r) -> up_to_date r st ->
  exists st',
    emitEvents (S fuel) r st = Some st'
    /\ tracks r st st'
    /\ highlightRect (groups st' r) = highlightRect (groups st r)
    /\ isMouseOver (groups st' r)
       = Some (isSegmentMouseOver (_isMouseOver st) (_mouseX st)
                 (highlightRect (groups st r)))
    /\ handle_isMouseOver (startHandle (groups st' r))
       = Some (isStartHandleMouseOver
                 (isSegmentMouseOver (_isMouseOver st) (_mouseX st)
                    (highlightRect (groups st r)))
                 (_mouseX st) (_mouseY st)
                 (highlightRect (groups st r)) (startHandle (groups st r)))
    /\ handle_isMouseOver (endHandle (groups st' r))
       = Some (isEndHandleMouseOver
                 (isSegmentMouseOver (_isMouseOver st) (_mouseX st)
                    (highlightRect (groups st r)))
                 (_mouseX st) (_mouseY st)
                 (rect_x (highlightRect (groups st r))
                  + rect_width (highlightRect (groups st r)))
                 (endHandle (groups st r))).
Proof.
  intros Hq Hup. unfold emitEvents.
  set (over := isSegmentMouseOver _ _ _).
  set (d := match _mouseX st with Some _ => _ | None => None end).
  pose proof (tracks_write r st st _ (hover_write_distance d) (tracks_refl r st Hq))
    as Ht0.
  destruct (emit_body_spec fuel over r st _ Hup Ht0) as (X1 & -> & Ht1 & Ho1).
  destruct (emit_start_handle_spec fuel over r st X1 Hup Ht1)
    as (X2 & -> & Ht2 & Ho2 & Hs2).
  destruct (emit_end_handle_spec fuel over
              (rect_x (highlightRect (groups st r))
               + rect_width (highlightRect (groups st r))) r st X2 Hup Ht2)
    as (X3 & -> & Ht3 & Ho3 & Hs3 & He3).
  exists X3. split; [reflexivity|]. split; [exact Ht3|].
  split; [apply (tr_rect _ _ _ Ht3)|].
  split; [congruence|]. split; [congruence|]. exact He3.
Qed.

Lemma opt_le_iff x c : opt_le x c = true <-> exists v, x = Some v /\ v <= c.
Proof.
  destruct x as [v|]; cbn.
  - rewrite Qle_bool_iff. split; [eauto|]. intros (v' & [= <-] & H). exact H.
  - split; [discriminate|]. intros (v & [=] & _).
Qed.

Lemma opt_ge_iff x c : opt_ge x c = true <-> exists v, x = Some v /\ c <= v.
Proof.
  destruct x as [v|]; cbn.
  - unfold Qgeb. rewrite Qle_bool_iff. split; [eauto|]. intros (v' & [= <-] & H). exact H.
  - split; [discriminate|]. intros (v & [=] & _).
Qed.

Lemma isStartHandleMouseOver_iff over x y rect h :
  isStartHandleMouseOver over x y rect h = true <->
  over = true
  /\ exists xq, x = Some xq
       /\ (xq <= rect_x rect + 3
           \/ (xq <= rect_x rect + handle_width h
               /\ exists yq, y = Some yq /\ yq <= handle_height h)).
Proof.
  unfold isStartHandleMouseOver.
  rewrite andb_true_iff, orb_true_iff, andb_true_iff, !opt_le_iff.
  split.
  - intros [Ho [(xq & Hx & H)|[(xq & Hx & H) Hy]]]; (split; [exact Ho|]);
      exists xq; (split; [exact Hx|]); [left|right]; auto.
  - intros [Ho (xq & Hx & [H|[H Hy]])]; (split; [exact Ho|]); [left|right]; eauto.
Qed.

Lemma isEndHandleMouseOver_iff over x y p h :
  isEndHandleMouseOver over x y p h = true <->
  over = true
  /\ exists xq, x = Some xq
       /\ (p - 3 <= xq
           \/ (p - handle_width h <= xq
               /\ exists yq, y = Some yq /\ yq <= handle_height h)).
Proof.
  unfold isEndHandleMouseOver.
  rewrite andb_true_iff, orb_true_iff, andb_true_iff, !opt_ge_iff, opt_le_iff.
  split.
  - intros [Ho [(xq & Hx & H)|[(xq & Hx & H) Hy]]]; (split; [exact Ho|]);
      exists xq; (split; [exact Hx|]); [left|right]; auto.
  - intros [Ho (xq & Hx & [H|[H Hy]])]; (split; [exact Ho|]); [left|right]; eauto.
Qed.

(** C6, as amended.  After a pass of [emitEvents] over a group that is not
    being dragged and whose highlight is up to date, a handle's hover state
    is true if and only if body hover is true and the pointer is either
    within 3 pixels of the handle's edge of the segment, at any height, or
    within the handle's width of that edge and not below the handle's height.
    A handle is never hovered when the body is not. *)
Theorem handle_hover_resolved (fuel : nat) (r : Ref) (st : Layer) :
  quiet (groups st r) -> up_to_date r st ->
  exists st',
    emitEvents (S fuel) r st = Some st'
    /\ highlightRect (groups st' r) = highlightRect (groups st r)
    /\ (handle_isMouseOver (startHandle (groups st' r)) = Some true <->
        isMouseOver (groups st' r) = Some true
        /\ exists xq, _mouseX st = Some xq
             /\ (xq <= rect_x (highlightRect (groups st r)) + 3
                 \/ (xq <= rect_x (highlightRect (groups st r))
                           + handle_width (startHandle (groups st r))
                     /\ exists yq, _mouseY st = Some yq
                          /\ yq <= handle_height (startHandle (groups st r)))))
    /\ (handle_isMouseOver (endHandle (groups st' r)) = Some true <->
        isMouseOver (groups st' r) = Some true
        /\ exists xq, _mouseX st = Some xq
             /\ (rect_x (highlightRect (groups st r))
                 + rect_width (highlightRect (groups st r)) - 3 <= xq
                 \/ (rect_x (highlightRect (groups st r))
                     + rect_width (highlightRect (groups st r))
                     - handle_width (endHandle (groups st r)) <= xq
                     /\ exists yq, _mouseY st = Some yq
                          /\ yq <= handle_height (endHandle (groups st r))))).
Proof.
  intros Hq Hup.
  destruct (emitEvents_flags fuel r st Hq Hup) as (st' & Hrun & _ & Hr & Ho & Hs & He).
  exists st'. split; [exact Hrun|]. split; [exact Hr|].
  rewrite Ho, Hs, He. split.
  - split; intros H.
    + injection H as H. pose proof H as H'.
      apply isStartHandleMouseOver_iff in H'. destruct H' as [Hov Hx].
      split; [rewrite Hov; reflexivity | exact Hx].
    + destruct H as [Hov Hx]. injection Hov as Hov. f_equal.
      apply isStartHandleMouseOver_iff. split; assumption.
  - split; intros H.
    + injection H as H. pose proof H as H'.
      apply isEndHandleMouseOver_iff in H'. destruct H' as [Hov Hx].
      split; [rewrite Hov; reflexivity | exact Hx].
    + destruct H as [Hov Hx]. injection Hov as Hov. f_equal.
      apply isEndHandleMouseOver_iff. split; assumption.
Qed.

(** C6, as stated, fails in the 3-pixel band: with the pointer two pixels
    right of the start edge and 40 pixels down, far below the 16-pixel
    handle, the start handle is hovered. *)
Lemma edge_band_ignores_height :
  exists st',
    emitEvents 1 1%nat pointer_low_on_start_edge = Some st'
    /\ handle_isMouseOver (startHandle (groups st' 1%nat)) = Some true
    /\ _mouseY pointer_low_on_start_edge = Some 40
    /\ handle_height (startHandle (groups st' 1%nat)) < 40
    /\ ~ (exists yq, _mouseY pointer_low_on_start_edge = Some yq
                     /\ yq <= handle_height (startHandle (groups st' 1%nat))).
Proof.
  eexists. split; [vm_compute; reflexivity|].
  split; [reflexivity|]. split; [reflexivity|]. split; [reflexivity|].
  intros (yq & E & H). vm_compute in E. injection E as <-.
  vm_compute in H. apply H. reflexivity.
Qed.

(** The same pointer position: the start handle is hovered. *)
Lemma handle_hover_resolved_witness :
  quiet (groups pointer_low_on_start_edge 1%nat)
  /\ up_to_date 1%nat pointer_low_on_start_edge
  /\ exists st',
       emitEvents 1 1%nat pointer_low_on_start_edge = Some st'
       /\ handle_isMouseOver (startHandle (groups st' 1%nat)) = Some true.
Proof.
  assert (H1 : quiet (groups pointer_low_on_start_edge 1%nat)) by (split; reflexivity).
  assert (H2 : up_to_date 1%nat pointer_low_on_start_edge) by reflexivity.
  split; [exact H1|]. split; [exact H2|].
  destruct (handle_hover_resolved 0 1%nat pointer_low_on_start_edge H1 H2)
    as (st' & Hrun & _ & Hs & _).
  exists st'. split; [exact Hrun|].
  apply Hs. clear Hs. vm_compute in Hrun. injection Hrun as <-.
  split; [reflexivity|]. exists 22. split; [reflexivity|].
  left. vm_compute. discriminate.
Defined.

(** A second pass with nothing changed in between emits nothing and draws
    nothing: the stored flags already equal the computed ones. *)
Lemma second_pass_is_silent (fuel : nat) (r : Ref) (st : Layer) :
  quiet (groups st r) -> up_to_date r st ->
  exists st1 st2,
    emitEvents (S fuel) r st = Some st1
    /\ emitEvents (S fuel) r st1 = Some st2
    /\ emitted st2 = emitted st1
    /\ draws st2 = draws st1.
Proof.
  intros Hq Hup.
  destruct (emitEvents_flags fuel r st Hq Hup)
    as (st1 & Hrun & Ht & Hr & Ho & Hs & He).
  exists st1. eexists. split; [exact Hrun|].
  unfold emitEvents.
  rewrite (tr_over _ _ _ Ht), (tr_mouseX _ _ _ Ht), Hr.
  unfold emit_body. rewrite groups_update_same.
  cbn [isMouseOver set_highlightRectDistance]. rewrite Ho.
  replace (differs _ (Some _)) with false
    by (cbn; rewrite Bool.eqb_reflx; reflexivity).
  unfold emit_start_handle. rewrite groups_update_same.
  cbn [_mouseX _mouseY update_group set_groups highlightRect startHandle
       set_highlightRectDistance].
  rewrite (tr_mouseX _ _ _ Ht), (tr_mouseY _ _ _ Ht), Hr.
  rewrite (isStartHandleMouseOver_ext _ _ _ _ (startHandle (groups st r))
             (startHandle (groups st1 r)) (tr_sw _ _ _ Ht) (tr_sh _ _ _ Ht)).
  rewrite Hs.
  replace (differs _ (Some _)) with false
    by (cbn; rewrite Bool.eqb_reflx; reflexivity).
  unfold emit_end_handle. rewrite groups_update_same.
  cbn [_mouseX _mouseY update_group set_groups highlightRect endHandle
       set_highlightRectDistance].
  rewrite (tr_mouseX _ _ _ Ht), (tr_mouseY _ _ _ Ht).
  rewrite (isEndHandleMouseOver_ext _ _ _ _ (endHandle (groups st r))
             (endHandle (groups st1 r)) (tr_ew _ _ _ Ht) (tr_eh _ _ _ Ht)).
  rewrite He.
  replace (differs _ (Some _)) with false
    by (cbn; rewrite Bool.eqb_reflx; reflexivity).
  split; [reflexivity|]. split; reflexivity.
Qed.

Lemma emit_body_events fuel over r st X :
  up_to_date r st -> tracks r st X ->
  exists X',
    emit_body (S fuel) over r X = Some X'
    /\ tracks r st X'
    /\ emitted X'
       = body_events r over (isMouseOver (groups X r))
           (handle_isMouseOver (startHandle (groups X r)))
           (handle_isMouseOver (endHandle (groups X r))) ++ emitted X
    /\ handle_isMouseOver (startHandle (groups X' r))
       = after_body over (isMouseOver (groups X r))
           (handle_isMouseOver (startHandle (groups X r)))
    /\ handle_isMouseOver (endHandle (groups X' r))
       = after_body over (isMouseOver (groups X r))
           (handle_isMouseOver (endHandle (groups X r))).
Proof.
  intros Hup Ht. unfold emit_body, body_events, after_body.
  destruct (differs over (isMouseOver (groups X r))) eqn:Ed; cbn [andb].
  2: { exists X. split; [reflexivity|]. split; [exact Ht|].
       split; [reflexivity|]. split; reflexivity. }
  pose proof (tracks_write r st X _ (hover_write_over (Some over)) Ht) as Ht0.
  destruct over; cbn [negb andb].
  - destruct (tracks_hover fuel (SegmentGroupMouseenter r) r st _ Hup Ht0)
      as (X1 & -> & Ht1 & _ & Hs1 & He1 & Hem & _).
    exists X1. split; [reflexivity|]. split; [exact Ht1|].
    rewrite Hem, Hs1, He1, !groups_update_same. repeat split.
  - destruct (tracks_hover fuel (SegmentGroupMouseleave r) r st _ Hup Ht0)
      as (X1 & -> & Ht1 & _ & Hs1 & He1 & Hem1 & _).
    rewrite groups_update_same in Hs1, He1.
    cbn [startHandle endHandle set_isMouseOver] in Hs1, He1.
    rewrite Hs1.
    destruct (truthy (handle_isMouseOver (startHandle (groups X r)))) eqn:Ts.
    + pose proof (tracks_write r st X1 _ (hover_write_start false) Ht1) as Hw.
      destruct (tracks_hover fuel (HandleMouseleave r (Some true)) r st _ Hup Hw)
        as (X2 & -> & Ht2 & _ & Hs2 & He2 & Hem2 & _).
      rewrite groups_update_same in Hs2, He2.
      cbn [startHandle endHandle set_start_over set_startHandle
           handle_isMouseOver set_handle_isMouseOver] in Hs2, He2.
      rewrite He2, He1.
      destruct (truthy (handle_isMouseOver (endHandle (groups X r)))) eqn:Te.
      * pose proof (tracks_write r st X2 _ (hover_write_end false) Ht2) as Hw2.
        destruct (tracks_hover fuel (HandleMouseleave r None) r st _ Hup Hw2)
          as (X3 & -> & Ht3 & _ & Hs3 & He3 & Hem3 & _).
        rewrite groups_update_same in Hs3, He3.
        exists X3. split; [reflexivity|]. split; [exact Ht3|].
        rewrite Hem3, Hs3, He3. cbn. rewrite Hem2. cbn. rewrite Hem1. cbn.
        rewrite Hs2. repeat split.
      * exists X2. split; [reflexivity|]. split; [exact Ht2|].
        rewrite Hem2, Hs2, He2, He1. cbn. rewrite Hem1. repeat split.
    + rewrite He1.
      destruct (truthy (handle_isMouseOver (endHandle (groups X r)))) eqn:Te.
      * pose proof (tracks_write r st X1 _ (hover_write_end false) Ht1) as Hw2.
        destruct (tracks_hover fuel (HandleMouseleave r None) r st _ Hup Hw2)
          as (X3 & -> & Ht3 & _ & Hs3 & He3 & Hem3 & _).
        rewrite groups_update_same in Hs3, He3.
        exists X3. split; [reflexivity|]. split; [exact Ht3|].
        rewrite Hem3, Hs3, He3. cbn. rewrite Hem1. cbn. rewrite Hs1. repeat split.
      * exists X1. split; [reflexivity|]. split; [exact Ht1|].
        rewrite Hem1, Hs1, He1. repeat split.
Qed.

Lemma emit_start_handle_events fuel over r st X :
  up_to_date r st -> tracks r st X ->
  exists X',
    emit_start_handle (S fuel) over r X = Some X'
    /\ tracks r st X'
    /\ emitted X'
       = start_events r
           (isStartHandleMouseOver over (_mouseX st) (_mouseY st)
              (highlightRect (groups st r)) (startHandle (groups st r)))
           (handle_isMouseOver (startHandle (groups X r))) ++ emitted X
    /\ handle_isMouseOver (endHandle (groups X' r))
       = handle_isMouseOver (endHandle (groups X r)).
Proof.
  intros Hup Ht. unfold emit_start_handle, start_events.
  rewrite (tr_mouseX _ _ _ Ht), (tr_mouseY _ _ _ Ht), (tr_rect _ _ _ Ht).
  rewrite (isStartHandleMouseOver_ext _ _ _ _ (startHandle (groups st r))
             (startHandle (groups X r)) (tr_sw _ _ _ Ht) (tr_sh _ _ _ Ht)).
  set (b := isStartHandleMouseOver _ _ _ _ _).
  destruct (differs b (handle_isMouseOver (startHandle (groups X r)))) eqn:Ed.
  - pose proof (tracks_write r st X _ (hover_write_start b) Ht) as Hw.
    destruct (tracks_hover fuel
                (if b then HandleMouseenter r (Some true)
                 else HandleMouseleave r (Some true)) r st _ Hup Hw)
      as (X1 & -> & Ht1 & _ & _ & He1 & Hem & _).
    exists X1. split; [reflexivity|]. split; [exact Ht1|].
    rewrite Hem, He1, groups_update_same. split; reflexivity.
  - exists X. split; [reflexivity|]. split; [exact Ht|]. split; reflexivity.
Qed.

Lemma emit_end_handle_events fuel over p r st X :
  up_to_date r st -> tracks r st X ->
  exists X',
    emit_end_handle (S fuel) over p r X = Some X'
    /\ emitted X'
       = end_events r
           (isEndHandleMouseOver over (_mouseX st) (_mouseY st) p
              (endHandle (groups st r)))
           (handle_isMouseOver (endHandle (groups X r))) ++ emitted X.
Proof.
  intros Hup Ht. unfold emit_end_handle, end_events.
  rewrite (tr_mouseX _ _ _ Ht), (tr_mouseY _ _ _ Ht).
  rewrite (isEndHandleMouseOver_ext _ _ _ _ (endHandle (groups st r))
             (endHandle (groups X r)) (tr_ew _ _ _ Ht) (tr_eh _ _ _ Ht)).
  set (b := isEndHandleMouseOver _ _ _ _ _).
  destruct (differs b (handle_isMouseOver (endHandle (groups X r)))) eqn:Ed.
  - pose proof (tracks_write r st X _ (hover_write_end b) Ht) as Hw.
    destruct (tracks_hover fuel
                (if b then HandleMouseenter r (Some false)
                 else HandleMouseleave r (Some false)) r st _ Hup Hw)
      as (X1 & -> & _ & _ & _ & _ & Hem & _).
    exists X1. split; [reflexivity|]. exact Hem.
  - exists X. split; reflexivity.
Qed.

(** The events of a pass over a group at rest, from the flags it finds and
    the flags it computes. *)
Lemma emitEvents_events fuel r st :
  quiet (groups st r) -> up_to_date r st ->
  exists st',
    emitEvents (S fuel) r st = Some st'
    /\ emitted st'
       = pass_events r
           (isSegmentMouseOver (_isMouseOver st) (_mouseX st)
              (highlightRect (groups st r)))
           (isStartHandleMouseOver
              (isSegmentMouseOver (_isMouseOver st) (_mouseX st)
                 (highlightRect (groups st r)))
              (_mouseX st) (_mouseY st)
              (highlightRect (groups st r)) (startHandle (groups st r)))
           (isEndHandleMouseOver
              (isSegmentMouseOver (_isMouseOver st) (_mouseX st)
                 (highlightRect (groups st r)))
              (_mouseX st) (_mouseY st)
              (rect_x (highlightRect (groups st r))
               + rect_width (highlightRect (groups st r)))
              (endHandle (groups st r)))
           (isMouseOver (groups st r))
           (handle_isMouseOver (startHandle (groups st r)))
           (handle_isMouseOver (endHandle (groups st r)))
         ++ emitted st.
Proof.
  intros Hq Hup. unfold emitEvents, pass_events.
  set (over := isSegmentMouseOver _ _ _).
  set (d := match _mouseX st with Some _ => _ | None => None end).
  pose proof (tracks_write r st st _ (hover_write_distance d) (tracks_refl r st Hq))
    as Ht0.
  destruct (emit_body_events fuel over r st _ Hup Ht0)
    as (X1 & -> & Ht1 & Hem1 & Hs1 & He1).
  rewrite groups_update_same in Hem1, Hs1, He1.
  cbn [isMouseOver startHandle endHandle set_highlightRectDistance emitted
       update_group set_groups] in Hem1, Hs1, He1.
  destruct (emit_start_handle_events fuel over r st X1 Hup Ht1)
    as (X2 & -> & Ht2 & Hem2 & He2).
  destruct (emit_end_handle_events fuel over
              (rect_x (highlightRect (groups st r))
               + rect_width (highlightRect (groups st r))) r st X2 Hup Ht2)
    as (X3 & -> & Hem3).
  exists X3. split; [reflexivity|].
  rewrite Hem3, Hem2, Hem1, He2, He1, Hs1, !app_assoc. reflexivity.
Qed.

(** Once the three flags hold booleans, a pass emits, for each of the body
    and the two handles, nothing when the flag keeps its value and exactly
    one event, an enter or a leave according to the new value, when it
    changes. *)
Lemma pass_events_edge_triggered (r : Ref) (nb ns ne ob os oe : bool) :
  (nb = false -> ns = false /\ ne = false) ->
  let evs := pass_events r nb ns ne (Some ob) (Some os) (Some oe) in
  map hover_kind (filter (about Body) evs)
  = (if Bool.eqb ob nb then [] else [Some (Body, nb)])
  /\ map hover_kind (filter (about StartPart) evs)
     = (if Bool.eqb os ns then [] else [Some (StartPart, ns)])
  /\ map hover_kind (filter (about EndPart) evs)
     = (if Bool.eqb oe ne then [] else [Some (EndPart, ne)])
  /\ List.length (filter (fun e => match hover_kind e with
                                | Some _ => false | None => true end) evs) = 0%nat.
Proof.
  intros Hc.
  destruct nb; [|destruct (Hc eq_refl) as [-> ->]];
    destruct ob, os, oe; try destruct ns; try destruct ne;
    cbn; repeat split; reflexivity.
Qed.

(** The hover resolver is edge-triggered from the second pass on: over a
    group at rest whose three flags hold booleans, a pass stores the computed
    flags and emits, for the body and for each handle, one event if the flag
    changed (an enter when it became true, a leave when it became false) and
    none if it did not. *)
Lemma hover_pass_edge_triggered (fuel : nat) (r : Ref) (st : Layer)
                                (ob os oe : bool) :
  quiet (groups st r) -> up_to_date r st ->
  isMouseOver (groups st r) = Some ob ->
  handle_isMouseOver (startHandle (groups st r)) = Some os ->
  handle_isMouseOver (endHandle (groups st r)) = Some oe ->
  exists st' evs nb ns ne,
    emitEvents (S fuel) r st = Some st'
    /\ emitted st' = evs ++ emitted st
    /\ isMouseOver (groups st' r) = Some nb
    /\ handle_isMouseOver (startHandle (groups st' r)) = Some ns
    /\ handle_isMouseOver (endHandle (groups st' r)) = Some ne
    /\ map hover_kind (filter (about Body) evs)
       = (if Bool.eqb ob nb then [] else [Some (Body, nb)])
    /\ map hover_kind (filter (about StartPart) evs)
       = (if Bool.eqb os ns then [] else [Some (StartPart, ns)])
    /\ map hover_kind (filter (about EndPart) evs)
       = (if Bool.eqb oe ne then [] else [Some (EndPart, ne)]).
Proof.
  intros Hq Hup Hob Hos Hoe.
  destruct (emitEvents_flags fuel r st Hq Hup)
    as (st' & Hrun & _ & _ & Hb & Hs & He).
  destruct (emitEvents_events fuel r st Hq Hup) as (st'' & Hrun' & Hev).
  rewrite Hrun in Hrun'. injection Hrun' as <-.
  rewrite Hob, Hos, Hoe in Hev.
  eexists st', _, _, _, _. split; [exact Hrun|]. split; [exact Hev|].
  split; [exact Hb|]. split; [exact Hs|]. split; [exact He|].
  match goal with
  | |- context [pass_events r ?nb ?ns ?ne _ _ _] =>
      destruct (pass_events_edge_triggered r nb ns ne ob os oe)
        as (H1 & H2 & H3 & _)
  end.
  - intros Hn. unfold isStartHandleMouseOver, isEndHandleMouseOver.
    rewrite Hn. split; reflexivity.
  - split; [exact H1|]. split; [exact H2|exact H3].
Qed.

(** C5 on the first pass over a visual just created: the flags are still
    undefined, the computed ones are false, and a body leave and two handle
    leaves are emitted although nothing was ever entered. *)
Lemma fresh_visual_fires_leave :
  exists st',
    update_one 1 "mid" emptyLayer = Some st'
    /\ emitted emptyLayer = []
    /\ emitted st' = [HandleMouseleave 0%nat (Some false);
                      HandleMouseleave 0%nat (Some true);
                      SegmentGroupMouseleave 0%nat].
Proof.
  eexists. split; [vm_compute; reflexivity|]. split; reflexivity.
Qed.

(** *** The registry and the visibility pass *)

Lemma lookup_delete_other l k k' :
  k' <> k -> lookup (delete l k) k' = lookup l k'.
Proof.
  intros Hne. induction l as [|[k0 r0] l IH]; cbn; [reflexivity|].
  destruct (String.eqb k0 k) eqn:E; cbn.
  - apply String.eqb_eq in E. subst.
    rewrite String_eqb_neq by congruence. exact IH.
  - destruct (String.eqb k0 k'); [reflexivity|exact IH].
Qed.

Lemma keys_delete l k k' :
  In k' (map fst l) -> k' <> k -> In k' (map fst (delete l k)).
Proof.
  intros Hin Hne. induction l as [|[k0 r0] l IH]; cbn in *; [tauto|].
  destruct (String.eqb k0 k) eqn:E; cbn.
  - apply String.eqb_eq in E. subst. destruct Hin; [congruence|auto].
  - destruct Hin; [left; assumption|right; auto].
Qed.

Lemma NoDup_keys_delete l k : NoDup (map fst l) -> NoDup (map fst (delete l k)).
Proof.
  induction l as [|[k0 r0] l IH]; cbn; [auto|].
  intros H. inversion H as [|? ? Hn Hd]; subst.
  destruct (String.eqb k0 k); cbn; [auto|].
  constructor; [|auto]. intros C. apply Hn.
  clear -C. induction l as [|[k1 r1] l IH]; cbn in *; [tauto|].
  destruct (String.eqb k1 k); cbn in *; [right; auto|].
  destruct C; [left; assumption|right; auto].
Qed.

Lemma length_delete l k :
  NoDup (map fst l) -> In k (map fst l) ->
  S (List.length (delete l k)) = List.length l.
Proof.
  induction l as [|[k0 r0] l IH]; cbn; [tauto|].
  intros H Hin. inversion H as [|? ? Hn Hd]; subst.
  destruct (String.eqb k0 k) eqn:E; cbn.
  - apply String.eqb_eq in E. subst. f_equal.
    clear -Hn. induction l as [|[k1 r1] l IH]; cbn in *; [reflexivity|].
    rewrite String_eqb_neq by (intros ->; apply Hn; left; reflexivity).
    cbn. f_equal. apply IH. tauto.
  - f_equal. apply IH; [assumption|].
    destruct Hin as [->|]; [|assumption].
    rewrite String.eqb_refl in E. discriminate.
Qed.

Section Removal.

Variable isVisible : Segment -> Q -> Q -> bool.

(** Under [registry_ok], [_removeInvisibleSegments] returns the number of
    entries it took out of the registry and touches nothing else. *)
Lemma remove_each_removes keys s e :
  forall n st,
    registry_ok st -> NoDup keys ->
    (forall k, In k keys -> In k (map fst (_segmentGroups st))) ->
    let res := remove_each isVisible keys s e n st in
    (fst res + List.length (_segmentGroups (snd res))
     = n + List.length (_segmentGroups st))%nat
    /\ groups (snd res) = groups st
    /\ segs (snd res) = segs st
    /\ forall k r, lookup (_segmentGroups (snd res)) k = Some r ->
                   lookup (_segmentGroups st) k = Some r.
Proof.
  induction keys as [|k keys IH]; intros n st Hok Hnd Hin; cbn.
  - repeat split; auto.
  - inversion Hnd as [|? ? Hk Hnd']; subst.
    destruct (lookup_keys _ k (Hin k (or_introl eq_refl))) as [r Hr].
    rewrite Hr. destruct Hok as [Hnodup Hseg]. rewrite (Hseg k r Hr).
    destruct (negb (isVisible (segs st k) s e)).
    + unfold _removeSegment. rewrite Hr.
      set (st1 := set_segmentGroups (delete (_segmentGroups st) k) st).
      destruct (IH (S n) st1) as (H1 & H2 & H3 & H4).
      * split; [apply NoDup_keys_delete; exact Hnodup|].
        intros k' r' Hl. cbn in Hl.
        destruct (String.eqb k' k) eqn:E.
        -- apply String.eqb_eq in E. subst k'. exfalso.
           apply lookup_in_keys in Hl. clear -Hl.
           induction (_segmentGroups st) as [|[k1 r1] l IHl]; cbn in *; [tauto|].
           destruct (String.eqb k1 k) eqn:E1; cbn in *; [auto|].
           destruct Hl as [->|]; [|auto]. rewrite String.eqb_refl in E1. discriminate.
        -- apply String.eqb_neq in E. rewrite lookup_delete_other in Hl by exact E.
           apply Hseg. exact Hl.
      * exact Hnd'.
      * intros k' Hk'. cbn. apply keys_delete; [apply Hin; right; exact Hk'|].
        intros ->. contradiction.
      * split; [|split; [exact H2|split; [exact H3|]]].
        -- rewrite H1. cbn.
           pose proof (length_delete (_segmentGroups st) k Hnodup
                         (Hin k (or_introl eq_refl))). lia.
        -- intros k' r' Hl. specialize (H4 k' r' Hl). cbn in H4.
           destruct (String.eqb k' k) eqn:E.
           ++ apply String.eqb_eq in E. subst k'. exfalso.
              apply lookup_in_keys in H4. clear -H4.
              induction (_segmentGroups st) as [|[k1 r1] l IHl]; cbn in *; [tauto|].
              destruct (String.eqb k1 k) eqn:E1; cbn in *; [auto|].
              destruct H4 as [->|]; [|auto]. rewrite String.eqb_refl in E1. discriminate.
           ++ apply String.eqb_neq in E. rewrite lookup_delete_other in H4 by exact E.
              exact H4.
    + apply IH; [split; assumption|exact Hnd'|].
      intros k' Hk'. apply Hin. right. exact Hk'.
Qed.

Lemma removeInvisible_count s e st :
  registry_ok st ->
  (fst (_removeInvisibleSegments isVisible s e st)
   + List.length (_segmentGroups (snd (_removeInvisibleSegments isVisible s e st)))
   = List.length (_segmentGroups st))%nat.
Proof.
  intros Hok. unfold _removeInvisibleSegments.
  destruct (remove_each_removes (map fst (_segmentGroups st)) s e 0 st Hok)
    as (H & _); [apply Hok|auto|exact H].
Qed.

End Removal.

Lemma calm_refl st : calm st st.
Proof. split; auto. Qed.

Lemma calm_trans st1 st2 st3 : calm st1 st2 -> calm st2 st3 -> calm st1 st3.
Proof. intros [D1 R1] [D2 R2]. split; [lia|auto]. Qed.

Lemma calm_frame st st' : render_frame st st' -> calm st st'.
Proof.
  intros Hf. split; [rewrite (rf_draws _ _ Hf); lia|].
  intros Hr q. destruct (Hr q) as [Q1 Q2].
  destruct (rf_shape _ _ Hf q) as (_ & _ & _ & _ & _ & D1 & D2 & _).
  split; congruence.
Qed.

Lemma calm_render fuel r st st' :
  _renderSegmentGroup fuel r st = Some st' -> calm st st'.
Proof. intros H. apply calm_frame. eapply render_preserves; eauto. Qed.

Lemma calm_write r f st : hover_write f -> calm st (update_group r f st).
Proof.
  intros Hf. split; [cbn; lia|]. intros Hr q. cbn.
  destruct (Nat.eqb q r); [|apply Hr].
  destruct (Hf (groups st r)) as (_ & _ & D1 & D2 & _). destruct (Hr r).
  split; congruence.
Qed.

Lemma calm_emit_hover fuel e r st st' :
  emit_hover fuel e r st = Some st' -> calm st st'.
Proof.
  unfold emit_hover. destruct (_renderSegmentGroup _ _ _) as [s|] eqn:E; [|discriminate].
  intros [= <-]. apply calm_render in E. destruct E as [D R].
  split; [cbn in *; lia|]. intros Hr. apply R. exact Hr.
Qed.

Ltac calm_step :=
  match goal with
  | H : emit_hover _ _ _ _ = Some _ |- _ => apply calm_emit_hover in H
  end.

Lemma calm_emit_body fuel over r st st' :
  emit_body fuel over r st = Some st' -> calm st st'.
Proof.
  unfold emit_body. destruct (differs _ _); [|intros [= <-]; apply calm_refl].
  pose proof (calm_write r _ st (hover_write_over (Some over))) as H0.
  destruct over.
  - intros H. calm_step. eapply calm_trans; eauto.
  - destruct (emit_hover _ _ _ _) as [sa|] eqn:Ea; [|discriminate]. calm_step.
    assert (Hab : forall sb,
               (if truthy (handle_isMouseOver (startHandle (groups sa r)))
                then emit_hover fuel (HandleMouseleave r (Some true)) r
                       (update_group r (set_start_over false) sa)
                else Some sa) = Some sb -> calm sa sb).
    { intros sb. destruct (truthy _).
      - intros H. calm_step. eapply calm_trans; [|exact H].
        apply calm_write, hover_write_start.
      - intros [= <-]. apply calm_refl. }
    destruct (if truthy _ then _ else Some sa) as [sb|] eqn:Eb; [|discriminate].
    clear Eb. pose proof (Hab sb eq_refl) as Eb.
    destruct (truthy _).
    + intros H. calm_step.
      eapply calm_trans; [exact H0|]. eapply calm_trans; [exact Ea|].
      eapply calm_trans; [exact Eb|]. eapply calm_trans; [|exact H].
      apply calm_write, hover_write_end.
    + intros [= <-]. eapply calm_trans; [exact H0|]. eapply calm_trans; eauto.
Qed.

Lemma calm_emit_start_handle fuel over r st st' :
  emit_start_handle fuel over r st = Some st' -> calm st st'.
Proof.
  unfold emit_start_handle. destruct (differs _ _); [|intros [= <-]; apply calm_refl].
  intros H. calm_step. eapply calm_trans; [|exact H].
  apply calm_write, hover_write_start.
Qed.

Lemma calm_emit_end_handle fuel over p r st st' :
  emit_end_handle fuel over p r st = Some st' -> calm st st'.
Proof.
  unfold emit_end_handle. destruct (differs _ _); [|intros [= <-]; apply calm_refl].
  intros H. calm_step. eapply calm_trans; [|exact H].
  apply calm_write, hover_write_end.
Qed.

Lemma calm_emitEvents fuel r st st' :
  emitEvents fuel r st = Some st' -> calm st st'.
Proof.
  unfold emitEvents.
  destruct (emit_body _ _ _ _) as [s1|] eqn:E1; [|discriminate].
  destruct (emit_start_handle _ _ _ _) as [s2|] eqn:E2; [|discriminate].
  intros E3.
  apply calm_emit_body in E1. apply calm_emit_start_handle in E2.
  apply calm_emit_end_handle in E3.
  eapply calm_trans; [apply calm_write, hover_write_distance|].
  eapply calm_trans; [exact E1|]. eapply calm_trans; eauto.
Qed.

Lemma calm_findOrAdd fuel i st r st' :
  _findOrAddSegmentGroup fuel i st = Some (r, st') -> calm st st'.
Proof.
  unfold _findOrAddSegmentGroup.
  destruct (lookup _ _); [intros [= _ <-]; apply calm_refl|].
  unfold _addSegmentGroup, _createSegmentGroup.
  destruct (_renderSegmentGroup _ _ _) as [s1|] eqn:E; [|discriminate].
  intros [= _ <-]. apply calm_render in E. destruct E as [D R].
  split; [cbn in *; lia|]. intros Hr. apply R.
  intros q. cbn. destruct (Nat.eqb q (nextRef st)); [split; reflexivity|apply Hr].
Qed.

Lemma calm_update_one fuel i st st' :
  update_one fuel i st = Some st' -> calm st st'.
Proof.
  unfold update_one.
  destruct (_findOrAddSegmentGroup _ _ _) as [[r s1]|] eqn:E1; [|discriminate].
  destruct (_renderSegmentGroup _ _ _) as [s2|] eqn:E2; [|discriminate].
  intros E3. apply calm_findOrAdd in E1. apply calm_render in E2.
  apply calm_emitEvents in E3.
  eapply calm_trans; [exact E1|]. eapply calm_trans; eauto.
Qed.

Lemma calm_update_each fuel found :
  forall st st', update_each fuel found st = Some st' -> calm st st'.
Proof.
  induction found as [|i found IH]; intros st st'; cbn.
  - intros [= <-]. apply calm_refl.
  - destruct (update_one _ _ _) as [s1|] eqn:E; [|discriminate].
    intros H. apply calm_update_one in E. eapply calm_trans; eauto.
Qed.

Lemma up_to_date_place fo r st :
  fo = frameOffset (_view st) -> up_to_date r (place fo r st).
Proof.
  intros ->. unfold up_to_date, place, segment_of. cbn. rewrite Nat.eqb_refl.
  reflexivity.
Qed.

Lemma update_one_total fuel i st :
  at_rest st -> exists st', update_one (S fuel) i st = Some st'.
Proof.
  intros Hr. unfold update_one.
  assert (H1 : exists r s1, _findOrAddSegmentGroup (S fuel) i st = Some (r, s1)).
  { unfold _findOrAddSegmentGroup. destruct (lookup _ _); [eauto|].
    unfold _addSegmentGroup, _createSegmentGroup.
    rewrite render_quiet; [eauto|].
    cbn. rewrite Nat.eqb_refl. split; reflexivity. }
  destruct H1 as (r & s1 & E1). rewrite E1.
  apply calm_findOrAdd in E1. destruct E1 as [_ R1].
  rewrite render_quiet by (apply R1; exact Hr).
  destruct (emitEvents_flags fuel r (place (frameOffset (_view s1)) r s1))
    as (st' & -> & _).
  - pose proof (place_frame (frameOffset (_view s1)) r s1) as Hf.
    apply calm_frame in Hf. apply Hf. apply R1. exact Hr.
  - apply up_to_date_place. reflexivity.
  - eauto.
Qed.

Lemma update_each_total fuel found :
  forall st, at_rest st -> exists st', update_each (S fuel) found st = Some st'.
Proof.
  induction found as [|i found IH]; intros st Hr; cbn [update_each]; [eauto|].
  destruct (update_one_total fuel i st Hr) as [s1 E]. rewrite E.
  apply IH. apply calm_update_one in E. apply E. exact Hr.
Qed.

Section Reconcile.

Variable isVisible : Segment -> Q -> Q -> bool.

Lemma remove_each_draws keys s e :
  forall n st, draws (snd (remove_each isVisible keys s e n st)) = draws st.
Proof.
  induction keys as [|k keys IH]; intros n st; cbn; [reflexivity|].
  destruct (lookup _ _); [|apply IH].
  destruct (negb _); [|apply IH].
  rewrite IH. unfold _removeSegment. destruct (lookup _ _); reflexivity.
Qed.

Lemma remove_each_count keys s e :
  forall n st, (n <= fst (remove_each isVisible keys s e n st))%nat.
Proof.
  induction keys as [|k keys IH]; intros n st; cbn; [lia|].
  destruct (lookup _ _); [|apply IH].
  destruct (negb _); [|apply IH].
  specialize (IH (S n) (_removeSegment (segment (groups st r)) st)). lia.
Qed.

Lemma remove_each_nothing keys s e :
  forall n st,
    fst (remove_each isVisible keys s e n st) = n ->
    snd (remove_each isVisible keys s e n st) = st.
Proof.
  induction keys as [|k keys IH]; intros n st; cbn; [reflexivity|].
  destruct (lookup _ _); [|apply IH].
  destruct (negb _); [|apply IH].
  intros H.
  pose proof (remove_each_count keys s e (S n)
                (_removeSegment (segment (groups st r)) st)). lia.
Qed.

(** C7, as amended.  A pass of [updateSegments] computes a count equal to
  the number of segments found in the visible range, whether their visuals
  are new or not, plus the number of visuals removed in the pass, and the
  layer is redrawn in the pass if and only if that count is not zero; a
  pass that finds no segment and removes no visual changes nothing but the
  visible-segment count.  The pass runs to its end when no handle is being
  dragged. *)
Theorem updateSegments_redraw (fuel : nat) (found : list SegId)
                              (startT endT : Q) (st : Layer) :
  (forall st',
      updateSegments isVisible fuel found startT endT st = Some st' ->
      exists st1,
        update_each fuel found
          (set_visibleSegmentsCount (List.length found) st) = Some st1
        /\ let removed := fst (_removeInvisibleSegments isVisible startT endT st1) in
           updateSegments_count isVisible fuel found startT endT st
           = Some (List.length found + removed)%nat
           /\ ((draws st < draws st')%nat <->
               (List.length found + removed)%nat <> 0%nat)
           /\ ((List.length found + removed)%nat = 0%nat ->
               st' = set_visibleSegmentsCount 0 st)
           /\ (registry_ok st1 ->
               (removed + List.length (_segmentGroups st')
                = List.length (_segmentGroups st1))%nat))
  /\ (at_rest st ->
      exists st', updateSegments isVisible (S fuel) found startT endT st = Some st').
Proof.
  split.
  - intros st'. unfold updateSegments, updateSegments_count.
    destruct (update_each _ _ _) as [st1|] eqn:E; [|discriminate].
    exists st1. split; [reflexivity|]. cbv zeta. split; [reflexivity|].
    pose proof (calm_update_each _ _ _ _ E) as [D _]. cbn in D.
    pose proof (removeInvisible_count isVisible startT endT st1) as Hc.
    unfold _removeInvisibleSegments in *.
    pose proof (remove_each_draws (map fst (_segmentGroups st1)) startT endT 0 st1) as Hd.
    pose proof (remove_each_nothing (map fst (_segmentGroups st1)) startT endT 0 st1) as Hn.
    destruct (remove_each _ _ _ _ _ _) as [removed st2]. cbn [fst snd] in *.
    destruct (0 <? List.length found + removed)%nat eqn:Ec.
    + apply Nat.ltb_lt in Ec. injection H as <-.
      split; [cbn; split; lia|]. split; [lia|exact Hc].
    + apply Nat.ltb_ge in Ec. injection H as <-.
      assert (Hf : found = []) by (destruct found; [reflexivity|cbn in Ec; lia]).
      assert (Hr : removed = 0%nat) by lia.
      subst. cbn in E. injection E as <-. rewrite (Hn eq_refl) in *.
      split; [cbn; split; lia|]. split; [intros _; reflexivity|exact Hc].
  - intros Hr. unfold updateSegments.
    destruct (update_each_total fuel found
                (set_visibleSegmentsCount (List.length found) st)) as [st1 ->].
    { exact Hr. }
    destruct (_removeInvisibleSegments _ _ _ _) as [removed st2].
    destruct (0 <? _)%nat; eauto.
Qed.

End Reconcile.

(** One visible segment on the sample layer; and the empty range. *)
Lemma at_rest_sample : at_rest sampleLayer.
Proof. intros [|[|q]]; split; reflexivity. Qed.

Lemma updateSegments_redraw_witness :
  at_rest sampleLayer
  /\ (exists st',
        updateSegments always_visible 1 ["mid"] 0 10 sampleLayer = Some st')
  /\ forall st',
       updateSegments always_visible 1 [] 0 10 sampleLayer = Some st' ->
       exists st1,
         update_each 1 [] (set_visibleSegmentsCount 0 sampleLayer) = Some st1
         /\ (0 + fst (_removeInvisibleSegments always_visible 0 10 st1) = 0 ->
             st' = set_visibleSegmentsCount 0 sampleLayer)%nat.
Proof.
  split; [exact at_rest_sample|]. split.
  - apply (proj2 (updateSegments_redraw always_visible 0 ["mid"] 0 10 sampleLayer)).
    exact at_rest_sample.
  - intros st' H.
    destruct (proj1 (updateSegments_redraw always_visible 1 [] 0 10 sampleLayer) st' H)
      as (st1 & H1 & _ & _ & H4 & _).
    exists st1. split; [exact H1|exact H4].
Defined.

(** C7, as stated, fails for a pass over a segment that is visible and
    already has its visual: nothing is added, nothing is removed, and the
    layer is redrawn. *)
Lemma visible_segment_redraws :
  exists st',
    updateSegments always_visible 1 ["mid"] 0 10 sampleLayer = Some st'
    /\ _segmentGroups st' = _segmentGroups sampleLayer
    /\ nextRef st' = nextRef sampleLayer
    /\ draws sampleLayer = 0%nat
    /\ draws st' = 1%nat.
Proof.
  eexists. split; [vm_compute; reflexivity|]. repeat split; reflexivity.
Qed.

(** *** Two scenarios *)

(** The pointer half a pixel right of the start of ["mid"]: the body and the
    start handle are entered, the end handle is not. *)
Example hover_near_start_edge :
  exists st',
    emitEvents 1 1%nat pointer_at_2_05 = Some st'
    /\ isMouseOver (groups st' 1%nat) = Some true
    /\ handle_isMouseOver (startHandle (groups st' 1%nat)) = Some true
    /\ handle_isMouseOver (endHandle (groups st' 1%nat)) = Some false
    /\ emitted st' = [HandleMouseenter 1%nat (Some true); SegmentGroupMouseenter 1%nat].
Proof.
  eexists. split; [vm_compute; reflexivity|]. repeat split; reflexivity.
Qed.

(** The start handle of ["left"], which has no left neighbour, dragged from
    0.5 to 0.2: the candidate is committed as it is. *)
Example drag_start_without_left_neighbour :
  exists st',
    _renderSegmentGroup 1 0%nat (drag_start 0%nat 2 sampleLayer) = Some st'
    /\ startTime (segment_of st' 0%nat) == 2 # 10
    /\ emitted st' = [SegmentsDragged 0%nat (Some true)].
Proof.
  eexists. split; [vm_compute; reflexivity|]. split; reflexivity.
Qed.

(** ** Integer parts *)

Lemma Qfloor_unique (x : Q) (z : Z) :
  inject_Z z <= x -> x < inject_Z (z + 1) -> Qfloor x = z.
Proof.
  intros Hlo Hhi.
  pose proof (Qfloor_le x) as H1. pose proof (Qlt_floor x) as H2.
  assert (A : (z < Qfloor x + 1)%Z) by (rewrite Zlt_Qlt; lra).
  assert (B : (Qfloor x < z + 1)%Z) by (rewrite Zlt_Qlt; lra).
  lia.
Qed.

Lemma Qfloor_sub_Z (x : Q) (n : Z) : Qfloor (x - inject_Z n) = (Qfloor x - n)%Z.
Proof.
  apply Qfloor_unique.
  - unfold Z.sub. rewrite inject_Z_plus, inject_Z_opp.
    pose proof (Qfloor_le x). lra.
  - replace (Qfloor x - n + 1)%Z with ((Qfloor x + 1) + - n)%Z by lia.
    rewrite inject_Z_plus, inject_Z_opp.
    pose proof (Qlt_floor x). lra.
Qed.

Lemma Qceiling_bounds (x : Q) :
  x <= inject_Z (Qceiling x) /\ inject_Z (Qceiling x) < x + 1.
Proof.
  split; [apply Qle_ceiling|].
  pose proof (Qceiling_lt x) as H. unfold Z.sub in H.
  rewrite inject_Z_plus, inject_Z_opp in H. change (inject_Z 1) with 1 in H. lra.
Qed.

Lemma truncate_nonneg (x : Q) : 0 <= x -> Js.truncate x = Qfloor x.
Proof.
  intros H. unfold Js.truncate.
  replace (Qltb x 0) with false; [reflexivity|].
  symmetry. apply Qltb_false. exact H.
Qed.

Lemma Qeq_bool_inject_Z_0 (m : Z) : m <> 0%Z -> Qeq_bool (inject_Z m) 0 = false.
Proof. destruct m; [congruence|reflexivity|reflexivity]. Qed.

(** ** The rest of waveform.utils *)

Section UtilsFacts.
Import Js Utils.

Lemma toInt32_small (x : Q) (k : Z) :
  0 <= x -> Qfloor x = k -> (k < 2 ^ 31)%Z -> toInt32 (Fin x) = k.
Proof.
  intros Hx Hk Hb. unfold toInt32. rewrite truncate_nonneg by exact Hx.
  rewrite Hk.
  assert (0 <= k)%Z.
  { subst k. rewrite <- (Qfloor_Z 0). apply Qfloor_resp_le. exact Hx. }
  rewrite Z.mod_small by lia. lia.
Qed.

(** The magnitude of [roundUpToNearest] for an integer multiple [m >= 1]:
    [ceil(|v|)] counted up to the next multiple of [m]. *)
Lemma roundUp_magnitude (x : Q) (m : Z) :
  0 <= x -> (1 <= m)%Z -> x + inject_Z m <= inject_Z (2 ^ 31) ->
  exists k : Z,
    (0 <= k)%Z
    /\ x <= inject_Z (k * m) /\ inject_Z (k * m) < x + inject_Z m
    /\ toInt32 (div (sub (add (ceil (Fin x)) (ofZ m)) (Fin 1)) (ofZ m)) = k.
Proof.
  intros Hx Hm Hb.
  set (c := Qceiling x).
  destruct (Qceiling_bounds x) as [Hc1 Hc2]. fold c in Hc1, Hc2.
  assert (Hc0 : (0 <= c)%Z)
    by (rewrite Zle_Qle; change (inject_Z 0) with 0; lra).
  assert (Hcm : (c + m <= 2 ^ 31)%Z).
  { assert (inject_Z (c + m) < inject_Z (2 ^ 31 + 1)).
    { rewrite !inject_Z_plus. change (inject_Z 1) with 1. lra. }
    rewrite <- Zlt_Qlt in H. lia. }
  exists ((c + m - 1) / m)%Z.
  assert (Hk0 : (0 <= (c + m - 1) / m)%Z) by (apply Z.div_pos; lia).
  pose proof (Z.div_mod (c + m - 1) m ltac:(lia)) as Hdm.
  pose proof (Z.mod_pos_bound (c + m - 1) m ltac:(lia)) as Hmod.
  assert (Hlo : (c <= (c + m - 1) / m * m)%Z) by nia.
  assert (Hhi : ((c + m - 1) / m * m <= c + m - 1)%Z) by nia.
  split; [exact Hk0|]. split; [|split].
  - apply Qle_trans with (inject_Z c); [exact Hc1|]. rewrite <- Zle_Qle. exact Hlo.
  - apply Qle_lt_trans with (inject_Z (c + m - 1)); [rewrite <- Zle_Qle; exact Hhi|].
    unfold Z.sub. rewrite !inject_Z_plus, inject_Z_opp. change (inject_Z 1) with 1. lra.
  - cbn [ceil add sub neg ofZ div]. fold c.
    rewrite Qeq_bool_inject_Z_0 by lia.
    assert (Heq : (inject_Z c + inject_Z m + - (1)) / inject_Z m
                  == inject_Z (c + m - 1) / inject_Z m).
    { unfold Z.sub. rewrite !inject_Z_plus, inject_Z_opp. reflexivity. }
    apply toInt32_small.
    + rewrite Heq. apply Qle_shift_div_l.
      * change 0 with (inject_Z 0). rewrite <- Zlt_Qlt. lia.
      * rewrite Qmult_0_l. change 0 with (inject_Z 0). rewrite <- Zle_Qle. lia.
    + rewrite (Qfloor_comp _ _ Heq). symmetry. apply Zdiv_Qdiv.
    + assert ((c + m - 1) / m <= c + m - 1)%Z; [|lia].
      apply Z.div_le_upper_bound; nia.
Qed.

(** X1.  [roundUpToNearest(value, multiple)] for a whole multiple of at
    least 1 and a value whose magnitude stays below [2^31 - multiple]: the
    result is a multiple of [multiple], carries the sign of [value], and its
    magnitude is the least multiple that is not below the magnitude of
    [value].  Negative values are therefore rounded away from zero. *)
Theorem roundUpToNearest_least_multiple (v : Q) (m : Z) :
  (1 <= m)%Z -> Qabs v + inject_Z m <= inject_Z (2 ^ 31) ->
  exists (k : Z) (r : Q),
    roundUpToNearest (Fin v) (ofZ m) = Fin r
    /\ (0 <= k)%Z
    /\ r == (if Qltb v 0 then - inject_Z (k * m) else inject_Z (k * m))
    /\ Qabs v <= inject_Z (k * m)
    /\ inject_Z (k * m) < Qabs v + inject_Z m.
Proof.
  intros Hm Hb. unfold roundUpToNearest.
  cbn [strict_eq ofZ]. rewrite Qeq_bool_inject_Z_0 by lia. cbn [lt].
  destruct (Qltb v 0) eqn:Ev.
  - apply Qltb_true in Ev.
    assert (Ha : Qabs v == - v) by (apply Qabs_neg; lra).
    destruct (roundUp_magnitude (- v) m) as (k & Hk0 & Hlo & Hhi & Hk);
      [lra|exact Hm|lra|].
    cbn [neg]. rewrite Hk.
    exists k. eexists. split; [reflexivity|]. split; [exact Hk0|].
    split; [|split; lra].
    rewrite inject_Z_mult. ring.
  - apply Qltb_false in Ev.
    assert (Ha : Qabs v == v) by (apply Qabs_pos; exact Ev).
    destruct (roundUp_magnitude v m) as (k & Hk0 & Hlo & Hhi & Hk);
      [lra|exact Hm|lra|].
    rewrite Hk.
    exists k. eexists. split; [reflexivity|]. split; [exact Hk0|].
    split; [|split; lra].
    rewrite inject_Z_mult. ring.
Qed.

(** 5.5 to the nearest 3 upward. *)
Lemma roundUpToNearest_least_multiple_witness :
  (1 <= 3)%Z
  /\ Qabs (- (11 # 2)) + inject_Z 3 <= inject_Z (2 ^ 31)
  /\ exists (k : Z) (r : Q),
       roundUpToNearest (Fin (- (11 # 2))) (ofZ 3) = Fin r
       /\ r == - inject_Z (k * 3).
Proof.
  assert (H1 : (1 <= 3)%Z) by lia.
  assert (H2 : Qabs (- (11 # 2)) + inject_Z 3 <= inject_Z (2 ^ 31))
    by (vm_compute; discriminate).
  split; [exact H1|]. split; [exact H2|].
  destruct (roundUpToNearest_least_multiple (- (11 # 2)) 3 H1 H2)
    as (k & r & Hr & _ & Hs & _).
  exists k, r. split; [exact Hr|exact Hs].
Defined.

(** X2.  The bound of X1 is the 32-bit conversion of [| 0]: a whole value
    from [2^31] up to [2^32 - 1], rounded to the nearest 1, comes back
    lowered by [2^32], a negative number. *)
Theorem roundUpToNearest_wraps_at_int32 (n : Z) :
  (2 ^ 31 <= n < 2 ^ 32)%Z ->
  exists r : Q,
    roundUpToNearest (ofZ n) (Fin 1) = Fin r
    /\ r == inject_Z (n - 2 ^ 32)
    /\ r < 0.
Proof.
  intros Hn. unfold roundUpToNearest.
  change (strict_eq (Fin 1) (Fin 0)) with false. cbn [lt ofZ].
  replace (Qltb (inject_Z n) 0) with false.
  2: { symmetry. apply Qltb_false. change 0 with (inject_Z 0).
       rewrite <- Zle_Qle. lia. }
  cbn [ceil add sub neg div ofZ]. rewrite Qceiling_Z.
  change (Qeq_bool 1 0) with false. cbv iota.
  assert (Hx : (inject_Z n + 1 + - (1)) / 1 == inject_Z n) by field.
  assert (Hk : toInt32 (Fin ((inject_Z n + 1 + - (1)) / 1)) = (n - 2 ^ 32)%Z).
  { unfold toInt32. rewrite truncate_nonneg.
    - rewrite (Qfloor_comp _ _ Hx), Qfloor_Z.
      assert (E : ((n + 2 ^ 31) mod 2 ^ 32 = n + 2 ^ 31 - 2 ^ 32)%Z).
      { symmetry. apply (Z.mod_unique _ _ 1); lia. }
      rewrite E. lia.
    - rewrite Hx. change 0 with (inject_Z 0). rewrite <- Zle_Qle. lia. }
  rewrite Hk. eexists. split; [reflexivity|].
  assert (Hneg : inject_Z (n - 2 ^ 32) < 0).
  { change 0 with (inject_Z 0). rewrite <- Zlt_Qlt. lia. }
  split; [ring|]. ring_simplify. lra.
Qed.

(** The value [2^31] itself. *)
Lemma roundUpToNearest_wraps_at_int32_witness :
  (2 ^ 31 <= 2 ^ 31 < 2 ^ 32)%Z
  /\ exists r : Q, roundUpToNearest (ofZ (2 ^ 31)) (Fin 1) = Fin r /\ r < 0.
Proof.
  assert (H : (2 ^ 31 <= 2 ^ 31 < 2 ^ 32)%Z) by lia.
  split; [exact H|].
  destruct (roundUpToNearest_wraps_at_int32 (2 ^ 31) H) as (r & Hr & _ & Hn).
  exists r. split; [exact Hr|exact Hn].
Defined.

(** *** [isInAscendingOrder] *)

Lemma ge_Fin (x y : Q) : ge (Fin x) (Fin y) = false <-> x < y.
Proof.
  cbn. rewrite negb_false_iff. apply Qltb_true.
Qed.

Lemma ge_NaN_r (a : JsNum) : ge a NaN = false.
Proof. destruct a; reflexivity. Qed.

Lemma ascending_after_sorted (qs : list Q) :
  forall v, ascending_after (Fin v) (map Fin qs) = true
            <-> StronglySorted Qlt (v :: qs).
Proof.
  induction qs as [|a qs IH]; intros v; cbn [map ascending_after].
  - split; [intros _; repeat constructor|reflexivity].
  - destruct (ge (Fin v) (Fin a)) eqn:E.
    + split; [discriminate|]. intros H. exfalso.
      inversion H as [|? ? _ Hall]; subst. inversion Hall as [|? ? Hva _]; subst.
      apply ge_Fin in Hva. congruence.
    + apply ge_Fin in E. rewrite IH. split.
      * intros H. constructor; [exact H|]. constructor; [exact E|].
        inversion H as [|? ? _ Hall]; subst.
        eapply Forall_impl; [|exact Hall]. intros b Hb. cbv beta in *. lra.
      * intros H. inversion H; assumption.
Qed.

(** X3.  On finite numbers [isInAscendingOrder] is true exactly of the
    arrays whose every element is strictly below all the later ones; the
    empty array and the one-element arrays are among them, an array with a
    repeated value is not. *)
Theorem isInAscendingOrder_strict (qs : list Q) :
  isInAscendingOrder (map Fin qs) = true <-> StronglySorted Qlt qs.
Proof.
  destruct qs as [|v qs]; cbn [map isInAscendingOrder].
  - split; [intros _; constructor|reflexivity].
  - apply ascending_after_sorted.
Qed.

Lemma ascending_after_NaN (l : list JsNum) :
  ascending_after NaN l = isInAscendingOrder l.
Proof. destruct l; reflexivity. Qed.

Lemma ascending_after_split (l1 l2 : list JsNum) :
  forall v, ascending_after v (l1 ++ NaN :: l2)
            = ascending_after v l1 && isInAscendingOrder l2.
Proof.
  induction l1 as [|a l1 IH]; intros v; cbn [app ascending_after].
  - rewrite ge_NaN_r. apply ascending_after_NaN.
  - destruct (ge v a); [reflexivity|apply IH].
Qed.

(** X4.  A NaN in the array cuts the test in two: no comparison with it is
    ever true, so the array passes exactly when the elements before the NaN
    pass and the elements after it pass, however the two parts compare with
    each other ([[5, NaN, 1]] is reported ascending). *)
Theorem isInAscendingOrder_NaN_splits (l1 l2 : list JsNum) :
  isInAscendingOrder (l1 ++ NaN :: l2)
  = isInAscendingOrder l1 && isInAscendingOrder l2.
Proof.
  destruct l1 as [|v l1]; cbn [app isInAscendingOrder].
  - apply ascending_after_NaN.
  - apply ascending_after_split.
Qed.

(** *** [timesEqualInHundreths] *)




(** *** [extend] *)

Lemma prop_get_set {V : Type} (o : list (string * V)) (k key : string) (v : V) :
  prop_get (prop_set o k v) key
  = if String.eqb k key then Some v else prop_get o key.
Proof.
  induction o as [|[k0 v0] o IH]; cbn.
  - reflexivity.
  - destruct (String.eqb k0 k) eqn:E; cbn.
    + apply String.eqb_eq in E. subst k0.
      destruct (String.eqb k key); reflexivity.
    + destruct (String.eqb k0 key) eqn:E0.
      * apply String.eqb_eq in E0. subst k0. rewrite String.eqb_sym, E. reflexivity.
      * exact IH.
Qed.

Lemma extend_keys {V : Type} (from : list (string * V)) (key : string)
                  (ks : list string) :
  forall to,
    prop_get
      (fold_left
         (fun to key =>
            match prop_get from key with
            | Some v => prop_set to key v
            | None => to
            end) ks to) key
    = if existsb (String.eqb key) ks
      then match prop_get from key with
           | Some v => Some v
           | None => prop_get to key
           end
      else prop_get to key.
Proof.
  induction ks as [|k ks IH]; intros to; cbn [fold_left existsb].
  - reflexivity.
  - rewrite IH. destruct (String.eqb key k) eqn:E; cbn [orb].
    + apply String.eqb_eq in E. subst k.
      destruct (prop_get from key) as [v|] eqn:G.
      * rewrite prop_get_set, String.eqb_refl.
        destruct (existsb _ ks); reflexivity.
      * destruct (existsb _ ks); reflexivity.
    + destruct (prop_get from k) as [v|]; [|reflexivity].
      rewrite prop_get_set, String.eqb_sym, E. reflexivity.
Qed.

Lemma prop_get_keys {V : Type} (o : list (string * V)) (key : string) :
  existsb (String.eqb key) (map fst o) = false -> prop_get o key = None.
Proof.
  induction o as [|[k v] o IH]; cbn; [reflexivity|].
  rewrite String.eqb_sym. destruct (String.eqb k key); cbn; [discriminate|exact IH].
Qed.

(** After [extend(to, from)] every key reads the value [from] has for
    it when [from] has the key, and the value it had in [to] otherwise: the
    properties of [from] win, nothing of [to] is lost besides. *)
Theorem extend_reads {V : Type} (to from : list (string * V)) (key : string) :
  prop_get (extend to from) key
  = match prop_get from key with
    | Some v => Some v
    | None => prop_get to key
    end.
Proof.
  unfold extend. rewrite extend_keys.
  destruct (existsb (String.eqb key) (map fst from)) eqn:E; [reflexivity|].
  rewrite (prop_get_keys from key E). reflexivity.
Qed.

(** *** [formatTime] *)


Lemma append_assoc (a b c : string) :
  String.append (String.append a b) c = String.append a (String.append b c).
Proof. induction a as [|x a IH]; cbn; [reflexivity|]. rewrite IH. reflexivity. Qed.


Lemma concat_two (a b : string) :
  String.concat ":" [a; b] = String.append a (String.append ":" b).
Proof. reflexivity. Qed.

Lemma concat_three (a b c : string) :
  String.concat ":" [a; b; c]
  = String.append a (String.append ":" (String.concat ":" [b; c])).
Proof. reflexivity. Qed.



(** X7.  From an hour on, [formatTime] writes the whole hours first, padded
    to two digits below ten, then a colon, then what it writes for the time
    left within the hour. *)
Theorem formatTime_hours (t : Q) (dropHundredths : bool) :
  3600 <= t ->
  formatTime t dropHundredths
  = String.append (zeroPad (Qfloor t / 3600))
      (String.append ":"
         (formatTime (t - inject_Z (3600 * (Qfloor t / 3600))) dropHundredths)).
Proof.
  intros H.
  set (h := (Qfloor t / 3600)%Z).
  set (t' := t - inject_Z (3600 * h)).
  assert (Hs : (3600 <= Qfloor t)%Z).
  { rewrite <- (Qfloor_Z 3600). apply Qfloor_resp_le. exact H. }
  assert (Hh1 : (1 <= h)%Z) by (apply Z.div_le_lower_bound; lia).
  pose proof (Z.div_mod (Qfloor t) 3600 ltac:(lia)) as Hdm. fold h in Hdm.
  pose proof (Z.mod_pos_bound (Qfloor t) 3600 ltac:(lia)) as Hmod.
  assert (Hf' : Qfloor t' = (Qfloor t - 3600 * h)%Z) by apply Qfloor_sub_Z.
  assert (Hs' : (0 <= Qfloor t' < 3600)%Z) by lia.
  assert (H0' : 0 <= t').
  { unfold t'. pose proof (Qfloor_le t) as L.
    assert (inject_Z (3600 * h) <= inject_Z (Qfloor t)) by (rewrite <- Zle_Qle; lia).
    lra. }
  assert (Hm : (Qfloor t / 60 = Qfloor t' / 60 + 60 * h)%Z).
  { rewrite Hf'. replace (Qfloor t) with ((Qfloor t - 3600 * h) + (60 * h) * 60)%Z at 1 by lia.
    rewrite Z.div_add by lia. reflexivity. }
  assert (Hm' : (0 <= Qfloor t' / 60 < 60)%Z).
  { split; [apply Z.div_pos; lia|apply Z.div_lt_upper_bound; lia]. }
  assert (Hhours : (Qfloor t / 60 / 60 = h)%Z).
  { rewrite Hm. rewrite Z.mul_comm, Z.div_add by lia.
    rewrite (Z.div_small (Qfloor t' / 60) 60) by exact Hm'. lia. }
  assert (Hhours' : (Qfloor t' / 60 / 60 = 0)%Z) by (apply Z.div_small; exact Hm').
  assert (Hfrac : Qfloor ((t - inject_Z (Qfloor t)) * 100)
                  = Qfloor ((t' - inject_Z (Qfloor t')) * 100)).
  { apply Qfloor_comp. rewrite Hf'. unfold t'.
    unfold Z.sub. rewrite inject_Z_plus, inject_Z_opp. ring. }
  unfold formatTime.
  rewrite (truncate_nonneg t) by lra. rewrite (truncate_nonneg t') by exact H0'.
  rewrite Hhours, Hhours'.
  replace (h >? 0)%Z with true by (symmetry; apply Z.gtb_lt; lia).
  change (0 >? 0)%Z with false. cbn [app map].
  rewrite concat_three, !concat_two.
  assert (Hrm : Z.rem (Qfloor t / 60) 60 = Z.rem (Qfloor t' / 60) 60).
  { rewrite !Z.rem_mod_nonneg by lia. rewrite Hm.
    rewrite Z.mul_comm, Z.mod_add by lia. reflexivity. }
  assert (Hrs : Z.rem (Qfloor t) 60 = Z.rem (Qfloor t') 60).
  { rewrite !Z.rem_mod_nonneg by lia. rewrite Hf'.
    replace (Qfloor t - 3600 * h)%Z with (Qfloor t + (- 60 * h) * 60)%Z by lia.
    rewrite Z.mod_add by lia. reflexivity. }
  rewrite Hrm, Hrs, Hfrac.
  destruct dropHundredths; [reflexivity|].
  rewrite !append_assoc. reflexivity.
Qed.

(** 3725.25 s is written 01:02:05.25. *)
Lemma formatTime_hours_witness :
  3600 <= (14901 # 4)
  /\ formatTime (14901 # 4) false = "01:02:05.25".
Proof.
  assert (H : 3600 <= (14901 # 4)) by (vm_compute; discriminate).
  split; [exact H|].
  rewrite (formatTime_hours (14901 # 4) false H). reflexivity.
Defined.


End UtilsFacts.

(** ** The waveform shape *)

Section WaveformShapeFacts.
Import Js.

Lemma scaleY_finite (a h s : Q) :
  WaveformShape.scaleY (Fin a) (Fin h) (Fin s)
  = Fin (h + - (let d := h + - ((a * s + 128) * h / 256) in
                if Qltb d 0 then 0 else if Qltb h d then h else d)).
Proof.
  unfold WaveformShape.scaleY, Utils.clamp, gt, sub. cbn [mul add div].
  change (Qeq_bool 256 0) with false. cbn [neg add lt].
  destruct (Qltb _ 0); [reflexivity|]. destruct (Qltb h _); reflexivity.
Qed.

Lemma scaleY_bounds (a h s : Q) :
  0 <= h ->
  exists y : Q,
    WaveformShape.scaleY (Fin a) (Fin h) (Fin s) = Fin y /\ 0 <= y <= h.
Proof.
  intros Hh. rewrite scaleY_finite. eexists. split; [reflexivity|].
  cbv zeta.
  destruct (Qltb (h + - ((a * s + 128) * h / 256)) 0) eqn:E1;
    [apply Qltb_true in E1; lra|apply Qltb_false in E1].
  destruct (Qltb h (h + - ((a * s + 128) * h / 256))) eqn:E2;
    [apply Qltb_true in E2|apply Qltb_false in E2]; lra.
Qed.

(** X8.  For a drawing height that is not negative [scaleY] lands in
    [[0, height]] whatever the amplitude and the scale, and when the scaled
    amplitude is within [[-128, 128]] nothing is cut off: the result is
    [(amplitude * scale + 128) * height / 256]. *)
Theorem scaleY_within_height (a h s : Q) :
  0 <= h ->
  exists y : Q,
    WaveformShape.scaleY (Fin a) (Fin h) (Fin s) = Fin y
    /\ 0 <= y <= h
    /\ (-128 <= a * s <= 128 -> y == (a * s + 128) * h / 256).
Proof.
  intros Hh. rewrite scaleY_finite. eexists. split; [reflexivity|].
  cbv zeta.
  set (sa := (a * s + 128) * h / 256).
  destruct (Qltb (h + - sa) 0) eqn:E1;
    [apply Qltb_true in E1|apply Qltb_false in E1;
     destruct (Qltb h (h + - sa)) eqn:E2;
     [apply Qltb_true in E2|apply Qltb_false in E2]].
  - split; [lra|]. intros [Hlo Hhi]. exfalso.
    assert (sa <= h).
    { unfold sa. apply Qle_shift_div_r; [reflexivity|].
      rewrite (Qmult_comm h 256). apply Qmult_le_compat_r; lra. }
    lra.
  - split; [lra|]. intros [Hlo Hhi]. exfalso.
    assert (0 <= sa).
    { unfold sa. apply Qle_shift_div_l; [reflexivity|]. rewrite Qmult_0_l.
      apply Qmult_le_0_compat; lra. }
    lra.
  - split; [lra|]. intros _. ring.
Qed.

(** A sample of 64 at scale 1 on a height of 200 pixels. *)
Lemma scaleY_within_height_witness :
  0 <= 200
  /\ exists y : Q,
       WaveformShape.scaleY (Fin 64) (Fin 200) (Fin 1) = Fin y /\ 0 <= y <= 200.
Proof.
  assert (H : 0 <= 200) by (vm_compute; discriminate).
  split; [exact H|].
  destruct (scaleY_within_height 64 200 1 H) as (y & Hy & Hb & _).
  exists y. split; [exact Hy|exact Hb].
Defined.

(** X9.  [scaleY] never reverses two amplitudes: with a height and a scale
    that are not negative, a larger amplitude never gets a smaller
    coordinate than a smaller one (the two may get the same, when both are
    cut off). *)
Theorem scaleY_monotone (a1 a2 h s : Q) :
  0 <= h -> 0 <= s -> a1 <= a2 ->
  exists y1 y2 : Q,
    WaveformShape.scaleY (Fin a1) (Fin h) (Fin s) = Fin y1
    /\ WaveformShape.scaleY (Fin a2) (Fin h) (Fin s) = Fin y2
    /\ y1 <= y2.
Proof.
  intros Hh Hs Ha. rewrite !scaleY_finite. do 2 eexists.
  split; [reflexivity|]. split; [reflexivity|]. cbv zeta.
  set (sa1 := (a1 * s + 128) * h / 256).
  set (sa2 := (a2 * s + 128) * h / 256).
  assert (Hsa : sa1 <= sa2).
  { unfold sa1, sa2. apply Qmult_le_compat_r; [|apply Qlt_le_weak; reflexivity].
    apply Qmult_le_compat_r; [|exact Hh].
    assert (a1 * s <= a2 * s) by (apply Qmult_le_compat_r; assumption). lra. }
  destruct (Qltb (h + - sa1) 0) eqn:E1;
    [apply Qltb_true in E1|apply Qltb_false in E1];
    (destruct (Qltb h (h + - sa1)) eqn:E2;
     [apply Qltb_true in E2|apply Qltb_false in E2]);
    (destruct (Qltb (h + - sa2) 0) eqn:E3;
     [apply Qltb_true in E3|apply Qltb_false in E3]);
    (destruct (Qltb h (h + - sa2)) eqn:E4;
     [apply Qltb_true in E4|apply Qltb_false in E4]);
    lra.
Qed.

(** Samples -20 and 30 at scale 2 on a height of 100 pixels. *)
Lemma scaleY_monotone_witness :
  0 <= 100 /\ 0 <= 2 /\ - (20) <= 30
  /\ exists y1 y2 : Q,
       WaveformShape.scaleY (Fin (- (20))) (Fin 100) (Fin 2) = Fin y1
       /\ WaveformShape.scaleY (Fin 30) (Fin 100) (Fin 2) = Fin y2
       /\ y1 <= y2.
Proof.
  assert (H1 : 0 <= 100) by (vm_compute; discriminate).
  assert (H2 : 0 <= 2) by (vm_compute; discriminate).
  assert (H3 : - (20) <= 30) by (vm_compute; discriminate).
  split; [exact H1|]. split; [exact H2|]. split; [exact H3|].
  exact (scaleY_monotone (- (20)) 30 100 2 H1 H2 H3).
Defined.

Lemma upward_In (lo hi x : Z) :
  In x (WaveformShape.upward lo hi) <-> (lo <= x < hi)%Z.
Proof.
  unfold WaveformShape.upward. rewrite in_map_iff. split.
  - intros (k & <- & Hk). apply in_seq in Hk. lia.
  - intros H. exists (Z.to_nat (x - lo)). split; [lia|]. apply in_seq. lia.
Qed.

Lemma downward_upward_n (n : nat) :
  forall lo,
    map (fun k => (lo + Z.of_nat n - 1 - Z.of_nat k)%Z) (seq 0 n)
    = rev (map (fun k => (lo + Z.of_nat k)%Z) (seq 0 n)).
Proof.
  induction n as [|n IH]; intros lo; [reflexivity|].
  rewrite seq_S at 1. rewrite map_app. cbn [map Nat.add].
  change (seq 0 (S n)) with (0%nat :: seq 1 n).
  rewrite <- seq_shift. cbn [map rev]. rewrite map_map.
  specialize (IH (lo + 1)%Z).
  rewrite (map_ext (fun x => (lo + Z.of_nat (S x))%Z)
                   (fun k => (lo + 1 + Z.of_nat k)%Z)) by (intros; lia).
  rewrite <- IH. f_equal.
  - apply map_ext. intros k. lia.
  - f_equal. lia.
Qed.

Lemma downward_rev (lo hi : Z) :
  WaveformShape.downward lo hi = rev (WaveformShape.upward lo hi).
Proof.
  unfold WaveformShape.downward, WaveformShape.upward.
  destruct (Z_le_gt_dec hi lo) as [H|H].
  - replace (Z.to_nat (hi - lo)) with 0%nat by lia. reflexivity.
  - rewrite <- downward_upward_n. apply map_ext_in. intros k Hk.
    apply in_seq in Hk. lia.
Qed.

Lemma drawn_range_bounds (wd : WaveformShape.WaveformData) (fo sp ep w : Z) :
  (fo <= fst (WaveformShape.drawn_range wd fo sp ep w))%Z
  /\ (snd (WaveformShape.drawn_range wd fo sp ep w) <= fo + w)%Z
  /\ (snd (WaveformShape.drawn_range wd fo sp ep w)
      <= WaveformShape.adapter_length wd)%Z.
Proof.
  unfold WaveformShape.drawn_range. cbn [fst snd].
  destruct (sp <? fo)%Z eqn:E1; destruct (ep >? fo + w)%Z eqn:E2;
    destruct (_ >? WaveformShape.adapter_length wd)%Z eqn:E3; lia.
Qed.

(** X10.  With a frame offset and a height that are not negative,
    [_drawWaveform] reads the waveform data only at columns that exist in
    it and lie in the frame, and every point it hands to the context is on
    the canvas: half a pixel inside the width, and between half a pixel and
    the height plus half a pixel down. *)
Theorem drawWaveform_stays_inside (s h : Q) (wd : WaveformShape.WaveformData)
                                  (fo sp ep w : Z) :
  (0 <= fo)%Z -> 0 <= h ->
  (forall x,
      In x (WaveformShape.upward
              (fst (WaveformShape.drawn_range wd fo sp ep w))
              (snd (WaveformShape.drawn_range wd fo sp ep w))) ->
      (0 <= x < WaveformShape.adapter_length wd)%Z /\ (fo <= x < fo + w)%Z)
  /\ (forall p,
         In p (WaveformShape._drawWaveform (Fin s) wd fo sp ep w (Fin h)) ->
         (1 # 2) <= fst p <= inject_Z w - (1 # 2)
         /\ exists y, snd p = Fin y /\ (1 # 2) <= y <= h + (1 # 2)).
Proof.
  intros Hfo Hh.
  pose proof (drawn_range_bounds wd fo sp ep w) as (B1 & B2 & B3).
  assert (Hcol : forall x,
             In x (WaveformShape.upward
                     (fst (WaveformShape.drawn_range wd fo sp ep w))
                     (snd (WaveformShape.drawn_range wd fo sp ep w))) ->
             (0 <= x < WaveformShape.adapter_length wd)%Z /\ (fo <= x < fo + w)%Z).
  { intros x Hx. apply upward_In in Hx. lia. }
  split; [exact Hcol|].
  intros p Hp. unfold WaveformShape._drawWaveform in Hp.
  destruct (WaveformShape.drawn_range wd fo sp ep w) as [lo hi] eqn:Er.
  cbn [fst snd] in *. rewrite downward_rev in Hp.
  assert (Hpt : exists x val,
             In x (WaveformShape.upward lo hi)
             /\ p = WaveformShape.point (Fin s) fo (Fin h) x val).
  { apply in_app_or in Hp. destruct Hp as [Hp|Hp]; apply in_map_iff in Hp;
      destruct Hp as (x & <- & Hx); [|apply in_rev in Hx]; eauto. }
  destruct Hpt as (x & val & Hx & ->). destruct (Hcol x Hx) as [_ Hin].
  unfold WaveformShape.point. cbn [fst snd]. split.
  - assert (0 <= inject_Z (x - fo)).
    { change 0 with (inject_Z 0). rewrite <- Zle_Qle. lia. }
    assert (inject_Z (x - fo) <= inject_Z w - 1).
    { change 1 with (inject_Z 1). unfold Qminus. rewrite <- inject_Z_opp, <- inject_Z_plus.
      rewrite <- Zle_Qle. lia. }
    split; lra.
  - destruct (scaleY_bounds val h s Hh) as (y & -> & Hy).
    cbn [add]. eexists. split; [reflexivity|]. lra.
Qed.

(** A frame of 4 columns at offset 2 over 5 columns of data. *)
Lemma drawWaveform_stays_inside_witness :
  (0 <= 2)%Z /\ 0 <= 100
  /\ forall p,
       In p (WaveformShape._drawWaveform (Fin 1)
               (WaveformShape.mkWaveformData 5 (fun _ => - (10)) (fun _ => 10))
               2 2 6 4 (Fin 100)) ->
       (1 # 2) <= fst p <= inject_Z 4 - (1 # 2).
Proof.
  assert (H1 : (0 <= 2)%Z) by lia.
  assert (H2 : 0 <= 100) by (vm_compute; discriminate).
  split; [exact H1|]. split; [exact H2|].
  intros p Hp.
  exact (proj1 (proj2 (drawWaveform_stays_inside 1 100
                         (WaveformShape.mkWaveformData 5 (fun _ => - (10)) (fun _ => 10))
                         2 2 6 4 H1 H2) p Hp)).
Defined.

(** X11.  The path of [_drawWaveform] goes out over the drawn columns from
    left to right and comes back over the same columns from right to left,
    so that [closePath] closes an outline; its horizontal coordinates read
    the same in both directions, there are two points to a column, and no
    point at all when the range to draw ends at or before its start. *)
Theorem drawWaveform_outline (scale height : JsNum)
                             (wd : WaveformShape.WaveformData)
                             (fo sp ep w : Z) :
  let lo := fst (WaveformShape.drawn_range wd fo sp ep w) in
  let hi := snd (WaveformShape.drawn_range wd fo sp ep w) in
  let xs := map (fun x => inject_Z (x - fo) + (1 # 2))
                (WaveformShape.upward lo hi) in
  map fst (WaveformShape._drawWaveform scale wd fo sp ep w height)
  = xs ++ rev xs
  /\ List.length (WaveformShape._drawWaveform scale wd fo sp ep w height)
     = (2 * Z.to_nat (hi - lo))%nat
  /\ ((hi <= lo)%Z ->
      WaveformShape._drawWaveform scale wd fo sp ep w height = []).
Proof.
  cbv zeta. unfold WaveformShape._drawWaveform.
  destruct (WaveformShape.drawn_range wd fo sp ep w) as [lo hi].
  cbn [fst snd]. rewrite downward_rev. split; [|split].
  - rewrite map_app, !map_map. cbn [WaveformShape.point fst].
    rewrite map_rev. reflexivity.
  - rewrite length_app, !length_map, length_rev.
    unfold WaveformShape.upward. rewrite length_map, length_seq. lia.
  - intros H. unfold WaveformShape.upward.
    replace (Z.to_nat (hi - lo)) with 0%nat by lia. reflexivity.
Qed.

End WaveformShapeFacts.

(** ** The listeners of the zoom view *)

Section ZoomViewListeners.
Import Js ZoomView.

Lemma clamp_ofZ_value (z lo hi : Z) :
  Utils.clamp (ofZ z) (ofZ lo) (ofZ hi)
  = ofZ (if (z <? lo)%Z then lo else if (hi <? z)%Z then hi else z).
Proof.
  unfold Utils.clamp, gt. rewrite !lt_ofZ.
  destruct (z <? lo)%Z; [reflexivity|]. destruct (hi <? z)%Z; reflexivity.
Qed.

Lemma round_whole (x : Q) (z : Z) : x == inject_Z z -> round (Fin x) = ofZ z.
Proof.
  intros H. cbn [round]. f_equal. apply Qfloor_unique.
  - lra.
  - rewrite inject_Z_plus. change (inject_Z 1) with 1. lra.
Qed.

Lemma round_ofZ (z : Z) : round (ofZ z) = ofZ z.
Proof. apply round_whole. reflexivity. Qed.

Lemma Qeq_bool_nonzero (x : Q) : ~ x == 0 -> Qeq_bool x 0 = false.
Proof.
  intros H. destruct (Qeq_bool x 0) eqn:E; [|reflexivity].
  apply Qeq_bool_eq in E. contradiction.
Qed.

Lemma timeToPixels_finite (v : View) (t : Q) :
  ~ Mapper.scale (adapter v) == 0 ->
  timeToPixels v (Fin t) = ofZ (Mapper.timeToPixels (adapter v) t).
Proof.
  intros H. unfold timeToPixels. cbn [mul div].
  rewrite Qeq_bool_nonzero by exact H. reflexivity.
Qed.



(** A whole offset goes through [_updateWaveform] as [Z] arithmetic. *)
Lemma updateWaveform_whole (v : View) (z : Z) :
  (0 <= width v)%Z -> (0 <= pixelLength v)%Z ->
  frameOffset (fst (_updateWaveform v (ofZ z)))
  = ofZ (if (pixelLength v <? width v)%Z then 0
         else if (z <? 0)%Z then 0
         else if (pixelLength v - width v <? z)%Z then pixelLength v - width v
         else z).
Proof.
  intros Hw Hl. unfold _updateWaveform.
  destruct (pixelLength v <? width v)%Z eqn:E; cbn [fst frameOffset].
  - apply Z.ltb_lt in E. change (Fin 0) with (ofZ 0).
    rewrite round_ofZ, clamp_ofZ_value.
    replace (width v <? 0)%Z with false by (symmetry; apply Z.ltb_ge; lia).
    reflexivity.
  - change (Fin 0) with (ofZ 0). rewrite round_ofZ, clamp_ofZ_value. reflexivity.
Qed.

Lemma call_updateWaveform_view (offset : JsNum) (s : Running) :
  view (call_updateWaveform offset s) = fst (_updateWaveform (view s) offset).
Proof.
  unfold call_updateWaveform. destruct (_updateWaveform _ _). reflexivity.
Qed.

Lemma call_updateWaveform_rest (offset : JsNum) (s : Running) :
  _isCmdModifier (call_updateWaveform offset s) = _isCmdModifier s
  /\ _isMouseOver (call_updateWaveform offset s) = _isMouseOver s
  /\ keyupListeners (call_updateWaveform offset s) = keyupListeners s
  /\ nudgeIncrement (call_updateWaveform offset s) = nudgeIncrement s
  /\ outcomes (call_updateWaveform offset s)
     = snd (_updateWaveform (view s) offset) :: outcomes s.
Proof.
  unfold call_updateWaveform. destruct (_updateWaveform _ _). repeat split.
Qed.






Lemma Math_max_Fin (x y : Q) :
  Math_max (Fin x) (Fin y) = Fin (if Qltb x y then y else x).
Proof. cbn. destruct (Qltb x y); reflexivity. Qed.

Lemma Math_min_Fin (x y : Q) :
  Math_min (Fin x) (Fin y) = Fin (if Qltb y x then y else x).
Proof. cbn. destruct (Qltb y x); reflexivity. Qed.











(** The horizontal or, turned round, the vertical wheel delta, whichever is
    larger in magnitude. *)
Lemma wheel_diff (dx dy : Q) :
  (if ge (abs (Fin dx)) (abs (Fin dy)) then Fin dx else mul (Fin dy) (Fin (-1)))
  = Fin (if Qle_bool (Qabs dy) (Qabs dx) then dx else dy * -1).
Proof.
  cbn. unfold Qltb. rewrite negb_involutive.
  destruct (Qle_bool (Qabs dy) (Qabs dx)); reflexivity.
Qed.

(** X13.  With the meta or control key held, a wheel event never moves the
    frame and never makes [setAmplitudeScale] throw: the amplitude scale
    becomes the value of [[0.5, 2.5]] nearest to the old scale plus a
    fiftieth of the wheel delta. *)
Theorem wheel_scales_amplitude (dx dy a : Q) (s : Running) :
  _isCmdModifier s = true -> amplitudeScale (view s) = Fin a ->
  let diff := if Qle_bool (Qabs dy) (Qabs dx) then dx else dy * -1 in
  exists a' : Q,
    amplitudeScale (view (wheel (Fin dx) (Fin dy) s)) = Fin a'
    /\ (1 # 2) <= a' <= (5 # 2)
    /\ ((1 # 2) <= a + diff / 50 <= (5 # 2) -> a' == a + diff / 50)
    /\ (a + diff / 50 < (1 # 2) -> a' == (1 # 2))
    /\ ((5 # 2) < a + diff / 50 -> a' == (5 # 2))
    /\ frameOffset (view (wheel (Fin dx) (Fin dy) s)) = frameOffset (view s)
    /\ outcomes (wheel (Fin dx) (Fin dy) s) = Done :: outcomes s.
Proof.
  intros Hm Ha diff. unfold wheel. rewrite Hm, wheel_diff. fold diff.
  rewrite Ha. cbn [div add]. change (Qeq_bool 50 0) with false. cbv iota.
  rewrite Math_max_Fin, Math_min_Fin.
  unfold call_setAmplitudeScale, setAmplitudeScale. cbn.
  eexists. split; [reflexivity|].
  destruct (Qltb (1 # 2) (a + diff / 50)) eqn:E1;
    [apply Qltb_true in E1|apply Qltb_false in E1];
    (destruct (Qltb _ (5 # 2)) eqn:E2;
     [apply Qltb_true in E2|apply Qltb_false in E2]);
    repeat split; intros; try lra; try reflexivity.
Qed.

(** The control key held at scale 1, the wheel turned up by 25. *)
Lemma wheel_scales_amplitude_witness :
  _isCmdModifier
    (keydown false true (create (Mapper.mkAdapter 44100 512) 1000 600 (Fin 1)))
  = true
  /\ exists a' : Q,
       amplitudeScale
         (view (wheel (Fin 0) (Fin (-25))
                  (keydown false true
                     (create (Mapper.mkAdapter 44100 512) 1000 600 (Fin 1)))))
       = Fin a'
       /\ (1 # 2) <= a' <= (5 # 2).
Proof.
  split; [reflexivity|].
  destruct (wheel_scales_amplitude 0 (-25) 1
              (keydown false true
                 (create (Mapper.mkAdapter 44100 512) 1000 600 (Fin 1)))
              eq_refl eq_refl) as (a' & H1 & H2 & _).
  exists a'. split; [exact H1|exact H2].
Defined.

Lemma strict_eq_ofZ (a b : Z) : strict_eq (ofZ a) (ofZ b) = (a =? b)%Z.
Proof.
  cbn [strict_eq ofZ]. destruct (a =? b)%Z eqn:E.
  - apply Z.eqb_eq in E. subst. apply Qeq_bool_refl.
  - apply Z.eqb_neq in E. destruct (Qeq_bool _ _) eqn:Q; [|reflexivity].
    apply Qeq_bool_eq in Q. exfalso. apply E.
    assert (a <= b)%Z by (rewrite Zle_Qle; lra).
    assert (b <= a)%Z by (rewrite Zle_Qle; lra). lia.
Qed.

Lemma round_offset_plus (z : Z) (d : Q) :
  round (add (ofZ z) (Fin d)) = ofZ (z + Qfloor (d + (1 # 2))).
Proof.
  cbn [add ofZ round]. unfold ofZ. f_equal. f_equal.
  replace (z + Qfloor (d + (1 # 2)))%Z with (Qfloor (d + (1 # 2)) - - z)%Z by lia.
  rewrite <- (Qfloor_sub_Z (d + (1 # 2)) (- z)).
  apply Qfloor_comp. rewrite inject_Z_opp. ring.
Qed.

(** X14.  Without the modifier key, on a waveform at least as long as the
    view, the wheel moves the frame to the old offset plus the rounded
    delta, held within [[0, pixelLength - width]]; when that is the offset
    the view already has, nothing is emitted, nothing is redrawn and the
    view is left exactly as it was. *)
Theorem wheel_scrolls (dx dy : Q) (z : Z) (s : Running) :
  _isCmdModifier s = false -> frameOffset (view s) = ofZ z ->
  (0 <= width (view s) <= pixelLength (view s))%Z ->
  let diff := if Qle_bool (Qabs dy) (Qabs dx) then dx else dy * -1 in
  let moved := (z + Qfloor (diff + (1 # 2)))%Z in
  let target :=
    if (moved <? 0)%Z then 0%Z
    else if (pixelLength (view s) - width (view s) <? moved)%Z
         then (pixelLength (view s) - width (view s))%Z
         else moved in
  (target = z -> wheel (Fin dx) (Fin dy) s = s)
  /\ (target <> z ->
      frameOffset (view (wheel (Fin dx) (Fin dy) s)) = ofZ target
      /\ exists a b,
           outcomes (wheel (Fin dx) (Fin dy) s) = Displaying a b :: outcomes s).
Proof.
  intros Hm Hz Hw diff moved target. unfold wheel.
  rewrite Hm, wheel_diff. fold diff. rewrite Hz, round_offset_plus. fold moved.
  change (Fin 0) with (ofZ 0). rewrite clamp_ofZ_value. fold target.
  rewrite strict_eq_ofZ. split.
  - intros ->. rewrite Z.eqb_refl. reflexivity.
  - intros Hne. replace (target =? z)%Z with false
      by (symmetry; apply Z.eqb_neq; exact Hne).
    cbn [negb]. rewrite call_updateWaveform_view.
    destruct (call_updateWaveform_rest (ofZ target) s) as (_ & _ & _ & _ & ->).
    split.
    + rewrite updateWaveform_whole by lia.
      replace (pixelLength (view s) <? width (view s))%Z with false
        by (symmetry; apply Z.ltb_ge; lia).
      f_equal.
      assert (Ht : (0 <= target <= pixelLength (view s) - width (view s))%Z).
      { subst target. destruct (moved <? 0)%Z eqn:E1; [lia|].
        destruct (_ <? moved)%Z eqn:E2; lia. }
      replace (target <? 0)%Z with false by (symmetry; apply Z.ltb_ge; lia).
      replace (pixelLength (view s) - width (view s) <? target)%Z with false
        by (symmetry; apply Z.ltb_ge; lia).
      reflexivity.
    + destruct (updateWaveform_never_throws (view s) (ofZ target)) as (a & b & ->).
      eauto.
Qed.

(** The wheel turned right by 30 at offset 0, the waveform 1000 pixels long
    in a view of 600. *)
Lemma wheel_scrolls_witness :
  _isCmdModifier (create (Mapper.mkAdapter 44100 512) 1000 600 (Fin 1)) = false
  /\ (0 <= 600 <= 1000)%Z
  /\ frameOffset
       (view (wheel (Fin 30) (Fin 0)
                (create (Mapper.mkAdapter 44100 512) 1000 600 (Fin 1))))
     = ofZ 30.
Proof.
  split; [reflexivity|]. split; [lia|].
  refine (proj1 (proj2 (wheel_scrolls 30 0 0
                          (create (Mapper.mkAdapter 44100 512) 1000 600 (Fin 1))
                          eq_refl eq_refl _) _)).
  - cbn. lia.
  - vm_compute. discriminate.
Defined.

(** X15.  On a waveform shorter than the view the frame cannot move, yet
    the wheel listener holds the new offset against [pixelLength - width],
    which is negative: every wheel event whose rounded delta is not
    negative announces that negative offset, the view is laid out again at
    offset 0 and the same range is displayed once more; an event whose
    rounded delta is negative leaves the view alone. *)
Theorem wheel_on_short_waveform (dx dy : Q) (s : Running) :
  _isCmdModifier s = false -> frameOffset (view s) = ofZ 0 ->
  (0 <= pixelLength (view s) < width (view s))%Z ->
  let diff := if Qle_bool (Qabs dy) (Qabs dx) then dx else dy * -1 in
  (- (1 # 2) <= diff ->
   view (wheel (Fin dx) (Fin dy) s) = view s
   /\ exists a b,
        outcomes (wheel (Fin dx) (Fin dy) s) = Displaying a b :: outcomes s)
  /\ (diff < - (1 # 2) -> wheel (Fin dx) (Fin dy) s = s).
Proof.
  intros Hm Hz Hw diff. unfold wheel.
  rewrite Hm, wheel_diff. fold diff. rewrite Hz, round_offset_plus.
  change (Fin 0) with (ofZ 0). rewrite clamp_ofZ_value, strict_eq_ofZ.
  rewrite Z.add_0_l. split.
  - intros Hd.
    assert (H0 : (0 <= Qfloor (diff + (1 # 2)))%Z).
    { rewrite <- (Qfloor_Z 0). apply Qfloor_resp_le. change (inject_Z 0) with 0. lra. }
    replace (Qfloor (diff + (1 # 2)) <? 0)%Z with false
      by (symmetry; apply Z.ltb_ge; exact H0).
    replace (pixelLength (view s) - width (view s) <? Qfloor (diff + (1 # 2)))%Z
      with true by (symmetry; apply Z.ltb_lt; lia).
    replace (pixelLength (view s) - width (view s) =? 0)%Z with false
      by (symmetry; apply Z.eqb_neq; lia).
    cbn [negb]. rewrite call_updateWaveform_view.
    destruct (call_updateWaveform_rest
                (ofZ (pixelLength (view s) - width (view s))) s)
      as (_ & _ & _ & _ & ->).
    split.
    + pose proof (updateWaveform_whole (view s)
                    (pixelLength (view s) - width (view s))) as Hu.
      replace (pixelLength (view s) <? width (view s))%Z with true in Hu
        by (symmetry; apply Z.ltb_lt; lia).
      specialize (Hu ltac:(lia) ltac:(lia)).
      destruct (view s) as [ad pl wi fo am] eqn:Ev. cbn in *.
      unfold _updateWaveform in *. cbn in *.
      replace (pl <? wi)%Z with true in * by (symmetry; apply Z.ltb_lt; lia).
      cbn in *. rewrite Hu. congruence.
    + destruct (updateWaveform_never_throws (view s)
                  (ofZ (pixelLength (view s) - width (view s)))) as (a & b & ->).
      eauto.
  - intros Hd.
    assert (H0 : (Qfloor (diff + (1 # 2)) < 0)%Z).
    { rewrite Zlt_Qlt. eapply Qle_lt_trans; [apply Qfloor_le|].
      change (inject_Z 0) with 0. lra. }
    replace (Qfloor (diff + (1 # 2)) <? 0)%Z with true
      by (symmetry; apply Z.ltb_lt; exact H0).
    rewrite Z.eqb_refl. reflexivity.
Qed.

(** A waveform of 300 pixels in a view of 600, the wheel turned right. *)
Lemma wheel_on_short_waveform_witness :
  (0 <= 300 < 600)%Z
  /\ view (wheel (Fin 30) (Fin 0)
             (create (Mapper.mkAdapter 44100 512) 300 600 (Fin 1)))
     = view (create (Mapper.mkAdapter 44100 512) 300 600 (Fin 1))
  /\ exists a b,
       outcomes (wheel (Fin 30) (Fin 0)
                   (create (Mapper.mkAdapter 44100 512) 300 600 (Fin 1)))
       = Displaying a b
         :: outcomes (create (Mapper.mkAdapter 44100 512) 300 600 (Fin 1)).
Proof.
  split; [lia|].
  refine (proj1 (wheel_on_short_waveform 30 0
                   (create (Mapper.mkAdapter 44100 512) 300 600 (Fin 1))
                   eq_refl eq_refl _) _).
  - cbn. lia.
  - vm_compute. discriminate.
Defined.

Lemma updateWaveform_geometry (v : View) (offset : JsNum) :
  pixelLength (fst (_updateWaveform v offset)) = pixelLength v
  /\ width (fst (_updateWaveform v offset)) = width v
  /\ adapter (fst (_updateWaveform v offset)) = adapter v.
Proof.
  unfold _updateWaveform. destruct (pixelLength v <? width v)%Z; repeat split.
Qed.

(** X16.  After [_syncPlayhead(time, true)] the pixel of [time] is in the
    frame, for every time within the waveform and every view wider than 100
    pixels: a playhead that had left the frame, or come within 100 pixels of
    its right edge, is put 100 pixels from the left edge, or as near to that
    as the scroll range allows. *)
Theorem syncPlayhead_shows_playhead (t : Q) (z : Z) (s : Running) :
  ~ Mapper.scale (adapter (view s)) == 0 ->
  frameOffset (view s) = ofZ z ->
  (100 < width (view s))%Z ->
  (0 <= Mapper.timeToPixels (adapter (view s)) t < pixelLength (view s))%Z ->
  exists z' : Z,
    frameOffset (view (_syncPlayhead (Fin t) true s)) = ofZ z'
    /\ (z' <= Mapper.timeToPixels (adapter (view s)) t
        < z' + width (view s))%Z.
Proof.
  intros Hsc Hz Hw Hp. unfold _syncPlayhead.
  rewrite timeToPixels_finite by exact Hsc.
  set (p := Mapper.timeToPixels (adapter (view s)) t) in *.
  rewrite Hz.
  destruct (ge (ofZ p) _ || lt (ofZ p) (ofZ z)) eqn:E.
  - rewrite call_updateWaveform_view. cbn [view set_view].
    set (offset := if lt (sub (ofZ p) (Fin 100)) (Fin 0) then Fin 0
                   else sub (ofZ p) (Fin 100)).
    assert (Ho : offset = ofZ (Z.max 0 (p - 100))).
    { subst offset. cbn [sub neg add ofZ lt].
      destruct (Qltb (inject_Z p + - (100)) 0) eqn:E1.
      - apply Qltb_true in E1.
        assert (p - 100 < 0)%Z.
        { rewrite Zlt_Qlt. unfold Z.sub. rewrite inject_Z_plus, inject_Z_opp.
          change (inject_Z 100) with 100. change (inject_Z 0) with 0. lra. }
        replace (Z.max 0 (p - 100)) with 0%Z by lia. reflexivity.
      - apply Qltb_false in E1.
        assert (0 <= p - 100)%Z.
        { rewrite Zle_Qle. unfold Z.sub. rewrite inject_Z_plus, inject_Z_opp.
          change (inject_Z 100) with 100. change (inject_Z 0) with 0. lra. }
        replace (Z.max 0 (p - 100)) with (p - 100)%Z by lia.
        unfold ofZ. f_equal. unfold Z.sub. rewrite inject_Z_plus, inject_Z_opp.
        reflexivity. }
    rewrite Ho, updateWaveform_whole by (cbn; lia). cbn [pixelLength width set_frameOffset].
    eexists. split; [reflexivity|].
    destruct (pixelLength (view s) <? width (view s))%Z eqn:E1;
      [apply Z.ltb_lt in E1; lia|apply Z.ltb_ge in E1].
    destruct (Z.max 0 (p - 100) <? 0)%Z eqn:E2; [apply Z.ltb_lt in E2; lia|].
    destruct (_ <? Z.max 0 (p - 100))%Z eqn:E3;
      [apply Z.ltb_lt in E3|apply Z.ltb_ge in E3]; lia.
  - exists z. split; [exact Hz|].
    apply orb_false_iff in E. destruct E as [E1 E2].
    rewrite lt_ofZ in E2. apply Z.ltb_ge in E2.
    change (sub (add (ofZ z) (ofZ (width (view s)))) (Fin 100))
      with (Fin (inject_Z z + inject_Z (width (view s)) + - (100))) in E1.
    unfold ofZ in E1. apply ge_Fin in E1.
    assert (H2 : (p < z + width (view s) - 100)%Z).
    { rewrite Zlt_Qlt. unfold Z.sub. rewrite !inject_Z_plus, inject_Z_opp.
      change (inject_Z 100) with 100. lra. }
    lia.
Qed.

(** The playhead at 60 s, far right of a frame at offset 0. *)
Lemma syncPlayhead_shows_playhead_witness :
  (100 < 600)%Z
  /\ (0 <= Mapper.timeToPixels (Mapper.mkAdapter 100 10) 60 < 1000)%Z
  /\ exists z' : Z,
       frameOffset
         (view (_syncPlayhead (Fin 60) true
                  (create (Mapper.mkAdapter 100 10) 1000 600 (Fin 1))))
       = ofZ z'
       /\ (z' <= 600 < z' + 600)%Z.
Proof.
  split; [lia|]. split; [vm_compute; split; [discriminate|reflexivity]|].
  refine (syncPlayhead_shows_playhead 60 0
            (create (Mapper.mkAdapter 100 10) 1000 600 (Fin 1)) _ eq_refl _ _).
  - cbn. discriminate.
  - cbn. lia.
  - vm_compute. split; [discriminate|reflexivity].
Defined.

(** X17.  After ['user_seek'] to a time within the waveform the pixel of
    that time is in the frame; it stands at the middle pixel of the view,
    [floor(width / 2)] from the left edge, unless the scroll range stops the
    frame earlier. *)
Theorem user_seek_shows_time (t : Q) (s : Running) :
  ~ Mapper.scale (adapter (view s)) == 0 ->
  (0 < width (view s))%Z ->
  (0 <= Mapper.timeToPixels (adapter (view s)) t < pixelLength (view s))%Z ->
  let p := Mapper.timeToPixels (adapter (view s)) t in
  exists z' : Z,
    frameOffset (view (user_seek (Fin t) s)) = ofZ z'
    /\ (z' <= p < z' + width (view s))%Z
    /\ ((0 <= p - width (view s) / 2 <= pixelLength (view s) - width (view s))%Z ->
        z' = (p - width (view s) / 2)%Z).
Proof.
  intros Hsc Hw Hp p. unfold user_seek.
  rewrite timeToPixels_finite by exact Hsc. fold p.
  rewrite call_updateWaveform_view.
  assert (Ho : sub (ofZ p) (floor (div (ofZ (width (view s))) (Fin 2)))
               = ofZ (p - width (view s) / 2)).
  { cbn [div ofZ]. change (Qeq_bool 2 0) with false. cbv iota.
    cbn [floor sub neg add ofZ]. unfold ofZ. f_equal.
    change 2 with (inject_Z 2). rewrite <- Zdiv_Qdiv.
    unfold Z.sub. rewrite inject_Z_plus, inject_Z_opp. reflexivity. }
  rewrite Ho, updateWaveform_whole by lia.
  eexists. split; [reflexivity|].
  assert (Hhalf : (0 <= width (view s) / 2 < width (view s))%Z).
  { split; [apply Z.div_pos; lia|apply Z.div_lt_upper_bound; lia]. }
  destruct (pixelLength (view s) <? width (view s))%Z eqn:E1;
    [apply Z.ltb_lt in E1|apply Z.ltb_ge in E1].
  - split; [lia|]. intros H. lia.
  - destruct (p - width (view s) / 2 <? 0)%Z eqn:E2;
      [apply Z.ltb_lt in E2|apply Z.ltb_ge in E2].
    + split; [lia|]. intros H. lia.
    + destruct (_ <? p - width (view s) / 2)%Z eqn:E3;
        [apply Z.ltb_lt in E3|apply Z.ltb_ge in E3]; (split; [lia|intros H; lia]).
Qed.

(** Seeking to 50 s leaves its pixel, 500, in the middle of the frame. *)
Lemma user_seek_shows_time_witness :
  (0 < 600)%Z
  /\ (0 <= Mapper.timeToPixels (Mapper.mkAdapter 100 10) 50 < 1000)%Z
  /\ exists z' : Z,
       frameOffset
         (view (user_seek (Fin 50)
                  (create (Mapper.mkAdapter 100 10) 1000 600 (Fin 1))))
       = ofZ z'
       /\ (z' <= 500 < z' + 600)%Z.
Proof.
  split; [lia|]. split; [vm_compute; split; [discriminate|reflexivity]|].
  destruct (user_seek_shows_time 50
              (create (Mapper.mkAdapter 100 10) 1000 600 (Fin 1)))
    as (z' & H1 & H2 & _).
  - cbn. discriminate.
  - cbn. lia.
  - vm_compute. split; [discriminate|reflexivity].
  - exists z'. split; [exact H1|exact H2].
Defined.

End ZoomViewListeners.

(** ** The segments layer: neighbours, pointer presses and the host's events *)

Section LayerListeners.

(** *** [_findSegmentNeighbours] *)

Lemma index_of_first (pre post : list SegId) (i : SegId) :
  ~ In i pre -> index_of (pre ++ i :: post) i = Some (List.length pre).
Proof.
  induction pre as [|a pre IH]; cbn; intros H.
  - rewrite String.eqb_refl. reflexivity.
  - rewrite String_eqb_neq by (intros ->; apply H; left; reflexivity).
    rewrite IH by tauto. reflexivity.
Qed.

Lemma index_of_absent (l : list SegId) (i : SegId) :
  ~ In i l -> index_of l i = None.
Proof.
  induction l as [|a l IH]; cbn; intros H; [reflexivity|].
  rewrite String_eqb_neq by (intros ->; apply H; left; reflexivity).
  rewrite IH by tauto. reflexivity.
Qed.

Lemma findSegmentNeighbours_left (pre post : list SegId) (i : SegId)
                                 (st : Layer) :
  ~ In i pre ->
  left (_findSegmentNeighbours (pre ++ i :: post) i st)
  = match rev pre with
    | a :: _ => lookup (_segmentGroups st) a
    | [] => None
    end.
Proof.
  intros H. unfold _findSegmentNeighbours. rewrite index_of_first by exact H.
  cbn [left].
  destruct pre as [|a0 pre0] using rev_ind; [reflexivity|].
  rewrite rev_unit, length_app. cbn [List.length].
  replace (Z.of_nat (List.length pre0 + 1) >? 0)%Z with true
    by (symmetry; apply Z.gtb_lt; lia).
  unfold group_at.
  replace (Z.to_nat (Z.of_nat (List.length pre0 + 1) - 1))
    with (List.length pre0 + 0)%nat by lia.
  rewrite <- !app_assoc, nth_error_app2 by lia.
  replace (List.length pre0 + 0 - List.length pre0)%nat with 0%nat by lia.
  reflexivity.
Qed.

Lemma findSegmentNeighbours_right (pre post : list SegId) (i : SegId)
                                  (st : Layer) :
  ~ In i pre ->
  right (_findSegmentNeighbours (pre ++ i :: post) i st)
  = match post with
    | b :: _ => lookup (_segmentGroups st) b
    | [] => None
    end.
Proof.
  intros H. unfold _findSegmentNeighbours. rewrite index_of_first by exact H.
  cbn [right].
  rewrite length_app. cbn [List.length].
  destruct post as [|b post].
  - replace (_ <? _)%Z with false
      by (symmetry; apply Z.ltb_ge; cbn [List.length]; lia).
    reflexivity.
  - replace (_ <? _)%Z with true
      by (symmetry; apply Z.ltb_lt; cbn [List.length]; lia).
    unfold group_at.
    replace (Z.to_nat (Z.of_nat (List.length pre) + 1))
      with (List.length pre + 1)%nat by lia.
    rewrite nth_error_app2 by lia.
    replace (List.length pre + 1 - List.length pre)%nat with 1%nat by lia.
    reflexivity.
Qed.

(** X18.  For a segment that the host's [find] returns, the neighbours are
    the groups registered for the segments just before and just after its
    first occurrence in the returned array: no left neighbour for the first
    segment, no right neighbour for the last, and none either where the
    adjacent segment has no group. *)
Theorem findSegmentNeighbours_adjacent (pre post : list SegId) (i : SegId)
                                       (st : Layer) :
  ~ In i pre ->
  _findSegmentNeighbours (pre ++ i :: post) i st
  = mkNeighbours
      (match rev pre with
       | a :: _ => lookup (_segmentGroups st) a
       | [] => None
       end)
      (match post with
       | b :: _ => lookup (_segmentGroups st) b
       | [] => None
       end).
Proof.
  intros H.
  pose proof (findSegmentNeighbours_left pre post i st H) as Hl.
  pose proof (findSegmentNeighbours_right pre post i st H) as Hr.
  destruct (_findSegmentNeighbours (pre ++ i :: post) i st) as [l r].
  cbn [left right] in Hl, Hr. rewrite Hl, Hr. reflexivity.
Qed.

(** The neighbours of ["mid"] among the three sample segments. *)
Lemma findSegmentNeighbours_adjacent_witness :
  ~ In "mid" ["left"]
  /\ _findSegmentNeighbours ["left"; "mid"; "right"] "mid" sampleLayer
     = mkNeighbours (Some 0%nat) (Some 2%nat).
Proof.
  assert (H : ~ In "mid" ["left"]) by (intros [C|[]]; discriminate).
  split; [exact H|].
  exact (findSegmentNeighbours_adjacent ["left"] ["right"] "mid" sampleLayer H).
Defined.

(** X19.  For a segment that [find] does not return, the index stays -1:
    there is no left neighbour, and the right neighbour is the group of the
    first segment returned, wherever that segment lies. *)
Theorem findSegmentNeighbours_not_found (found : list SegId) (i : SegId)
                                        (st : Layer) :
  ~ In i found ->
  _findSegmentNeighbours found i st
  = mkNeighbours None
      (match found with
       | first :: _ => lookup (_segmentGroups st) first
       | [] => None
       end).
Proof.
  intros H. unfold _findSegmentNeighbours. rewrite index_of_absent by exact H.
  change (-1 >? 0)%Z with false. cbv iota. f_equal.
  destruct found as [|f found]; [reflexivity|].
  replace (_ <? _)%Z with true by (symmetry; apply Z.ltb_lt; cbn [List.length]; lia).
  reflexivity.
Qed.

(** ["right"] is out of the frame; its right neighbour is then ["left"]. *)
Lemma findSegmentNeighbours_not_found_witness :
  ~ In "right" ["left"; "mid"]
  /\ _findSegmentNeighbours ["left"; "mid"] "right" sampleLayer
     = mkNeighbours None (Some 0%nat).
Proof.
  assert (H : ~ In "right" ["left"; "mid"])
    by (intros [C|[C|[]]]; discriminate).
  split; [exact H|].
  exact (findSegmentNeighbours_not_found ["left"; "mid"] "right" sampleLayer H).
Defined.

(** *** A press on a handle *)








(** *** The neighbours captured at mousedown *)

Lemma mousedown_handles_group (found : list SegId) (r : Ref) (x : Q) (st : Layer) :
  truthy (handle_isMouseOver (startHandle (groups st r))) = true
  \/ truthy (handle_isMouseOver (endHandle (groups st r))) = true ->
  neighbours (groups (mousedown_handles found r x st) r)
  = _findSegmentNeighbours found (segment (groups st r)) st
  /\ segment (groups (mousedown_handles found r x st) r) = segment (groups st r)
  /\ segs (mousedown_handles found r x st) = segs st
  /\ forall q, q <> r -> groups (mousedown_handles found r x st) q = groups st q.
Proof.
  intros H. unfold mousedown_handles, mousedown_start, mousedown_end. cbv zeta.
  destruct (truthy (handle_isMouseOver (startHandle (groups st r)))) eqn:E1.
  - rewrite groups_update_same. cbn [endHandle set_startHandle set_neighbours].
    destruct (truthy (handle_isMouseOver (endHandle (groups st r)))) eqn:E2.
    + split; [|split; [|split]].
      * rewrite !groups_update_same. reflexivity.
      * rewrite !groups_update_same. reflexivity.
      * reflexivity.
      * intros q Hq. rewrite !groups_update_other by exact Hq. reflexivity.
    + split; [|split; [|split]].
      * rewrite groups_update_same. reflexivity.
      * rewrite groups_update_same. reflexivity.
      * reflexivity.
      * intros q Hq. rewrite groups_update_other by exact Hq. reflexivity.
  - destruct H as [H|H]; [discriminate|]. rewrite H.
    split; [|split; [|split]].
    + rewrite groups_update_same. reflexivity.
    + rewrite groups_update_same. reflexivity.
    + reflexivity.
    + intros q Hq. rewrite groups_update_other by exact Hq. reflexivity.
Qed.

(** X22.  When the host's [find] returns the segments of the frame in the
    order of time and without overlap around the pressed segment, the
    neighbours that the [mousedown] listener captures for it are such that
    the drag resolver keeps its invariant: the pressed segment, if it lasts
    the minimum duration at least, is well separated from the captured
    neighbours, which are other groups, at rest, and lie outside it. *)
Theorem captured_neighbours_are_separated (pre post : list SegId) (i : SegId)
                                          (r : Ref) (x : Q) (st : Layer) :
  ~ In i pre ->
  registry_ok st -> at_rest st ->
  lookup (_segmentGroups st) i = Some r ->
  truthy (handle_isMouseOver (startHandle (groups st r))) = true
  \/ truthy (handle_isMouseOver (endHandle (groups st r))) = true ->
  minSegmentDuration <= endTime (segs st i) - startTime (segs st i) ->
  (forall a, hd_error (rev pre) = Some a ->
             endTime (segs st a) <= startTime (segs st i)) ->
  (forall b, hd_error post = Some b ->
             endTime (segs st i) <= startTime (segs st b)) ->
  well_separated r (mousedown_handles (pre ++ i :: post) r x st).
Proof.
  intros Hpre [Hnd Hseg] Hrest Hr Hover Hmin Hbefore Hafter.
  pose proof (Hseg i r Hr) as Hi.
  destruct (mousedown_handles_group (pre ++ i :: post) r x st Hover)
    as (Hnb & Hs & Hsegs & Hother).
  rewrite Hi in Hnb.
  pose proof minSegmentDuration_pos as Hpos.
  unfold well_separated, segment_of. rewrite Hnb, Hs, Hsegs, Hi.
  rewrite (findSegmentNeighbours_left pre post i st Hpre),
          (findSegmentNeighbours_right pre post i st Hpre).
  split; [exact Hmin|]. split.
  - intros l Hl. destruct (rev pre) as [|a rp] eqn:Ep; [discriminate|].
    pose proof (Hseg a l Hl) as Ha.
    assert (Hne : l <> r).
    { intros ->. apply Hpre. rewrite <- Hi, Ha.
      apply in_rev. rewrite Ep. left. reflexivity. }
    rewrite (Hother l Hne), Ha. split; [apply Hrest|].
    apply Hbefore. reflexivity.
  - intros n Hn. destruct post as [|b post']; [discriminate|].
    pose proof (Hseg b n Hn) as Hb.
    pose proof (Hafter b eq_refl) as Hab.
    assert (Hne : n <> r).
    { intros ->. rewrite Hi in Hb. subst b. lra. }
    rewrite (Hother n Hne), Hb. split; [apply Hrest|exact Hab].
Qed.

Lemma at_rest_pressedStart : at_rest pressedStartLayer.
Proof. intros [|[|[|q]]]; split; reflexivity. Qed.

Lemma registry_ok_pressedStart : registry_ok pressedStartLayer.
Proof.
  split.
  - change (map fst (_segmentGroups pressedStartLayer))
      with ["left"; "mid"; "right"].
    repeat constructor; cbn; intros H;
      repeat (destruct H as [H|H]; [discriminate|]); exact H.
  - intros k r H.
    change (_segmentGroups pressedStartLayer)
      with [("left", 0%nat); ("mid", 1%nat); ("right", 2%nat)] in H.
    cbn [lookup] in H.
    destruct (String.eqb "left" k) eqn:E1;
      [apply String.eqb_eq in E1; subst; injection H as <-; reflexivity|].
    destruct (String.eqb "mid" k) eqn:E2;
      [apply String.eqb_eq in E2; subst; injection H as <-; reflexivity|].
    destruct (String.eqb "right" k) eqn:E3;
      [apply String.eqb_eq in E3; subst; injection H as <-; reflexivity|].
    discriminate.
Qed.

(** The start handle of ["mid"] pressed, the three sample segments being
    returned in the order of time. *)
Lemma captured_neighbours_are_separated_witness :
  ~ In "mid" ["left"]
  /\ lookup (_segmentGroups pressedStartLayer) "mid" = Some 1%nat
  /\ well_separated 1%nat
       (mousedown_handles ["left"; "mid"; "right"] 1%nat 22 pressedStartLayer).
Proof.
  assert (H : ~ In "mid" ["left"]) by (intros [C|[]]; discriminate).
  split; [exact H|]. split; [reflexivity|].
  apply (captured_neighbours_are_separated ["left"] ["right"] "mid" 1%nat 22
           pressedStartLayer H registry_ok_pressedStart at_rest_pressedStart).
  - reflexivity.
  - left. reflexivity.
  - vm_compute. discriminate.
  - intros a [= <-]. vm_compute. discriminate.
  - intros b [= <-]. vm_compute. discriminate.
Defined.

(** *** The window [mouseup] listener, once more *)

Lemma place_quiet fo r q st :
  quiet (groups st q) -> quiet (groups (place fo r st) q).
Proof.
  intros H. unfold place. cbn. destruct (Nat.eqb q r) eqn:E; [|exact H].
  apply Nat.eqb_eq in E. subst. exact H.
Qed.

Lemma mouseup_one_settles fuel k r st :
  lookup (_segmentGroups st) k = Some r ->
  exists st',
    mouseup_one (S fuel) k st = Some st'
    /\ _segmentGroups st' = _segmentGroups st
    /\ segs st' = segs st
    /\ emitted st' = emitted st
    /\ _isMouseDragging st' = _isMouseDragging st
    /\ quiet (groups st' r)
    /\ forall q, quiet (groups st q) -> quiet (groups st' q).
Proof.
  intros Hk. unfold mouseup_one. rewrite Hk.
  set (released := if _ : bool then _ else Some st).
  assert (Hrel : exists st1,
             released = Some st1
             /\ _segmentGroups st1 = _segmentGroups st
             /\ segs st1 = segs st
             /\ emitted st1 = emitted st
             /\ _isMouseDragging st1 = _isMouseDragging st
             /\ quiet (groups st1 r)
             /\ forall q, quiet (groups st q) -> quiet (groups st1 q)).
  { subst released.
    destruct (handle_isMouseDragging (startHandle (groups st r))) eqn:D1;
      [|destruct (handle_isMouseDragging (endHandle (groups st r))) eqn:D2];
      cbn [orb].
    1,2: rewrite render_quiet by (rewrite groups_update_same; apply quiet_release);
      eexists; split; [reflexivity|]; repeat (split; [reflexivity|]); split.
    1,3: cbn [groups draw set_draws]; apply place_quiet;
      rewrite groups_update_same; apply quiet_release.
    1,2: intros q Hq; cbn [groups draw set_draws]; apply place_quiet; cbn;
      destruct (Nat.eqb q r); [apply quiet_release|exact Hq].
    exists st. repeat (split; [reflexivity|]). split; [split; assumption|auto]. }
  destruct Hrel as (st1 & -> & Hreg & Hsegs & Hem & Hd & Hq & Hkeep).
  destruct (isSegmentTouching (groups st1 r)) eqn:T.
  - rewrite render_quiet by (rewrite groups_update_same; apply quiet_touching; exact Hq).
    eexists. split; [reflexivity|].
    cbn [_segmentGroups segs emitted _isMouseDragging draw set_draws place
         update_group set_groups].
    repeat (split; [assumption|]). split.
    + cbn [groups draw set_draws]. apply place_quiet.
      rewrite groups_update_same. apply quiet_touching. exact Hq.
    + intros q Hq'. cbn [groups draw set_draws]. apply place_quiet. cbn.
      destruct (Nat.eqb q r); [apply quiet_touching; exact Hq|auto].
  - exists st1. split; [reflexivity|]. repeat (split; [assumption|]).
    exact Hkeep.
Qed.

Lemma mouseup_each_settles fuel keys :
  forall st,
    (forall k, In k keys -> exists r, lookup (_segmentGroups st) k = Some r) ->
    exists st',
      mouseup_each (S fuel) keys st = Some st'
      /\ _segmentGroups st' = _segmentGroups st
      /\ segs st' = segs st
      /\ emitted st' = emitted st
      /\ _isMouseDragging st' = _isMouseDragging st
      /\ (forall q, quiet (groups st q) -> quiet (groups st' q))
      /\ (forall k r, In k keys -> lookup (_segmentGroups st) k = Some r ->
                      quiet (groups st' r)).
Proof.
  induction keys as [|k keys IH]; intros st Hin.
  - exists st. split; [reflexivity|]. do 4 (split; [reflexivity|]).
    split; [auto|]. intros k r [].
  - destruct (Hin k (or_introl eq_refl)) as [r Hr].
    destruct (mouseup_one_settles fuel k r st Hr)
      as (st1 & Hrun & Hreg & Hsegs & Hem & Hd & Hq & Hkeep).
    destruct (IH st1) as (st' & Hrest & Hreg' & Hsegs' & Hem' & Hd' & Hkeep' & Hall).
    { intros k' Hk'. rewrite Hreg. apply Hin. right. exact Hk'. }
    exists st'. cbn [mouseup_each]. rewrite Hrun. split; [exact Hrest|].
    repeat (split; [congruence|]). split; [auto|].
    intros k' r' [<-|Hk'] Hl.
    + rewrite Hr in Hl. injection Hl as <-. auto.
    + apply (Hall k' r' Hk'). rewrite Hreg. exact Hl.
Qed.

(** X23.  The window [mouseup] listener always runs to its end and ends
    every drag: afterwards no handle of a registered group is being dragged,
    no registered group is flagged as touching, and the layer no longer
    counts itself as dragging; the times of the segments and the registry
    are what they were, and the one event emitted is ['zoomview.mouseup']. *)
Theorem mouseup_ends_every_drag (fuel : nat) (st : Layer) :
  exists st',
    mouseup (S fuel) st = Some st'
    /\ (forall k r, lookup (_segmentGroups st') k = Some r ->
                    quiet (groups st' r)
                    /\ isSegmentTouching (groups st' r) = false)
    /\ _isMouseDragging st' = false
    /\ segs st' = segs st
    /\ _segmentGroups st' = _segmentGroups st
    /\ emitted st' = ZoomviewMouseup :: emitted st.
Proof.
  destruct (mouseup_clears_touching fuel st) as (st1 & Hrun1 & Htouch).
  unfold mouseup in *.
  destruct (mouseup_each_settles fuel
              (map fst (_segmentGroups (set_isMouseDragging false st)))
              (emit ZoomviewMouseup (set_isMouseDragging false st)))
    as (st' & Hrun & Hreg & Hsegs & Hem & Hd & _ & Hall).
  { intros k Hk. apply lookup_keys. exact Hk. }
  rewrite Hrun in Hrun1. injection Hrun1 as <-.
  exists st'. split; [exact Hrun|]. split; [|repeat split; assumption].
  intros k r Hl. split; [|apply (Htouch k r Hl)].
  rewrite Hreg in Hl. apply (Hall k r); [|exact Hl].
  eapply lookup_in_keys. exact Hl.
Qed.

(** *** The registry *)

Lemma lookup_assign_same l i r : lookup (assign l i r) i = Some r.
Proof.
  induction l as [|[k r0] l IH]; cbn.
  - rewrite String.eqb_refl. reflexivity.
  - destruct (String.eqb k i) eqn:E; cbn; rewrite E; [reflexivity|exact IH].
Qed.

Lemma lookup_assign_other l i r k :
  k <> i -> lookup (assign l i r) k = lookup l k.
Proof.
  intros Hne. induction l as [|[k0 r0] l IH]; cbn.
  - rewrite String_eqb_neq by congruence. reflexivity.
  - destruct (String.eqb k0 i) eqn:E; cbn.
    + apply String.eqb_eq in E. subst k0.
      rewrite String_eqb_neq by congruence. reflexivity.
    + destruct (String.eqb k0 k); [reflexivity|exact IH].
Qed.

Lemma lookup_delete_same l i : lookup (delete l i) i = None.
Proof.
  induction l as [|[k r] l IH]; cbn; [reflexivity|].
  destruct (String.eqb k i) eqn:E; cbn; [exact IH|]. rewrite E. exact IH.
Qed.

Lemma delete_assign_absent l i r :
  lookup l i = None -> delete (assign l i r) i = l.
Proof.
  induction l as [|[k r0] l IH]; cbn.
  - intros _. rewrite String.eqb_refl. reflexivity.
  - destruct (String.eqb k i) eqn:E; [discriminate|].
    intros H. cbn. rewrite E. cbn. f_equal. apply IH. exact H.
Qed.

Lemma addSegmentGroup_runs fuel i st :
  exists st',
    _addSegmentGroup (S fuel) i st = Some (nextRef st, st')
    /\ _segmentGroups st' = assign (_segmentGroups st) i (nextRef st)
    /\ nextRef st' = S (nextRef st)
    /\ segs st' = segs st
    /\ draws st' = draws st
    /\ emitted st' = emitted st
    /\ _view st' = _view st
    /\ segment (groups st' (nextRef st)) = i
    /\ quiet (groups st' (nextRef st))
    /\ forall q, q <> nextRef st -> groups st' q = groups st q.
Proof.
  unfold _addSegmentGroup, _createSegmentGroup.
  rewrite render_quiet
    by (cbn; rewrite Nat.eqb_refl; split; reflexivity).
  eexists. split; [reflexivity|].
  repeat (split; [reflexivity|]).
  split; [|split].
  - cbn. rewrite Nat.eqb_refl. reflexivity.
  - cbn. rewrite Nat.eqb_refl. split; reflexivity.
  - intros q Hq. cbn. apply Nat.eqb_neq in Hq. rewrite Hq. reflexivity.
Qed.

(** X24.  [_addSegmentGroup] files the new group under the segment's id and
    under no other key, and [_removeSegment] takes it out again: adding a
    segment that had no group and removing it leaves the registry exactly as
    it was, order included. *)
Theorem add_then_remove_restores (fuel : nat) (i : SegId) (st : Layer) :
  lookup (_segmentGroups st) i = None ->
  exists r st1,
    _addSegmentGroup (S fuel) i st = Some (r, st1)
    /\ lookup (_segmentGroups st1) i = Some r
    /\ segment (groups st1 r) = i
    /\ (forall k, k <> i ->
                  lookup (_segmentGroups st1) k = lookup (_segmentGroups st) k)
    /\ _segmentGroups (_removeSegment i st1) = _segmentGroups st.
Proof.
  intros Hi.
  destruct (addSegmentGroup_runs fuel i st)
    as (st1 & Hrun & Hreg & _ & _ & _ & _ & _ & Hseg & _).
  exists (nextRef st), st1. split; [exact Hrun|].
  split; [rewrite Hreg; apply lookup_assign_same|]. split; [exact Hseg|]. split.
  - intros k Hk. rewrite Hreg. apply lookup_assign_other. exact Hk.
  - unfold _removeSegment. rewrite Hreg, lookup_assign_same. cbn.
    apply delete_assign_absent. exact Hi.
Qed.

(** A fourth segment shown and removed again. *)
Lemma add_then_remove_restores_witness :
  lookup (_segmentGroups sampleLayer) "fourth" = None
  /\ exists r st1,
       _addSegmentGroup 1 "fourth" sampleLayer = Some (r, st1)
       /\ _segmentGroups (_removeSegment "fourth" st1)
          = _segmentGroups sampleLayer.
Proof.
  split; [reflexivity|].
  destruct (add_then_remove_restores 0 "fourth" sampleLayer eq_refl)
    as (r & st1 & H1 & _ & _ & _ & H2).
  exists r, st1. split; [exact H1|exact H2].
Defined.

Lemma removeSegment_lookup i k st :
  lookup (_segmentGroups (_removeSegment i st)) k
  = if String.eqb k i then None else lookup (_segmentGroups st) k.
Proof.
  unfold _removeSegment. destruct (String.eqb k i) eqn:E.
  - apply String.eqb_eq in E. subst k.
    destruct (lookup (_segmentGroups st) i) eqn:L; [apply lookup_delete_same|exact L].
  - apply String.eqb_neq in E.
    destruct (lookup (_segmentGroups st) i); [|reflexivity].
    cbn. apply lookup_delete_other. exact E.
Qed.

Lemma removeSegment_rest i st :
  groups (_removeSegment i st) = groups st
  /\ segs (_removeSegment i st) = segs st
  /\ draws (_removeSegment i st) = draws st
  /\ emitted (_removeSegment i st) = emitted st.
Proof.
  unfold _removeSegment. destruct (lookup _ _); repeat split.
Qed.

(** After the listener of ['segments.remove'] none of the removed
    segments has a group, every other segment has the group it had, and
    the layer has been drawn exactly once, whether or not any of the
    segments was on display. *)
Theorem segments_remove_unregisters (segments : list SegId) (st : Layer) :
  (forall k,
      lookup (_segmentGroups (on_segments_remove segments st)) k
      = if existsb (String.eqb k) segments then None
        else lookup (_segmentGroups st) k)
  /\ draws (on_segments_remove segments st) = S (draws st)
  /\ segs (on_segments_remove segments st) = segs st
  /\ emitted (on_segments_remove segments st) = emitted st.
Proof.
  unfold on_segments_remove. cbn [_segmentGroups draws segs emitted draw set_draws].
  revert st. induction segments as [|i segments IH]; intros st; cbn [fold_left existsb].
  - repeat split.
  - destruct (IH (_removeSegment i st)) as (H1 & H2 & H3 & H4).
    destruct (removeSegment_rest i st) as (_ & R2 & R3 & R4).
    split; [|split; [congruence|split; congruence]].
    intros k. rewrite H1, removeSegment_lookup.
    destruct (String.eqb k i); cbn [orb]; [|reflexivity].
    destruct (existsb (String.eqb k) segments); reflexivity.
Qed.

(** *** The listener of ['segments.update'] *)

Section UpdateListener.

Variable isVisible : Segment -> Q -> Q -> bool.

(** For a segment on display the listener renders its group and draws the
    layer once. *)
Lemma segments_update_of_displayed (fuel : nat) (i : SegId) (r : Ref)
                                   (st : Layer) :
  lookup (_segmentGroups st) i = Some r -> quiet (groups st r) ->
  on_segments_update isVisible (S fuel) i st
  = Returns (draw (place (frameOffset (_view st)) r st)).
Proof.
  intros Hl Hq. unfold on_segments_update. rewrite Hl.
  rewrite render_quiet by exact Hq. reflexivity.
Qed.

(** X25.  ['segments.update'] for a segment that has no group: when the
    segment is not in the frame nothing happens; when it is in the frame the
    listener creates and registers its group and then throws, before the
    layer is drawn, because it renders the group it had looked up at the
    start, which is [undefined]. *)
Theorem segments_update_of_undisplayed (fuel : nat) (i : SegId) (st : Layer) :
  lookup (_segmentGroups st) i = None ->
  (isVisible (segs st i) (frameStartTime st) (frameEndTime st) = false ->
   on_segments_update isVisible (S fuel) i st = Returns st)
  /\ (isVisible (segs st i) (frameStartTime st) (frameEndTime st) = true ->
      exists st',
        on_segments_update isVisible (S fuel) i st = Throws st'
        /\ lookup (_segmentGroups st') i = Some (nextRef st)
        /\ segment (groups st' (nextRef st)) = i
        /\ draws st' = draws st
        /\ emitted st' = emitted st).
Proof.
  intros Hl. unfold on_segments_update. rewrite Hl. split; intros Hv; rewrite Hv.
  - reflexivity.
  - destruct (addSegmentGroup_runs fuel i st)
      as (st' & -> & Hreg & _ & _ & Hd & He & _ & Hseg & _).
    exists st'. split; [reflexivity|].
    split; [rewrite Hreg; apply lookup_assign_same|].
    split; [exact Hseg|]. split; assumption.
Qed.

End UpdateListener.

(** A fourth segment, in the frame, updated before it was ever shown. *)
Lemma segments_update_of_undisplayed_witness :
  lookup (_segmentGroups sampleLayer) "fourth" = None
  /\ exists st',
       on_segments_update always_visible 1 "fourth" sampleLayer = Throws st'
       /\ lookup (_segmentGroups st') "fourth" = Some 3%nat
       /\ draws st' = 0%nat.
Proof.
  split; [reflexivity|].
  destruct (proj2 (segments_update_of_undisplayed always_visible 0 "fourth"
                     sampleLayer eq_refl) eq_refl)
    as (st' & H1 & H2 & _ & H3 & _).
  exists st'. split; [exact H1|]. split; [exact H2|exact H3].
Defined.

(** *** What a pass over a group at rest is confined to *)

Lemma confined_refl r st : confined r st st.
Proof. constructor; auto. Qed.

Lemma confined_trans r st1 st2 st3 :
  confined r st1 st2 -> confined r st2 st3 -> confined r st1 st3.
Proof.
  intros [] []. constructor; try congruence; auto.
  intros q Hq. rewrite cf_others1, cf_others0 by exact Hq. reflexivity.
Qed.

Lemma confined_write r f st : hover_write f -> confined r st (update_group r f st).
Proof.
  intros Hf. destruct (Hf (groups st r)) as (F1 & _ & F3 & F4 & _).
  constructor; try reflexivity.
  - intros q Hq. apply groups_update_other. exact Hq.
  - rewrite groups_update_same. exact F1.
  - rewrite groups_update_same. intros [Q1 Q2]. split; congruence.
Qed.

Lemma confined_place fo r st : confined r st (place fo r st).
Proof.
  constructor; try reflexivity.
  - intros q Hq. apply groups_place_other. exact Hq.
  - unfold place. rewrite groups_update_same. reflexivity.
  - apply place_quiet.
Qed.

Lemma confined_emit_hover fuel e r st st' :
  quiet (groups st r) -> emit_hover fuel e r st = Some st' -> confined r st st'.
Proof.
  intros Hq. unfold emit_hover. destruct fuel as [|fuel]; [discriminate|].
  rewrite render_quiet by exact Hq. intros [= <-].
  pose proof (confined_place (frameOffset (_view (emit e st))) r (emit e st)) as [].
  constructor; auto.
Qed.

Lemma confined_write_hover fuel e r f st st' :
  hover_write f -> quiet (groups st r) ->
  emit_hover fuel e r (update_group r f st) = Some st' -> confined r st st'.
Proof.
  intros Hf Hq H. pose proof (confined_write r f st Hf) as Hw.
  eapply confined_trans; [exact Hw|].
  eapply confined_emit_hover; [|exact H]. apply (cf_quiet _ _ _ Hw). exact Hq.
Qed.

Lemma confined_emit_body fuel over r st st' :
  quiet (groups st r) -> emit_body fuel over r st = Some st' -> confined r st st'.
Proof.
  intros Hq. unfold emit_body.
  destruct (differs _ _); [|intros [= <-]; apply confined_refl].
  destruct over.
  - apply confined_write_hover; [apply hover_write_over|exact Hq].
  - destruct (emit_hover _ _ _ _) as [sa|] eqn:Ea; [|discriminate].
    apply confined_write_hover in Ea; [|apply hover_write_over|exact Hq].
    pose proof (cf_quiet _ _ _ Ea Hq) as Hqa.
    assert (Hab : forall sb,
               (if truthy (handle_isMouseOver (startHandle (groups sa r)))
                then emit_hover fuel (HandleMouseleave r (Some true)) r
                       (update_group r (set_start_over false) sa)
                else Some sa) = Some sb -> confined r sa sb).
    { intros sb. destruct (truthy _).
      - apply confined_write_hover; [apply hover_write_start|exact Hqa].
      - intros [= <-]. apply confined_refl. }
    destruct (if truthy _ then _ else Some sa) as [sb|] eqn:Eb; [|discriminate].
    clear Eb. pose proof (Hab sb eq_refl) as Eb.
    pose proof (cf_quiet _ _ _ Eb Hqa) as Hqb.
    destruct (truthy _).
    + intros H. apply confined_write_hover in H;
        [|apply hover_write_end|exact Hqb].
      eapply confined_trans; [exact Ea|]. eapply confined_trans; eauto.
    + intros [= <-]. eapply confined_trans; eauto.
Qed.

Lemma confined_emit_start_handle fuel over r st st' :
  quiet (groups st r) ->
  emit_start_handle fuel over r st = Some st' -> confined r st st'.
Proof.
  intros Hq. unfold emit_start_handle.
  destruct (differs _ _); [|intros [= <-]; apply confined_refl].
  apply confined_write_hover; [apply hover_write_start|exact Hq].
Qed.

Lemma confined_emit_end_handle fuel over p r st st' :
  quiet (groups st r) ->
  emit_end_handle fuel over p r st = Some st' -> confined r st st'.
Proof.
  intros Hq. unfold emit_end_handle.
  destruct (differs _ _); [|intros [= <-]; apply confined_refl].
  apply confined_write_hover; [apply hover_write_end|exact Hq].
Qed.

Lemma confined_emitEvents fuel r st st' :
  quiet (groups st r) -> emitEvents fuel r st = Some st' -> confined r st st'.
Proof.
  intros Hq. unfold emitEvents.
  set (st0 := update_group r _ st).
  pose proof (confined_write r _ st (hover_write_distance
                (match _mouseX st with
                 | Some v =>
                     Some (if Qle_bool v (rect_x (highlightRect (groups st r)))
                           then rect_x (highlightRect (groups st r)) - v
                           else v - (rect_x (highlightRect (groups st r))
                                     + rect_width (highlightRect (groups st r))))
                 | None => None
                 end))) as H0.
  fold st0 in H0. pose proof (cf_quiet _ _ _ H0 Hq) as Hq0.
  destruct (emit_body _ _ _ _) as [s1|] eqn:E1; [|discriminate].
  apply confined_emit_body in E1; [|exact Hq0].
  pose proof (cf_quiet _ _ _ E1 Hq0) as Hq1.
  destruct (emit_start_handle _ _ _ _) as [s2|] eqn:E2; [|discriminate].
  apply confined_emit_start_handle in E2; [|exact Hq1].
  pose proof (cf_quiet _ _ _ E2 Hq1) as Hq2.
  intros E3. apply confined_emit_end_handle in E3; [|exact Hq2].
  eapply confined_trans; [exact H0|]. eapply confined_trans; [exact E1|].
  eapply confined_trans; eauto.
Qed.

(** *** One pass of [updateSegments] over a layer at rest *)

Lemma keys_assign_absent l i r :
  lookup l i = None -> map fst (assign l i r) = map fst l ++ [i].
Proof.
  induction l as [|[k r0] l IH]; cbn; [reflexivity|].
  destruct (String.eqb k i); [discriminate|]. intros H. cbn. f_equal. auto.
Qed.

Lemma lookup_absent_keys l i : lookup l i = None -> ~ In i (map fst l).
Proof.
  intros H C. destruct (lookup_keys l i C) as [r Hr]. congruence.
Qed.

Lemma place_flags fo r q st :
  isMouseOver (groups (place fo r st) q) = isMouseOver (groups st q)
  /\ handle_isMouseOver (startHandle (groups (place fo r st) q))
     = handle_isMouseOver (startHandle (groups st q))
  /\ handle_isMouseOver (endHandle (groups (place fo r st) q))
     = handle_isMouseOver (endHandle (groups st q)).
Proof.
  unfold place. cbn. destruct (Nat.eqb q r) eqn:E; [|repeat split].
  apply Nat.eqb_eq in E. subst. repeat split.
Qed.

Lemma addSegmentGroup_pointer fuel i st s1 r :
  _addSegmentGroup (S fuel) i st = Some (r, s1) ->
  _mouseX s1 = _mouseX st /\ _mouseY s1 = _mouseY st
  /\ _isMouseOver s1 = _isMouseOver st.
Proof.
  unfold _addSegmentGroup, _createSegmentGroup.
  rewrite render_quiet by (cbn; rewrite Nat.eqb_refl; split; reflexivity).
  intros [= _ <-]. repeat split.
Qed.

Lemma NoDup_app_one {A : Type} (l : list A) (x : A) :
  NoDup l -> ~ In x l -> NoDup (l ++ [x]).
Proof.
  induction l as [|a l IH]; cbn; intros Hnd Hx.
  - constructor; [tauto|constructor].
  - inversion Hnd as [|? ? Ha Hl]; subst. constructor.
    + intros C. apply in_app_or in C. destruct C as [C|[C|[]]]; [tauto|].
      subst. apply Hx. left. reflexivity.
    + apply IH; [exact Hl|tauto].
Qed.

(** A render pass and the hover resolver over a group at rest. *)
Lemma pass_over_group fuel r st :
  quiet (groups st r) ->
  exists st',
    match _renderSegmentGroup (S fuel) r st with
    | Some st2 => emitEvents (S fuel) r st2
    | None => None
    end = Some st'
    /\ confined r st st'
    /\ (_isMouseOver st = false -> hover_off (groups st' r)).
Proof.
  intros Hq. rewrite render_quiet by exact Hq.
  set (st2 := place (frameOffset (_view st)) r st).
  pose proof (confined_place (frameOffset (_view st)) r st) as Hc2. fold st2 in Hc2.
  pose proof (cf_quiet _ _ _ Hc2 Hq) as Hq2.
  destruct (emitEvents_flags fuel r st2 Hq2) as (st' & Hrun & _ & _ & Ho & Hs & He).
  { apply up_to_date_place. reflexivity. }
  exists st'. split; [exact Hrun|]. split.
  - eapply confined_trans; [exact Hc2|].
    eapply confined_emitEvents; [exact Hq2|exact Hrun].
  - intros Hoff. change (_isMouseOver st2) with (_isMouseOver st) in Ho, Hs, He.
    rewrite Hoff in Ho, Hs, He. split; [exact Ho|]. split; assumption.
Qed.

Lemma update_one_spec fuel i st :
  at_rest st -> well_formed st ->
  exists r st',
    update_one (S fuel) i st = Some st'
    /\ lookup (_segmentGroups st') i = Some r
    /\ (forall k, k <> i ->
                  lookup (_segmentGroups st') k = lookup (_segmentGroups st) k)
    /\ (forall r0, lookup (_segmentGroups st) i = Some r0 -> r0 = r)
    /\ segs st' = segs st
    /\ _view st' = _view st
    /\ _mouseX st' = _mouseX st
    /\ _mouseY st' = _mouseY st
    /\ _isMouseOver st' = _isMouseOver st
    /\ at_rest st'
    /\ well_formed st'
    /\ (forall q, q <> r -> groups st' q = groups st q)
    /\ (_isMouseOver st = false -> hover_off (groups st' r)).
Proof.
  intros Hrest [[Hnd Hseg] Hfresh]. unfold update_one, _findOrAddSegmentGroup.
  destruct (lookup (_segmentGroups st) i) as [r|] eqn:El.
  - destruct (pass_over_group fuel r st (Hrest r)) as (st' & Hrun & Hc & Hoff).
    exists r, st'. split; [exact Hrun|]. destruct Hc.
    split; [rewrite cf_registry0; exact El|].
    split; [intros k _; rewrite cf_registry0; reflexivity|].
    split; [intros r0 [= <-]; reflexivity|].
    do 5 (split; [assumption|]).
    assert (Hrest' : at_rest st').
    { intros q. destruct (Nat.eq_dec q r) as [->|Hne];
        [apply cf_quiet0, Hrest|rewrite cf_others0 by exact Hne; apply Hrest]. }
    split; [exact Hrest'|]. split; [|split; [exact cf_others0|exact Hoff]].
    split; [split|].
    + rewrite cf_registry0. exact Hnd.
    + intros k r' Hl. rewrite cf_registry0 in Hl.
      destruct (Nat.eq_dec r' r) as [->|Hne].
      * rewrite cf_segment0. apply Hseg. exact Hl.
      * rewrite cf_others0 by exact Hne. apply Hseg. exact Hl.
    + intros k r' Hl. rewrite cf_registry0 in Hl. rewrite cf_nextRef0.
      apply (Hfresh k r' Hl).
  - destruct (addSegmentGroup_runs fuel i st)
      as (s1 & Hadd & Hreg & Hnext & Hsegs & _ & _ & Hview & Hsi & Hq1 & Hoth).
    rewrite Hadd. set (r := nextRef st) in *.
    destruct (pass_over_group fuel r s1 Hq1) as (st' & Hrun & Hc & Hoff).
    exists r, st'. split; [exact Hrun|]. destruct Hc.
    split; [rewrite cf_registry0, Hreg; apply lookup_assign_same|].
    split; [intros k Hk; rewrite cf_registry0, Hreg;
            apply lookup_assign_other; exact Hk|].
    split; [intros r0 [=]|].
    split; [congruence|]. split; [congruence|].
    destruct (addSegmentGroup_pointer fuel i st s1 r Hadd) as (Hmx & Hmy & Hov).
    do 3 (split; [congruence|]).
    assert (Hrest' : at_rest st').
    { intros q. destruct (Nat.eq_dec q r) as [->|Hne];
        [apply cf_quiet0, Hq1|].
      rewrite cf_others0, Hoth by exact Hne. apply Hrest. }
    split; [exact Hrest'|].
    assert (Hfr : forall k r', lookup (_segmentGroups st) k = Some r' -> r' <> r).
    { intros k r' Hl C. pose proof (Hfresh k r' Hl). subst r'. unfold r in *. lia. }
    split; [|split].
    + split; [split|].
      * rewrite cf_registry0, Hreg, keys_assign_absent by exact El.
        apply NoDup_app_one; [exact Hnd|apply lookup_absent_keys; exact El].
      * intros k r' Hl. rewrite cf_registry0, Hreg in Hl.
        destruct (String.eqb k i) eqn:E.
        -- apply String.eqb_eq in E. subst k.
           rewrite lookup_assign_same in Hl. injection Hl as <-.
           rewrite cf_segment0. exact Hsi.
        -- apply String.eqb_neq in E.
           rewrite lookup_assign_other in Hl by exact E.
           pose proof (Hfr k r' Hl) as Hne.
           rewrite cf_others0, Hoth by exact Hne. apply Hseg. exact Hl.
      * intros k r' Hl. rewrite cf_registry0, Hreg in Hl. rewrite cf_nextRef0, Hnext.
        destruct (String.eqb k i) eqn:E.
        -- apply String.eqb_eq in E. subst k.
           rewrite lookup_assign_same in Hl. injection Hl as <-. unfold r. lia.
        -- apply String.eqb_neq in E.
           rewrite lookup_assign_other in Hl by exact E.
           pose proof (Hfresh k r' Hl). lia.
    + intros q Hq. rewrite cf_others0, Hoth by exact Hq. reflexivity.
    + intros Hoff'. apply Hoff. congruence.
Qed.

Lemma update_each_spec fuel found :
  forall st,
    at_rest st -> well_formed st ->
    exists st',
      update_each (S fuel) found st = Some st'
      /\ at_rest st' /\ well_formed st'
      /\ segs st' = segs st
      /\ _view st' = _view st
      /\ _isMouseOver st' = _isMouseOver st
      /\ (forall k r, lookup (_segmentGroups st) k = Some r ->
                      lookup (_segmentGroups st') k = Some r)
      /\ (forall k, lookup (_segmentGroups st') k <> None ->
                    In k found \/ lookup (_segmentGroups st) k <> None)
      /\ (forall k, In k found -> lookup (_segmentGroups st') k <> None)
      /\ (_isMouseOver st = false ->
          (forall k r, lookup (_segmentGroups st) k = Some r ->
                       hover_off (groups st r) -> hover_off (groups st' r))
          /\ (forall k r, In k found -> lookup (_segmentGroups st') k = Some r ->
                          hover_off (groups st' r))).
Proof.
  induction found as [|i found IH]; intros st Hrest Hwf; cbn [update_each].
  - exists st. split; [reflexivity|]. split; [exact Hrest|]. split; [exact Hwf|].
    split; [reflexivity|]. split; [reflexivity|]. split; [reflexivity|].
    split; [auto|].
    split; [auto|]. split; [intros k []|]. intros _. split; [auto|intros k r []].
  - destruct (update_one_spec fuel i st Hrest Hwf)
      as (r & s1 & Hrun & Hli & Hlk & Hl0 & Hsegs & Hview & _ & _ & Hov
          & Hrest1 & Hwf1 & Hoth & Hoff).
    rewrite Hrun.
    destruct (IH s1 Hrest1 Hwf1)
      as (st' & Hrun' & Hrest' & Hwf' & Hsegs' & Hview' & Hov' & Hkeep & Hfrom
          & Hall & Hh).
    exists st'. split; [exact Hrun'|]. split; [exact Hrest'|]. split; [exact Hwf'|].
    split; [congruence|]. split; [congruence|]. split; [congruence|].
    assert (Hkeep1 : forall k r0, lookup (_segmentGroups st) k = Some r0 ->
                                  lookup (_segmentGroups s1) k = Some r0).
    { intros k r0 Hl. destruct (String.eqb k i) eqn:E.
      - apply String.eqb_eq in E. subst k. rewrite Hli. f_equal. symmetry.
        apply Hl0. exact Hl.
      - apply String.eqb_neq in E. rewrite Hlk by exact E. exact Hl. }
    split; [intros k r0 Hl; apply Hkeep, Hkeep1; exact Hl|].
    split; [|split].
    + intros k Hk. destruct (String.eqb k i) eqn:E.
      * apply String.eqb_eq in E. left. left. symmetry. exact E.
      * apply String.eqb_neq in E. destruct (Hfrom k Hk) as [Hin|Hl].
        -- left. right. exact Hin.
        -- right. rewrite <- Hlk by exact E. exact Hl.
    + intros k [<-|Hk]; [|apply Hall; exact Hk].
      rewrite (Hkeep i r Hli). discriminate.
    + intros Hover. destruct (Hh ltac:(congruence)) as [Hpres Hest].
      assert (Hr : hover_off (groups st' r)).
      { apply (Hpres i r Hli). apply Hoff. exact Hover. }
      split.
      * intros k r0 Hl Hoffk. apply (Hpres k r0 (Hkeep1 k r0 Hl)).
        destruct (Nat.eq_dec r0 r) as [->|Hne]; [apply Hoff; exact Hover|].
        rewrite Hoth by exact Hne. exact Hoffk.
      * intros k r0 [<-|Hk] Hl; [|apply (Hest k r0 Hk Hl)].
        rewrite (Hkeep i r Hli) in Hl. injection Hl as <-. exact Hr.
Qed.

Section Reconciliation.

Variable isVisible : Segment -> Q -> Q -> bool.

Lemma registry_ok_removeSegment i st :
  registry_ok st -> registry_ok (_removeSegment i st).
Proof.
  intros [Hnd Hseg]. split.
  - unfold _removeSegment. destruct (lookup _ _); [|exact Hnd].
    apply NoDup_keys_delete. exact Hnd.
  - intros k r Hl. rewrite removeSegment_lookup in Hl.
    destruct (String.eqb k i); [discriminate|].
    destruct (removeSegment_rest i st) as (-> & _). apply Hseg. exact Hl.
Qed.

Lemma remove_each_lookup keys s e :
  forall n st,
    registry_ok st ->
    forall k,
      lookup (_segmentGroups (snd (remove_each isVisible keys s e n st))) k
      = if existsb (String.eqb k) keys && negb (isVisible (segs st k) s e)
        then None
        else lookup (_segmentGroups st) k.
Proof.
  induction keys as [|k0 keys IH]; intros n st Hok k; cbn [remove_each existsb].
  - reflexivity.
  - destruct (lookup (_segmentGroups st) k0) as [r|] eqn:El.
    + rewrite (proj2 Hok k0 r El).
      destruct (isVisible (segs st k0) s e) eqn:Ev; cbn [negb].
      * rewrite IH by exact Hok.
        destruct (String.eqb k k0) eqn:E; cbn [orb]; [|reflexivity].
        apply String.eqb_eq in E. subst k. rewrite Ev. cbn [negb].
        rewrite !andb_false_r. reflexivity.
      * rewrite IH by (apply registry_ok_removeSegment; exact Hok).
        destruct (removeSegment_rest k0 st) as (_ & -> & _).
        rewrite removeSegment_lookup.
        destruct (String.eqb k k0) eqn:E; cbn [orb].
        -- apply String.eqb_eq in E. subst k. rewrite Ev. cbn [negb andb].
           destruct (_ && _); reflexivity.
        -- reflexivity.
    + rewrite IH by exact Hok.
      destruct (String.eqb k k0) eqn:E; cbn [orb]; [|reflexivity].
      apply String.eqb_eq in E. subst k. rewrite El.
      destruct (_ && _); destruct (negb _); reflexivity.
Qed.

Lemma remove_each_frame keys s e :
  forall n st,
    groups (snd (remove_each isVisible keys s e n st)) = groups st
    /\ segs (snd (remove_each isVisible keys s e n st)) = segs st
    /\ nextRef (snd (remove_each isVisible keys s e n st)) = nextRef st
    /\ emitted (snd (remove_each isVisible keys s e n st)) = emitted st
    /\ _view (snd (remove_each isVisible keys s e n st)) = _view st
    /\ _isMouseOver (snd (remove_each isVisible keys s e n st)) = _isMouseOver st.
Proof.
  induction keys as [|k0 keys IH]; intros n st; cbn [remove_each].
  - repeat split.
  - destruct (lookup _ _); [|apply IH]. destruct (negb _); [|apply IH].
    destruct (IH (S n) (_removeSegment (segment (groups st r)) st))
      as (-> & -> & -> & -> & -> & ->).
    unfold _removeSegment. destruct (lookup _ _); repeat split.
Qed.

Lemma lookup_some_keys l k :
  existsb (String.eqb k) (map fst l) = false -> lookup l k = None.
Proof.
  induction l as [|[k0 r0] l IH]; cbn; [reflexivity|].
  rewrite String.eqb_sym. destruct (String.eqb k0 k); cbn; [discriminate|exact IH].
Qed.

Lemma removeInvisible_lookup (s e : Q) (st : Layer) :
  registry_ok st ->
  forall k,
    lookup (_segmentGroups (snd (_removeInvisibleSegments isVisible s e st))) k
    = if isVisible (segs st k) s e then lookup (_segmentGroups st) k else None.
Proof.
  intros Hok k. unfold _removeInvisibleSegments.
  rewrite remove_each_lookup by exact Hok.
  destruct (existsb (String.eqb k) (map fst (_segmentGroups st))) eqn:E;
    cbn [andb].
  - destruct (isVisible (segs st k) s e); reflexivity.
  - rewrite (lookup_some_keys _ _ E).
    destruct (isVisible (segs st k) s e); reflexivity.
Qed.

Lemma remove_each_registry_ok keys s e :
  forall n st,
    registry_ok st -> registry_ok (snd (remove_each isVisible keys s e n st)).
Proof.
  induction keys as [|k0 keys IH]; intros n st Hok; cbn [remove_each].
  - exact Hok.
  - destruct (lookup _ _); [|apply IH; exact Hok].
    destruct (negb _); [|apply IH; exact Hok].
    apply IH. apply registry_ok_removeSegment. exact Hok.
Qed.

(** X26.  After [_removeInvisibleSegments] the registry holds exactly the
    groups it held whose segments are visible in the given range: each of
    these under its key as before, and no other key.  The segments and the
    view are untouched, and nothing is emitted. *)
Theorem removeInvisible_keeps_the_visible (s e : Q) (st : Layer) :
  registry_ok st ->
  let st' := snd (_removeInvisibleSegments isVisible s e st) in
  (forall k,
      lookup (_segmentGroups st') k
      = if isVisible (segs st k) s e then lookup (_segmentGroups st) k
        else None)
  /\ registry_ok st'
  /\ segs st' = segs st
  /\ _view st' = _view st
  /\ emitted st' = emitted st.
Proof.
  intros Hok st'. split; [apply removeInvisible_lookup; exact Hok|].
  split; [apply remove_each_registry_ok; exact Hok|].
  destruct (remove_each_frame (map fst (_segmentGroups st)) s e 0%nat st)
    as (_ & Hs & _ & He & Hv & _).
  repeat split; assumption.
Qed.

(** What [updateSegments] leaves, from what [update_each] and the removal
    leave. *)
Lemma updateSegments_runs fuel found s e st :
  at_rest st -> well_formed st ->
  exists st1 st',
    update_each (S fuel) found (set_visibleSegmentsCount (List.length found) st)
    = Some st1
    /\ updateSegments isVisible (S fuel) found s e st = Some st'
    /\ _segmentGroups st'
       = _segmentGroups (snd (_removeInvisibleSegments isVisible s e st1))
    /\ groups st' = groups st1
    /\ segs st' = segs st
    /\ nextRef st' = nextRef st1
    /\ _isMouseOver st' = _isMouseOver st
    /\ well_formed st1
    /\ (forall k, lookup (_segmentGroups st1) k <> None <->
                  In k found \/ lookup (_segmentGroups st) k <> None)
    /\ (_isMouseOver st = false ->
        forall k r, In k found -> lookup (_segmentGroups st1) k = Some r ->
                    hover_off (groups st1 r)).
Proof.
  intros Hrest Hwf.
  destruct (update_each_spec fuel found
              (set_visibleSegmentsCount (List.length found) st) Hrest Hwf)
    as (st1 & Hrun & Hrest1 & Hwf1 & Hsegs & Hview & Hov & Hkeep & Hfrom & Hall & Hh).
  cbn [segs _view _isMouseOver _segmentGroups groups set_visibleSegmentsCount]
    in Hsegs, Hview, Hov, Hkeep, Hfrom, Hh.
  exists st1. unfold updateSegments. rewrite Hrun.
  unfold _removeInvisibleSegments.
  destruct (remove_each_frame (map fst (_segmentGroups st1)) s e 0 st1)
    as (Fg & Fs & Fn & _ & _ & Fo).
  destruct (remove_each isVisible (map fst (_segmentGroups st1)) s e 0 st1)
    as [removed st2]. cbn [snd] in *.
  exists (if (0 <? List.length found + removed)%nat then draw st2 else st2).
  split; [reflexivity|].
  split; [destruct (0 <? _)%nat; reflexivity|].
  split; [destruct (0 <? _)%nat; reflexivity|].
  split; [destruct (0 <? _)%nat; exact Fg|].
  split; [destruct (0 <? _)%nat; cbn [segs draw set_draws]; congruence|].
  split; [destruct (0 <? _)%nat; exact Fn|].
  split; [destruct (0 <? _)%nat; cbn [_isMouseOver draw set_draws]; congruence|].
  split; [exact Hwf1|]. split.
  - intros k. split; [apply Hfrom|].
    intros [Hin|Hl]; [apply Hall; exact Hin|].
    destruct (lookup (_segmentGroups st) k) as [r|] eqn:El; [|congruence].
    rewrite (Hkeep k r El). discriminate.
  - intros Hoff. apply (proj2 (Hh Hoff)).
Qed.

(** X27.  A pass of [updateSegments] over a layer at rest brings the
    registry in line with the frame: afterwards a segment has a group
    exactly when it is visible in the range and was either returned by the
    host's [find] or on display before; the registry still names each group
    by its segment, once, and no segment time has changed. *)
Theorem updateSegments_reconciles (fuel : nat) (found : list SegId)
                                  (s e : Q) (st : Layer) :
  at_rest st -> well_formed st ->
  exists st',
    updateSegments isVisible (S fuel) found s e st = Some st'
    /\ well_formed st' /\ at_rest st'
    /\ segs st' = segs st
    /\ forall k,
         lookup (_segmentGroups st') k <> None
         <-> (In k found \/ lookup (_segmentGroups st) k <> None)
             /\ isVisible (segs st k) s e = true.
Proof.
  intros Hrest Hwf.
  destruct (updateSegments_runs fuel found s e st Hrest Hwf)
    as (st1 & st' & Hrun1 & Hrun & Hreg & Hg & Hsegs & Hn & _ & Hwf1 & Hiff & _).
  assert (Hsegs1 : segs st1 = segs st).
  { destruct (update_each_spec fuel found
                (set_visibleSegmentsCount (List.length found) st) Hrest Hwf)
      as (st1' & Hrun1' & _ & _ & Hs & _).
    rewrite Hrun1 in Hrun1'. injection Hrun1' as <-. exact Hs. }
  assert (Hrest1 : at_rest st1).
  { destruct (update_each_spec fuel found
                (set_visibleSegmentsCount (List.length found) st) Hrest Hwf)
      as (st1' & Hrun1' & Hr & _).
    rewrite Hrun1 in Hrun1'. injection Hrun1' as <-. exact Hr. }
  exists st'. split; [exact Hrun|].
  assert (Hlook : forall k,
             lookup (_segmentGroups st') k
             = if isVisible (segs st k) s e
               then lookup (_segmentGroups st1) k else None).
  { intros k. rewrite Hreg, removeInvisible_lookup by apply Hwf1.
    rewrite Hsegs1. reflexivity. }
  split; [|split; [|split; [exact Hsegs|]]].
  - split; [split|].
    + rewrite Hreg. unfold _removeInvisibleSegments.
      apply remove_each_registry_ok. apply Hwf1.
    + intros k r Hl. rewrite Hg. rewrite Hlook in Hl.
      destruct (isVisible _ _ _); [|discriminate]. apply Hwf1. exact Hl.
    + intros k r Hl. rewrite Hn. rewrite Hlook in Hl.
      destruct (isVisible _ _ _); [|discriminate]. apply (proj2 Hwf1 k r Hl).
  - intros q. rewrite Hg. apply Hrest1.
  - intros k. rewrite Hlook. destruct (isVisible (segs st k) s e).
    + rewrite Hiff. tauto.
    + split; [congruence|]. intros [_ C]. discriminate.
Qed.

Lemma lookup_In l k r : lookup l k = Some r -> In (k, r) l.
Proof.
  induction l as [|[k0 r0] l IH]; cbn; [discriminate|].
  destruct (String.eqb k0 k) eqn:E.
  - apply String.eqb_eq in E. subst. intros [= <-]. left. reflexivity.
  - intros H. right. apply IH. exact H.
Qed.

Lemma hover_off_unhovered g : hover_off g -> unhovered g.
Proof. intros (H1 & H2 & H3). unfold unhovered. rewrite H1, H2, H3. repeat split. Qed.

(** X28.  When the pointer leaves the layer, the layer being at rest and
    the host's [find] returning every segment on display: the listener runs
    to its end, the layer no longer counts the pointer as over it, and no
    group left in the registry is hovered, neither its body nor one of its
    handles. *)
Theorem mouseleave_clears_hover (fuel : nat) (found : list SegId) (st : Layer) :
  at_rest st -> well_formed st ->
  (forall k, lookup (_segmentGroups st) k <> None -> In k found) ->
  exists st',
    on_mouseleave isVisible (S fuel) found st = Some st'
    /\ _isMouseOver st' = false
    /\ forall k r, lookup (_segmentGroups st') k = Some r ->
                   unhovered (groups st' r).
Proof.
  intros Hrest Hwf Hfound. unfold on_mouseleave.
  set (st0 := set_mouse _ _ (set_layer_isMouseOver false st)).
  destruct (existsb _ (_segmentGroups st0)) eqn:E.
  - unfold _updateVisibleSegments.
    destruct (updateSegments_runs fuel found (frameStartTime st0)
                (frameEndTime st0) st0 Hrest Hwf)
      as (st1 & st' & _ & Hrun & Hreg & Hg & _ & _ & Hov & Hwf1 & Hiff & Hoff).
    rewrite Hrun. eexists. split; [reflexivity|].
    cbn [_isMouseOver _segmentGroups groups draw set_draws].
    split; [rewrite Hov; reflexivity|].
    intros k r Hl. rewrite Hg. rewrite Hreg in Hl.
    rewrite removeInvisible_lookup in Hl by apply Hwf1.
    destruct (isVisible _ _ _); [|discriminate].
    apply hover_off_unhovered. apply (Hoff eq_refl k r); [|exact Hl].
    assert (Hk : lookup (_segmentGroups st1) k <> None) by congruence.
    apply Hiff in Hk. destruct Hk as [Hin|Hk]; [exact Hin|].
    apply Hfound. exact Hk.
  - exists st0. split; [reflexivity|]. split; [reflexivity|].
    intros k r Hl. apply lookup_In in Hl.
    assert (Hf : forall kr, In kr (_segmentGroups st0) ->
                 (truthy (isMouseOver (groups st0 (snd kr)))
                  || truthy (handle_isMouseOver (startHandle (groups st0 (snd kr))))
                  || truthy (handle_isMouseOver (endHandle (groups st0 (snd kr)))))
                 = false).
    { intros kr Hin. destruct (_ || _ || _) eqn:T; [|reflexivity].
      assert (C : existsb
                    (fun kr =>
                       truthy (isMouseOver (groups st0 (snd kr)))
                       || truthy (handle_isMouseOver (startHandle (groups st0 (snd kr))))
                       || truthy (handle_isMouseOver (endHandle (groups st0 (snd kr)))))
                    (_segmentGroups st0) = true).
      { apply existsb_exists. exists kr. split; [exact Hin|exact T]. }
      cbv zeta in E. congruence. }
    specialize (Hf (k, r) Hl). cbn [snd] in Hf.
    apply orb_false_iff in Hf. destruct Hf as [Hf H3].
    apply orb_false_iff in Hf. destruct Hf as [H1 H2].
    split; [exact H1|]. split; assumption.
Qed.

End Reconciliation.

Lemma well_formed_pressedStart : well_formed pressedStartLayer.
Proof.
  split; [exact registry_ok_pressedStart|].
  intros k r H.
  change (_segmentGroups pressedStartLayer)
    with [("left", 0%nat); ("mid", 1%nat); ("right", 2%nat)] in H.
  change (nextRef pressedStartLayer) with 3%nat.
  cbn [lookup] in H.
  destruct (String.eqb "left" k); [injection H as <-; lia|].
  destruct (String.eqb "mid" k); [injection H as <-; lia|].
  destruct (String.eqb "right" k); [injection H as <-; lia|].
  discriminate.
Qed.

Lemma pressedStart_keys k :
  lookup (_segmentGroups pressedStartLayer) k <> None ->
  In k ["left"; "mid"; "right"].
Proof.
  change (_segmentGroups pressedStartLayer)
    with [("left", 0%nat); ("mid", 1%nat); ("right", 2%nat)].
  cbn [lookup]. intros H.
  destruct (String.eqb "left" k) eqn:E1;
    [apply String.eqb_eq in E1; subst; cbn; tauto|].
  destruct (String.eqb "mid" k) eqn:E2;
    [apply String.eqb_eq in E2; subst; cbn; tauto|].
  destruct (String.eqb "right" k) eqn:E3;
    [apply String.eqb_eq in E3; subst; cbn; tauto|].
  congruence.
Qed.

(** The range from 0 to 1.8 s: ["left"] stays, ["mid"] goes. *)
Lemma removeInvisible_keeps_the_visible_witness :
  registry_ok pressedStartLayer
  /\ lookup (_segmentGroups
               (snd (_removeInvisibleSegments overlaps 0 (18 # 10)
                       pressedStartLayer))) "left" = Some 0%nat
  /\ lookup (_segmentGroups
               (snd (_removeInvisibleSegments overlaps 0 (18 # 10)
                       pressedStartLayer))) "mid" = None.
Proof.
  split; [exact registry_ok_pressedStart|].
  destruct (removeInvisible_keeps_the_visible overlaps 0 (18 # 10)
              pressedStartLayer registry_ok_pressedStart) as [H _].
  rewrite !H. split; reflexivity.
Defined.

(** A pass over the range from 0 to 1.8 s that finds ["left"]. *)
Lemma updateSegments_reconciles_witness :
  at_rest pressedStartLayer /\ well_formed pressedStartLayer
  /\ exists st',
       updateSegments overlaps 1 ["left"] 0 (18 # 10) pressedStartLayer
       = Some st'
       /\ (lookup (_segmentGroups st') "left" <> None
           <-> (In "left" ["left"]
                \/ lookup (_segmentGroups pressedStartLayer) "left" <> None)
               /\ overlaps (segs pressedStartLayer "left") 0 (18 # 10) = true).
Proof.
  split; [exact at_rest_pressedStart|]. split; [exact well_formed_pressedStart|].
  destruct (updateSegments_reconciles overlaps 0 ["left"] 0 (18 # 10)
              pressedStartLayer at_rest_pressedStart well_formed_pressedStart)
    as (st' & Hrun & _ & _ & _ & Hiff).
  exists st'. split; [exact Hrun|apply Hiff].
Defined.

(** The pointer leaves the layer while it is over the start handle of
    ["mid"]. *)
Lemma mouseleave_clears_hover_witness :
  at_rest pressedStartLayer /\ well_formed pressedStartLayer
  /\ handle_isMouseOver (startHandle (groups pressedStartLayer 1%nat)) = Some true
  /\ exists st',
       on_mouseleave overlaps 1 ["left"; "mid"; "right"] pressedStartLayer
       = Some st'
       /\ _isMouseOver st' = false.
Proof.
  split; [exact at_rest_pressedStart|]. split; [exact well_formed_pressedStart|].
  split; [reflexivity|].
  destruct (mouseleave_clears_hover overlaps 0 ["left"; "mid"; "right"]
              pressedStartLayer at_rest_pressedStart well_formed_pressedStart
              pressedStart_keys)
    as (st' & Hrun & Hov & _).
  exists st'. split; [exact Hrun|exact Hov].
Defined.

End LayerListeners.

(** ** Segment markers *)

Section MarkerFacts.
Import Js.

Lemma max_min_limits (pos lo hi : Q) :
  exists r : Q,
    Math_max (Fin lo) (Math_min (Fin hi) (Fin pos)) = Fin r
    /\ (lo <= hi ->
        lo <= r <= hi
        /\ (exists c, Utils.clamp (Fin pos) (Fin lo) (Fin hi) = Fin c
                      /\ r == c)
        /\ (lo <= pos <= hi -> r == pos))
    /\ (hi < lo -> r == lo).
Proof.
  rewrite Math_min_Fin, Math_max_Fin. eexists. split; [reflexivity|].
  unfold Utils.clamp, gt. cbn [lt].
  destruct (Qltb pos hi) eqn:E1;
    [apply Qltb_true in E1|apply Qltb_false in E1];
  (destruct (Qltb lo pos) eqn:E2;
    [apply Qltb_true in E2|apply Qltb_false in E2]);
  (destruct (Qltb lo hi) eqn:E3;
    [apply Qltb_true in E3|apply Qltb_false in E3]);
  (destruct (Qltb pos lo) eqn:E4;
    [apply Qltb_true in E4|apply Qltb_false in E4]);
  (destruct (Qltb hi pos) eqn:E5;
    [apply Qltb_true in E5|apply Qltb_false in E5]);
  try (exfalso; lra);
  (split; [intros Hb; split; [lra|split; [eexists; split; [reflexivity|lra]
                                         |intros; lra]]
          |intros; lra]).
Qed.

(** X29.  Once [dragstart] has stored the neighbour's edge, and with both
    limits finite, [dragBoundFunc] keeps the height of the handle and holds
    its horizontal position between the two limits, giving the number
    [Utils.clamp] would, as long as the lower limit is not above the upper
    one; when the limits have crossed, the position is the lower limit
    wherever the pointer is: the in marker goes to the neighbour's edge,
    beyond its own out marker, and the out marker to its own in marker,
    beyond the neighbour's edge. *)
Theorem dragBoundFunc_limits (isInMarker : bool)
                             (neighbour : option Mixins.Marker)
                             (viewWidth : JsNum)
                             (this inMarker outMarker : Mixins.Marker)
                             (pos lo hi : Q) (y : JsNum) :
  Mixins.lower_limit isInMarker neighbour inMarker = Fin lo ->
  Mixins.upper_limit isInMarker neighbour viewWidth outMarker = Fin hi ->
  exists r : Q,
    Mixins.dragBoundFunc isInMarker
      (Mixins.dragstart isInMarker neighbour viewWidth this)
      inMarker outMarker (Fin pos) y
    = (Fin r, y)
    /\ (lo <= hi ->
        lo <= r <= hi
        /\ (exists c, Utils.clamp (Fin pos) (Fin lo) (Fin hi) = Fin c
                      /\ r == c)
        /\ (lo <= pos <= hi -> r == pos))
    /\ (hi < lo -> r == lo).
Proof.
  intros H1 H2. unfold Mixins.dragBoundFunc, Mixins.dragstart.
  destruct (max_min_limits pos lo hi) as (r & Hr & Hrest).
  exists r. split; [|exact Hrest].
  unfold Mixins.lower_limit, Mixins.upper_limit in H1, H2.
  destruct isInMarker; cbv zeta;
    cbn [Mixins.leftNeighbourX Mixins.rightNeighbourX Mixins.marker_x
         Mixins.marker_width];
    rewrite H1, H2, Hr; reflexivity.
Qed.

Lemma dragBoundFunc_limits_witness :
  exists r : Q,
    Mixins.dragBoundFunc true
      (Mixins.dragstart true (Some (Mixins.mkMarker (Fin 40) (Fin 3) NaN NaN))
         (Fin 1000) (Mixins.mkMarker (Fin 60) (Fin 3) NaN NaN))
      (Mixins.mkMarker (Fin 60) (Fin 3) NaN NaN)
      (Mixins.mkMarker (Fin 90) (Fin 3) NaN NaN) (Fin 20) (Fin 0)
    = (Fin r, Fin 0)
    /\ (40 + 3 <= 90 - 3 ->
        40 + 3 <= r <= 90 - 3
        /\ (exists c, Utils.clamp (Fin 20) (Fin (40 + 3)) (Fin (90 - 3)) = Fin c
                      /\ r == c)
        /\ (40 + 3 <= 20 <= 90 - 3 -> r == 20))
    /\ (90 - 3 < 40 + 3 -> r == 40 + 3).
Proof.
  apply (dragBoundFunc_limits true
           (Some (Mixins.mkMarker (Fin 40) (Fin 3) NaN NaN)) (Fin 1000)
           (Mixins.mkMarker (Fin 60) (Fin 3) NaN NaN)
           (Mixins.mkMarker (Fin 60) (Fin 3) NaN NaN)
           (Mixins.mkMarker (Fin 90) (Fin 3) NaN NaN) 20 (40 + 3) (90 - 3)
           (Fin 0)).
  - reflexivity.
  - reflexivity.
Defined.




End MarkerFacts.
